(** * Hellfire: transactional router configuration

    A shallow embedding of the core of the hellfire repository
    (pkg/uci, pkg/config, pkg/snapshot, pkg/appliers, pkg/transaction)
    together with the properties its specification states about it.

    Conventions of the embedding.

    - Go strings are modelled as [string] (sequences of 8-bit characters),
      and the loops of the source over runes as loops over these
      characters.  On ASCII text the two are the same: every character is
      a rune, and the white space that [strings.TrimSpace] trims is that of
      [isSpace].  On other text they differ: [strings.TrimSpace] also trims
      the Unicode white space (U+0085, U+00A0, ...), and a loop over runes
      that writes each rune back turns every byte that is not part of a
      valid UTF-8 sequence into U+FFFD.  A statement whose truth depends on
      what a string is trimmed to or read back as is made for ASCII strings.
    - A configuration name is the key of its file in the directory.  The
      source builds the path of the file with [filepath.Join], which leaves
      a name as it is when the name is not empty, not [.] or [..] and holds
      no separator; other names are outside the model.
    - A Go [map] is a [gmap]; the unspecified order of [range] over a map is a
      parameter of the development, see [MapRange].
    - A function returning [error] returns a [result]. *)

From stdpp Require Import gmap strings list fin_maps sorting.
From Stdlib Require Import ZArith Ascii String.

Open Scope string_scope.
Open Scope list_scope.

(** ** Results *)

Inductive result (E A : Type) : Type :=
| Ok (a : A)
| Err (e : E).
Arguments Ok {E A} a.
Arguments Err {E A} e.

Definition is_ok {E A} (r : result E A) : bool :=
  match r with Ok _ => true | Err _ => false end.

(** ** Iteration over Go maps

    [for k, v := range m] visits the entries of [m] in an order the language
    leaves unspecified.  The development is parametric in that order: any
    enumeration of the entries is allowed.  (In Go two loops over the same
    map may even disagree; here the order is a function of the map.  No
    statement below depends on two loops agreeing.) *)

Class MapRange := {
  range_map : forall {A : Type}, gmap string A -> list (string * A);
  range_map_perm : forall (A : Type) (m : gmap string A),
      range_map m ≡ₚ map_to_list m
}.

(** One admissible order: the canonical enumeration of the map. *)
Definition canonical_range : MapRange :=
  {| range_map := fun A m => map_to_list m;
     range_map_perm := fun A m => reflexivity _ |}.

(** ** The [strings] package, as far as the repository uses it *)

Module GoStrings.

Definition LF : ascii := "010"%char.
Definition CR : ascii := "013"%char.
Definition TAB : ascii := "009"%char.
Definition SQUOTE : ascii := "'"%char.
Definition DQUOTE : ascii := "034"%char.
Definition BACKSLASH : ascii := "\"%char.

(** The ASCII white space, as [unicode.IsSpace] sees it: tab, newline,
    vertical tab, form feed, carriage return and blank.  The white space
    beyond ASCII is not modelled. *)
Definition isSpace (c : ascii) : bool :=
  let n := nat_of_ascii c in
  ((9 <=? n)%nat && (n <=? 13)%nat) || (n =? 32)%nat.

Fixpoint TrimLeft (s : string) : string :=
  match s with
  | EmptyString => EmptyString
  | String c r => if isSpace c then TrimLeft r else s
  end.

Fixpoint TrimRight (s : string) : string :=
  match s with
  | EmptyString => EmptyString
  | String c r =>
      let r' := TrimRight r in
      if isSpace c && String.eqb r' "" then "" else String c r'
  end.

Definition TrimSpace (s : string) : string := TrimRight (TrimLeft s).

Definition HasPrefix (s p : string) : bool := String.prefix p s.

(** [s[n:]] for [n] within bounds. *)
Fixpoint skip (n : nat) (s : string) : string :=
  match n, s with
  | O, _ => s
  | S n', String _ r => skip n' r
  | S _, EmptyString => EmptyString
  end.

(** [strings.ReplaceAll(s, string(old), new)] for a one-character [old]. *)
Fixpoint ReplaceAll1 (s : string) (old : ascii) (new : string) : string :=
  match s with
  | EmptyString => EmptyString
  | String c r =>
      if Ascii.eqb c old then new +:+ ReplaceAll1 r old new
      else String c (ReplaceAll1 r old new)
  end.

Definition snoc (s : string) (c : ascii) : string := s +:+ String c "".

End GoStrings.

(** ** [bufio.Scanner] with the default [ScanLines] split function

    A line ends at a newline; one carriage return before it is dropped; the
    last line needs no newline if it is not empty.  A line that does not fit
    the scanner's buffer of [MaxScanTokenSize] bytes together with its newline
    stops the scan with [ErrTooLong]. *)

Module Bufio.
Import GoStrings.

Definition MaxScanTokenSize : Z := 65536.

Fixpoint dropCR (s : string) : string :=
  match s with
  | EmptyString => EmptyString
  | String c EmptyString => if Ascii.eqb c CR then "" else s
  | String c r => String c (dropCR r)
  end.

Definition tooLong (raw : string) : bool :=
  (MaxScanTokenSize <=? Z.of_nat (String.length raw))%Z.

(** The lines the scanner yields, and whether it stopped on a long line.
    [cur] is the part of the current line read so far. *)
Fixpoint scanFrom (s : string) (cur : string) : list string * bool :=
  match s with
  | EmptyString =>
      if String.eqb cur "" then ([], false)
      else if tooLong cur then ([], true)
      else ([dropCR cur], false)
  | String c r =>
      if Ascii.eqb c LF then
        if tooLong cur then ([], true)
        else let '(ls, e) := scanFrom r "" in (dropCR cur :: ls, e)
      else scanFrom r (snoc cur c)
  end.

Definition scanLines (text : string) : list string * bool := scanFrom text "".

End Bufio.

(** ** pkg/uci: the configuration format *)

Module Uci.
Import GoStrings.

(** types.go *)

Record Section := {
  Type_ : string;
  Name : string;
  Options : gmap string string;
  Lists : gmap string (list string)
}.

(** [Config.Sections] *)
Abbreviation Config := (list Section).

Definition NewConfig : Config := [].

Definition NewSection (sectionType name : string) : Section :=
  {| Type_ := sectionType; Name := name; Options := ∅; Lists := ∅ |}.

Definition AddSection (c : Config) (s : Section) : Config := c ++ [s].

Definition GetSection (c : Config) (sectionType name : string) : option Section :=
  List.find (fun s => String.eqb (Type_ s) sectionType && String.eqb (Name s) name) c.

Definition GetSectionsByType (c : Config) (sectionType : string) : list Section :=
  List.filter (fun s => String.eqb (Type_ s) sectionType) c.

Definition SetOption (s : Section) (key value : string) : Section :=
  {| Type_ := Type_ s; Name := Name s;
     Options := <[key := value]> (Options s); Lists := Lists s |}.

Definition GetOption (s : Section) (key : string) : option string :=
  Options s !! key.

Definition AddListValue (s : Section) (key value : string) : Section :=
  {| Type_ := Type_ s; Name := Name s; Options := Options s;
     Lists := <[key := default [] (Lists s !! key) ++ [value]]> (Lists s) |}.

Definition GetList (s : Section) (key : string) : list string :=
  default [] (Lists s !! key).

(** parser.go *)

Inductive ParseError :=
| ErrInvalidConfigLine (lineNum : nat)
| ErrOptionOutsideSection (lineNum : nat)
| ErrInvalidOptionLine (lineNum : nat)
| ErrListOutsideSection (lineNum : nat)
| ErrInvalidListLine (lineNum : nat)
| ErrUnknownSyntax (lineNum : nat) (line : string)
| ErrScanner.

(** [parseQuotedLine]: the loop over the characters of the line, with the
    loop variables [parts], [current], [inQuotes] and [quoteChar].  The
    characters are the runes of an ASCII line. *)
Fixpoint parseQuotedLoop (line : string) (parts : list string) (current : string)
    (inQuotes : bool) (quoteChar : ascii) : list string :=
  match line with
  | EmptyString =>
      if String.eqb current "" then parts else parts ++ [current]
  | String r rest =>
      if negb inQuotes && (Ascii.eqb r SQUOTE || Ascii.eqb r DQUOTE) then
        parseQuotedLoop rest parts current true r
      else if inQuotes && Ascii.eqb r quoteChar then
        parseQuotedLoop rest (parts ++ [current]) "" false zero
      else if inQuotes then
        parseQuotedLoop rest parts (snoc current r) inQuotes quoteChar
      else if Ascii.eqb r " " || Ascii.eqb r TAB then
        if String.eqb current "" then parseQuotedLoop rest parts current inQuotes quoteChar
        else parseQuotedLoop rest (parts ++ [current]) "" inQuotes quoteChar
      else
        parseQuotedLoop rest parts (snoc current r) inQuotes quoteChar
  end.

Definition parseQuotedLine (line : string) : list string :=
  parseQuotedLoop line [] "" false zero.

(** The state of [Parse] between two lines. *)
Record ParseState := {
  config : Config;
  currentSection : option Section
}.

Definition flushSection (st : ParseState) : Config :=
  match currentSection st with
  | Some s => AddSection (config st) s
  | None => config st
  end.

(** One turn of the loop of [Parse], on line number [lineNum]. *)
Definition parseLine (lineNum : nat) (st : ParseState) (raw : string)
  : result ParseError ParseState :=
  let line := TrimSpace raw in
  if String.eqb line "" || HasPrefix line "#" then Ok st
  else if HasPrefix line "config " then
    match parseQuotedLine (skip 7 line) with
    | [] => Err (ErrInvalidConfigLine lineNum)
    | sectionType :: more =>
        let sectionName := match more with n :: _ => n | [] => "" end in
        Ok {| config := flushSection st;
              currentSection := Some (NewSection sectionType sectionName) |}
    end
  else if HasPrefix line "option " then
    match currentSection st with
    | None => Err (ErrOptionOutsideSection lineNum)
    | Some s =>
        match parseQuotedLine (skip 7 line) with
        | [k; v] => Ok {| config := config st; currentSection := Some (SetOption s k v) |}
        | _ => Err (ErrInvalidOptionLine lineNum)
        end
    end
  else if HasPrefix line "list " then
    match currentSection st with
    | None => Err (ErrListOutsideSection lineNum)
    | Some s =>
        match parseQuotedLine (skip 5 line) with
        | [k; v] => Ok {| config := config st; currentSection := Some (AddListValue s k v) |}
        | _ => Err (ErrInvalidListLine lineNum)
        end
    end
  else Err (ErrUnknownSyntax lineNum line).

(** The loop of [Parse] over the scanned lines; [lineNum] is the number of
    lines read before. *)
Fixpoint parseLines (lineNum : nat) (st : ParseState) (lines : list string)
  : result ParseError ParseState :=
  match lines with
  | [] => Ok st
  | raw :: more =>
      match parseLine (S lineNum) st raw with
      | Ok st' => parseLines (S lineNum) st' more
      | Err e => Err e
      end
  end.

Definition initState : ParseState := {| config := NewConfig; currentSection := None |}.

Definition Parse (text : string) : result ParseError Config :=
  let '(lines, scanErr) := Bufio.scanLines text in
  match parseLines 0 initState lines with
  | Err e => Err e
  | Ok st => if scanErr then Err ErrScanner else Ok (flushSection st)
  end.

Definition escapeQuotes (s : string) : string :=
  ReplaceAll1 s SQUOTE (String BACKSLASH (String SQUOTE "")).

Definition tabStr : string := String TAB "".
Definition nl : string := String LF "".

Section Emit.
Context {mr : MapRange}.

Definition writeOption (kv : string * string) : string :=
  tabStr +:+ "option '" +:+ kv.1 +:+ "' '" +:+ escapeQuotes kv.2 +:+ "'" +:+ nl.

Definition writeListValue (key value : string) : string :=
  tabStr +:+ "list '" +:+ key +:+ "' '" +:+ escapeQuotes value +:+ "'" +:+ nl.

Definition writeList (kvs : string * list string) : string :=
  String.concat "" (List.map (writeListValue kvs.1) kvs.2).

Definition writeHeader (s : Section) : string :=
  if String.eqb (Name s) "" then "config " +:+ Type_ s +:+ nl
  else "config " +:+ Type_ s +:+ " '" +:+ Name s +:+ "'" +:+ nl.

Definition writeSection (s : Section) : string :=
  writeHeader s
  +:+ String.concat "" (List.map writeOption (range_map (Options s)))
  +:+ String.concat "" (List.map writeList (range_map (Lists s))).

(** [Write]: [first] tells whether the section is the first one. *)
Fixpoint writeSections (first : bool) (c : Config) : string :=
  match c with
  | [] => ""
  | s :: more =>
      (if first then "" else nl) +:+ writeSection s +:+ writeSections false more
  end.

Definition Write (c : Config) : string := writeSections true c.

End Emit.

End Uci.

(** ** The operating system, as far as the repository depends on it

    A directory is a finite map from file names to contents.  A system call
    can fail for reasons outside the program (permissions, a full disk, a
    failing device): which calls fail is given by a [Faults] oracle, passed to
    every operation that touches the disk. *)

Module Os.

Abbreviation Files := (gmap string string).

Inductive Op :=
| OpMkdir | OpReadDir | OpStat | OpOpen | OpRead | OpCreate | OpWrite
| OpRename | OpRemove | OpCopy | OpStatfs.

(** [fault io op path]: the call [op] on [path] fails. *)
Record Faults := { fault : Op -> string -> bool }.

Definition noFaults : Faults := {| fault := fun _ _ => false |}.

(** [util.CopyFileAtomic(src, dst)] where [content] is what [src] holds, if
    it exists: the temporary file is removed on every error path, so a failed
    copy leaves the destination directory as it was. *)
Definition CopyFileAtomic (io : Faults) (content : option string) (dst : string)
    (dir : Files) : bool * Files :=
  match content with
  | None => (false, dir)
  | Some data =>
      if fault io OpCopy dst then (false, dir)
      else (true, <[dst := data]> dir)
  end.

End Os.

(** ** pkg/config: the store of staged and active configurations *)

Module ConfigStore.
Import GoStrings Os.

(** The directory of the manager is fixed at its creation: its files are
    passed as [Files], keyed by the configuration names; what remains of
    [Manager] is the staging overlay. *)
Record Manager := { staged : gmap string Uci.Config }.

Definition NewManager : Manager := {| staged := ∅ |}.

Inductive Error :=
| ErrOpen (name : string)
| ErrParse (name : string) (e : Uci.ParseError)
| ErrNoStagedChanges
| ErrMkdirConfigDir
| ErrCreateTemp (name : string)
| ErrWriteConfig (name : string)
| ErrCommitConfig (name : string)
| ErrInvalidPath
| ErrSectionNotFound (sectionName : string)
| ErrOptionNameRequired
| ErrOptionNotFound (optionName : string).

Definition Load (io : Faults) (m : Manager) (dir : Files) (name : string)
  : result Error Uci.Config :=
  match staged m !! name with
  | Some c => Ok c
  | None =>
      if fault io OpOpen name then Err (ErrOpen name)
      else
        match dir !! name with
        | None => Ok Uci.NewConfig
        | Some text =>
            match Uci.Parse text with
            | Ok c => Ok c
            | Err e => Err (ErrParse name e)
            end
        end
  end.

Definition Stage (m : Manager) (name : string) (c : Uci.Config) : Manager :=
  {| staged := <[name := c]> (staged m) |}.

Definition HasChanges (m : Manager) : bool := negb (size (staged m) =? 0)%nat.

Definition Revert (m : Manager) : result Error unit * Manager :=
  if (size (staged m) =? 0)%nat then (Err ErrNoStagedChanges, m)
  else (Ok tt, {| staged := ∅ |}).

(** [splitPath]: the loop over the characters of the path, which are the
    runes of an ASCII path. *)
Fixpoint splitPathLoop (path : string) (parts : list string) (current : string)
  : list string :=
  match path with
  | EmptyString =>
      if String.eqb current "" then parts else parts ++ [current]
  | String r rest =>
      if Ascii.eqb r "." then
        if String.eqb current "" then splitPathLoop rest parts current
        else splitPathLoop rest (parts ++ [current]) ""
      else splitPathLoop rest parts (snoc current r)
  end.

Definition splitPath (path : string) : list string := splitPathLoop path [] "".

(** [parsePath]: config name, section name, option name. *)
Definition parsePath (path : string) : result Error (string * string * string) :=
  match splitPath path with
  | configName :: sectionName :: more =>
      Ok (configName, sectionName, match more with o :: _ => o | [] => "" end)
  | _ => Err ErrInvalidPath
  end.

(** The section a path segment addresses: the first one with that name, or
    without a name and of that type; with its index. *)
Fixpoint findSection (sectionName : string) (i : nat) (c : Uci.Config)
  : option (nat * Uci.Section) :=
  match c with
  | [] => None
  | s :: more =>
      if String.eqb (Uci.Name s) sectionName
         || (String.eqb (Uci.Name s) "" && String.eqb (Uci.Type_ s) sectionName)
      then Some (i, s)
      else findSection sectionName (S i) more
  end.

Definition Get (io : Faults) (m : Manager) (dir : Files) (path : string)
  : result Error string :=
  match parsePath path with
  | Err e => Err e
  | Ok (configName, sectionName, optionName) =>
      match Load io m dir configName with
      | Err e => Err e
      | Ok c =>
          match findSection sectionName 0 c with
          | None => Err (ErrSectionNotFound sectionName)
          | Some (_, s) =>
              if String.eqb optionName "" then Err ErrOptionNameRequired
              else match Uci.GetOption s optionName with
                   | Some v => Ok v
                   | None => Err (ErrOptionNotFound optionName)
                   end
          end
      end
  end.

(** [Set] changes the section in place inside the loaded document and stages
    the document. *)
Definition Set_ (io : Faults) (m : Manager) (dir : Files) (path value : string)
  : result Error unit * Manager :=
  match parsePath path with
  | Err e => (Err e, m)
  | Ok (configName, sectionName, optionName) =>
      match Load io m dir configName with
      | Err e => (Err e, m)
      | Ok c =>
          let c' :=
            match findSection sectionName 0 c with
            | Some (i, s) => <[i := Uci.SetOption s optionName value]> c
            | None =>
                Uci.AddSection c
                  (Uci.SetOption (Uci.NewSection sectionName sectionName) optionName value)
            end in
          (Ok tt, Stage m configName c')
      end
  end.

Section WithRange.
Context {mr : MapRange}.

Definition GetChanges (m : Manager) : list string := (range_map (staged m)).*1.

(** The body of the loop of [Commit] for one staged configuration: create
    [name.tmp], write the document into it, rename it over [name]. *)
Definition writeStaged (io : Faults) (dir : Files) (entry : string * Uci.Config)
  : result Error unit * Files :=
  let '(name, c) := entry in
  let tmpPath := name +:+ ".tmp" in
  if fault io OpCreate tmpPath then (Err (ErrCreateTemp name), dir)
  else
    let dir1 := <[tmpPath := ""]> dir in
    if fault io OpWrite tmpPath then (Err (ErrWriteConfig name), delete tmpPath dir1)
    else
      let dir2 := <[tmpPath := Uci.Write c]> dir1 in
      if fault io OpRename name then (Err (ErrCommitConfig name), delete tmpPath dir2)
      else (Ok tt, <[name := Uci.Write c]> (delete tmpPath dir2)).

Fixpoint writeAllStaged (io : Faults) (dir : Files) (entries : list (string * Uci.Config))
  : result Error unit * Files :=
  match entries with
  | [] => (Ok tt, dir)
  | entry :: more =>
      match writeStaged io dir entry with
      | (Ok _, dir') => writeAllStaged io dir' more
      | (Err e, dir') => (Err e, dir')
      end
  end.

Definition Commit (io : Faults) (m : Manager) (dir : Files)
  : result Error unit * Manager * Files :=
  if (size (staged m) =? 0)%nat then (Err ErrNoStagedChanges, m, dir)
  else if fault io OpMkdir "" then (Err ErrMkdirConfigDir, m, dir)
  else
    match writeAllStaged io dir (range_map (staged m)) with
    | (Err e, dir') => (Err e, m, dir')
    | (Ok _, dir') => (Ok tt, {| staged := ∅ |}, dir')
    end.

End WithRange.

End ConfigStore.

(** ** pkg/appliers: the netmask table of the network applier *)

Module NetworkApplier.

Definition DefaultCIDR : Z := 24.

Definition masks : list (string * Z) :=
  [ ("255.255.255.255", 32); ("255.255.255.254", 31); ("255.255.255.252", 30);
    ("255.255.255.248", 29); ("255.255.255.240", 28); ("255.255.255.224", 27);
    ("255.255.255.192", 26); ("255.255.255.128", 25); ("255.255.255.0", 24);
    ("255.255.254.0", 23); ("255.255.252.0", 22); ("255.255.248.0", 21);
    ("255.255.240.0", 20); ("255.255.224.0", 19); ("255.255.192.0", 18);
    ("255.255.128.0", 17); ("255.255.0.0", 16); ("255.254.0.0", 15);
    ("255.252.0.0", 14); ("255.248.0.0", 13); ("255.240.0.0", 12);
    ("255.224.0.0", 11); ("255.192.0.0", 10); ("255.128.0.0", 9);
    ("255.0.0.0", 8) ]%Z.

Definition masksMap : gmap string Z := list_to_map masks.

Definition convertNetmaskToCIDR (netmask : string) : Z :=
  match masksMap !! netmask with
  | Some cidr => cidr
  | None => DefaultCIDR
  end.

(** The dotted form of the netmask with [n] leading one bits, to compare the
    table with: each octet holds the next eight bits of the mask. *)
Definition octet (n : Z) (i : Z) : Z :=
  let bits := Z.min 8 (Z.max 0 (n - 8 * i)) in
  (256 - 2 ^ (8 - bits))%Z.

Definition digit (d : Z) : ascii := ascii_of_nat (48 + Z.to_nat d).

Definition decimal (v : Z) : string :=
  if (v <? 10)%Z then String (digit v) ""
  else if (v <? 100)%Z then String (digit (v / 10)) (String (digit (v mod 10)) "")
  else String (digit (v / 100))
         (String (digit ((v / 10) mod 10)) (String (digit (v mod 10)) "")).

Definition dottedMask (n : Z) : string :=
  decimal (octet n 0) +:+ "." +:+ decimal (octet n 1) +:+ "."
  +:+ decimal (octet n 2) +:+ "." +:+ decimal (octet n 3).

End NetworkApplier.

(** ** pkg/snapshot: the snapshot store *)

Module SnapshotStore.
Import GoStrings Os.

Record Metadata := {
  Timestamp : Z;                    (* time.Time, as an instant *)
  Message : string;
  Configs : list string;
  ID : string;
  Version : string;
  Checksums : gmap string string
}.

Record Snapshot := {
  SnapID : string;
  SnapMetadata : Metadata;
  Path : string
}.

(** What [metadata.json] of a snapshot directory holds. *)
Inductive MetaFile :=
| MetaMissing
| MetaUndecodable
| MetaOk (m : Metadata).

(** An entry of the snapshot directory: a plain file, or a directory with
    its metadata file and its configuration files. *)
Inductive Entry :=
| EFile
| EDir (meta : MetaFile) (files : Files).

Abbreviation SnapDir := (gmap string Entry).

Definition MetadataFile : string := "metadata.json".

Definition joinPath (a b : string) : string := a +:+ "/" +:+ b.

Inductive ValidateError :=
| VErrMissing (configName : string)
| VErrStat (configName : string)
| VErrRead (configName : string)
| VErrChecksumMismatch (configName expected actual : string)
| VErrOpen (configName : string)
| VErrInvalidUCI (configName : string) (e : Uci.ParseError).

Inductive Error :=
| ErrCreateSnapshotDir
| ErrReadSnapshotDir
| ErrDiskSpace
| ErrStatConfig (configName : string)
| ErrCopyConfig (configName : string)
| ErrReadForChecksum (configName : string)
| ErrWriteMetadata
| ErrNotFound (id : string)
| ErrOpenMetadata (id : string)
| ErrDecodeMetadata (id : string)
| ErrValidationFailed (cause : ValidateError)
| ErrRestoreConfig (configName : string)
| ErrDelete (id : string)
| ErrNoSnapshots.

(** [sort.Slice(snapshots, less)] with [less i j] the test that the
    timestamp of [i] is after that of [j]: some rearrangement of the slice in
    which no snapshot comes before a newer one.  The sort is not stable, so
    nothing more is known about snapshots of equal timestamp. *)
Definition newerOrEqual (a b : Snapshot) : Prop :=
  (Timestamp (SnapMetadata b) <= Timestamp (SnapMetadata a))%Z.

Class SortSlice := {
  sortNewestFirst : list Snapshot -> list Snapshot;
  sortNewestFirst_perm : forall l, sortNewestFirst l ≡ₚ l;
  sortNewestFirst_sorted : forall l, StronglySorted newerOrEqual (sortNewestFirst l)
}.

Definition snapFiles (dir : SnapDir) (path : string) : Files :=
  match dir !! path with
  | Some (EDir _ files) => files
  | _ => ∅
  end.

Definition Load (io : Faults) (dir : SnapDir) (id : string) : result Error Snapshot :=
  if fault io OpStat id then Err (ErrNotFound id)
  else
    match dir !! id with
    | None => Err (ErrNotFound id)
    | Some EFile => Err (ErrOpenMetadata id)
    | Some (EDir meta _) =>
        if fault io OpOpen (joinPath id MetadataFile) then Err (ErrOpenMetadata id)
        else
          match meta with
          | MetaMissing => Err (ErrOpenMetadata id)
          | MetaUndecodable => Err (ErrDecodeMetadata id)
          | MetaOk m => Ok {| SnapID := id; SnapMetadata := m; Path := id |}
          end
    end.

(** The loop of [List] over the directory entries. *)
Fixpoint listEntries (io : Faults) (dir : SnapDir) (entries : list (string * Entry))
  : list Snapshot :=
  match entries with
  | [] => []
  | (name, e) :: more =>
      match e with
      | EFile => listEntries io dir more
      | EDir meta _ =>
          if fault io OpStat (joinPath name MetadataFile) then listEntries io dir more
          else
            match meta with
            | MetaMissing => listEntries io dir more
            | _ =>
                match Load io dir name with
                | Ok s => s :: listEntries io dir more
                | Err _ => listEntries io dir more
                end
            end
      end
  end.

Section WithSort.
Context {ss : SortSlice}.
Variable sha256hex : string -> string.

Definition List (io : Faults) (dir : SnapDir) : result Error (list Snapshot) :=
  if fault io OpMkdir "" then Err ErrCreateSnapshotDir
  else if fault io OpReadDir "" then Err ErrReadSnapshotDir
  else Ok (sortNewestFirst (listEntries io dir (map_to_list dir))).

(** The checksum test of [ValidateSnapshot] for one file. *)
Definition verifyChecksum (io : Faults) (checksums : gmap string string)
    (srcPath configName data : string) : result ValidateError unit :=
  if (0 <? size checksums)%nat then
    match checksums !! configName with
    | Some expectedChecksum =>
        if fault io OpRead srcPath then Err (VErrRead configName)
        else
          let actualChecksum := sha256hex data in
          if String.eqb actualChecksum expectedChecksum then Ok tt
          else Err (VErrChecksumMismatch configName expectedChecksum actualChecksum)
    | None => Ok tt
    end
  else Ok tt.

(** The loop of [ValidateSnapshot] over [Metadata.Configs]. *)
Fixpoint validateConfigs (io : Faults) (checksums : gmap string string)
    (path : string) (files : Files) (configs : list string)
  : result ValidateError unit :=
  match configs with
  | [] => Ok tt
  | configName :: more =>
      let srcPath := joinPath path configName in
      if fault io OpStat srcPath then Err (VErrStat configName)
      else
        match files !! configName with
        | None => Err (VErrMissing configName)
        | Some data =>
            match verifyChecksum io checksums srcPath configName data with
            | Err e => Err e
            | Ok _ =>
                if fault io OpOpen srcPath then Err (VErrOpen configName)
                else
                  match Uci.Parse data with
                  | Err e => Err (VErrInvalidUCI configName e)
                  | Ok _ => validateConfigs io checksums path files more
                  end
            end
        end
  end.

Definition ValidateSnapshot (io : Faults) (dir : SnapDir) (snapshot : Snapshot)
  : result ValidateError unit :=
  validateConfigs io (Checksums (SnapMetadata snapshot)) (Path snapshot)
    (snapFiles dir (Path snapshot)) (Configs (SnapMetadata snapshot)).

(** The loop of [Restore] that copies the files back; [active] is the
    directory of active configurations. *)
Fixpoint restoreConfigs (io : Faults) (files : Files) (configs : list string)
    (active : Files) : result Error unit * Files :=
  match configs with
  | [] => (Ok tt, active)
  | configName :: more =>
      match CopyFileAtomic io (files !! configName) configName active with
      | (false, active') => (Err (ErrRestoreConfig configName), active')
      | (true, active') => restoreConfigs io files more active'
      end
  end.

Definition Restore (io : Faults) (dir : SnapDir) (active : Files) (id : string)
  : result Error unit * Files :=
  match Load io dir id with
  | Err e => (Err e, active)
  | Ok snapshot =>
      match ValidateSnapshot io dir snapshot with
      | Err e => (Err (ErrValidationFailed e), active)
      | Ok _ =>
          restoreConfigs io (snapFiles dir (Path snapshot))
            (Configs (SnapMetadata snapshot)) active
      end
  end.

(** [os.RemoveAll] on an entry of the snapshot directory.  It removes what
    it can and keeps going: every file of the directory whose removal does
    not fail is removed, [metadata.json] among them, and then the directory
    itself if nothing is left in it.  It reports an error when something
    could not be removed; what could not be removed stays.  Whether it did
    not fail, and the directory afterwards. *)
Definition RemoveAll (io : Faults) (dir : SnapDir) (id : string) : bool * SnapDir :=
  match dir !! id with
  | None => (negb (fault io OpRemove id), dir)
  | Some EFile =>
      if fault io OpRemove id then (false, dir) else (true, delete id dir)
  | Some (EDir meta files) =>
      let meta' :=
        match meta with
        | MetaMissing => MetaMissing
        | _ => if fault io OpRemove (joinPath id MetadataFile) then meta else MetaMissing
        end in
      let files' :=
        filter (fun kv => fault io OpRemove (joinPath id kv.1) = true) files in
      match meta' with
      | MetaMissing =>
          if decide (files' = ∅) then
            if fault io OpRemove id then (false, <[id := EDir MetaMissing ∅]> dir)
            else (true, delete id dir)
          else (false, <[id := EDir MetaMissing files']> dir)
      | _ => (false, <[id := EDir meta' files']> dir)
      end
  end.

Definition Delete (io : Faults) (dir : SnapDir) (id : string)
  : result Error unit * SnapDir :=
  match RemoveAll io dir id with
  | (false, dir') => (Err (ErrDelete id), dir')
  | (true, dir') => (Ok tt, dir')
  end.

(** What a call of [Prune] does: it returns the identifiers deleted and
    possibly an error, or it panics on an index out of range. *)
Inductive PruneOutcome :=
| PruneReturn (deleted : list string) (err : option Error)
| PrunePanic.

(** The loop of [Prune] from index [keep] on: [old] is [snapshots[keep:]]. *)
Fixpoint deleteOld (io : Faults) (dir : SnapDir) (old : list Snapshot)
    (deleted : list string) : PruneOutcome * SnapDir :=
  match old with
  | [] => (PruneReturn deleted None, dir)
  | s :: more =>
      match Delete io dir (SnapID s) with
      | (Err e, dir') => (PruneReturn deleted (Some e), dir')
      | (Ok _, dir') => deleteOld io dir' more (deleted ++ [SnapID s])
      end
  end.

Definition Prune (io : Faults) (keep : Z) (dir : SnapDir) : PruneOutcome * SnapDir :=
  match List io dir with
  | Err e => (PruneReturn [] (Some e), dir)
  | Ok snapshots =>
      if (Z.of_nat (List.length snapshots) <=? keep)%Z then (PruneReturn [] None, dir)
      else if (keep <? 0)%Z then (PrunePanic, dir)
      else deleteOld io dir (drop (Z.to_nat keep) snapshots) []
  end.

Definition GetLatest (io : Faults) (dir : SnapDir) : result Error Snapshot :=
  match List io dir with
  | Err e => Err e
  | Ok [] => Err ErrNoSnapshots
  | Ok (s :: _) => Ok s
  end.

(** The loop of [Create] that copies the configurations that exist into the
    snapshot; it yields the names copied. *)
Fixpoint copyConfigs (io : Faults) (active : Files) (configs : list string)
    (files : Files) (copied : list string)
  : result Error (list string) * Files :=
  match configs with
  | [] => (Ok copied, files)
  | configName :: more =>
      if fault io OpStat configName then (Err (ErrStatConfig configName), files)
      else
        match active !! configName with
        | None => copyConfigs io active more files copied
        | Some data =>
            match CopyFileAtomic io (Some data) configName files with
            | (false, files') => (Err (ErrCopyConfig configName), files')
            | (true, files') =>
                copyConfigs io active more files' (copied ++ [configName])
            end
        end
  end.

(** The loop of [Create] over the copied files that computes the checksums. *)
Fixpoint checksumConfigs (io : Faults) (path : string) (files : Files)
    (copied : list string) (checksums : gmap string string)
  : result Error (gmap string string) :=
  match copied with
  | [] => Ok checksums
  | configName :: more =>
      if fault io OpRead (joinPath path configName) then Err (ErrReadForChecksum configName)
      else
        checksumConfigs io path files more
          (<[configName := sha256hex (default "" (files !! configName))]> checksums)
  end.

(** [Create]: [id] is what [util.GenerateUniqueID] returns, [now] the time of
    the clock and [version] the version of the program.  From the moment the
    directory of the snapshot exists, every failure runs the deferred
    [os.RemoveAll] on it, whose own error is dropped. *)
Definition Create (io : Faults) (id : string) (now : Z) (version : string)
    (message : string) (configs : list string) (dir : SnapDir) (active : Files)
  : result Error Snapshot * SnapDir :=
  if fault io OpMkdir "" then (Err ErrCreateSnapshotDir, dir)
  else if fault io OpStatfs "" then (Err ErrDiskSpace, dir)
  else if fault io OpMkdir id then (Err ErrCreateSnapshotDir, dir)
  else
    match dir !! id with
    | Some EFile => (Err ErrCreateSnapshotDir, dir)
    | entry =>
        let '(meta0, files0) :=
          match entry with
          | Some (EDir meta files) => (meta, files)
          | _ => (MetaMissing, ∅)
          end in
        let cleanup (files : Files) : SnapDir :=
          (RemoveAll io (<[id := EDir meta0 files]> dir) id).2 in
        match copyConfigs io active configs files0 [] with
        | (Err e, files1) => (Err e, cleanup files1)
        | (Ok copiedConfigs, files1) =>
            match checksumConfigs io id files1 copiedConfigs ∅ with
            | Err e => (Err e, cleanup files1)
            | Ok checksums =>
                let metadata :=
                  {| Timestamp := now; Message := message; Configs := copiedConfigs;
                     ID := id; Version := version; Checksums := checksums |} in
                if fault io OpCreate (joinPath id MetadataFile)
                   || fault io OpWrite (joinPath id MetadataFile)
                   || fault io OpRename (joinPath id MetadataFile)
                then (Err ErrWriteMetadata, cleanup files1)
                else
                  let dir1 := <[id := EDir (MetaOk metadata) files1]> dir in
                  let dir2 :=
                    match List io dir1 with
                    | Err _ => dir1
                    | Ok snapshots =>
                        if (100 <? Z.of_nat (List.length snapshots))%Z
                        then (Prune io 100 dir1).2
                        else dir1
                    end in
                  (Ok {| SnapID := id; SnapMetadata := metadata; Path := id |}, dir2)
            end
        end
    end.

End WithSort.

End SnapshotStore.

(** ** pkg/transaction: the transaction engine

    The manager, the configuration store, the two directories, the running
    system the appliers act on and the goroutines of the confirmation timers
    form one [World].  A method of the manager holds the mutex of the manager
    from its first to its last statement, so it is one atomic step of the
    world.  Time is abstracted to the order of the steps: the expiry of a
    timer is a step of its own that can happen at any moment. *)

Module Transaction.
Import Os.

Inductive State :=
| StateIdle | StateInProgress | StatePending | StateCompleted | StateFailed.

#[global] Instance State_eq_dec : EqDecision State.
Proof. solve_decision. Defined.

Inductive EventType :=
| EventConfigChanged | EventConfigCommitted | EventConfigReverted
| EventSnapshotCreated | EventTransactionStarted | EventTransactionCompleted
| EventTransactionFailed | EventRollbackStarted.

(** The row of the transaction in the database. *)
Record TxRecord := {
  TxID : string;
  TxMessage : string;
  TxStatus : string;
  TxConfigs : list string;
  TxSnapshotID : string;
  TxError : option SnapshotStore.Error
}.

Record pendingConfirmation := {
  PendingSnapshot : SnapshotStore.Snapshot;
  Timeout : Z;
  StartTime : Z
}.

Inductive ReapplyError :=
| ReLoadFailed (configName : string) (e : ConfigStore.Error)
| ReApplyFailed (configName : string) (msg : string).

Inductive Error :=
| ErrBusy (s : State)
| ErrNoChanges
| ErrCreateSnapshot (e : SnapshotStore.Error)
| ErrCommitConfig (e : ConfigStore.Error)
| ErrContext
| ErrLoadConfig (applierName : string) (e : ConfigStore.Error)
| ErrApply (applierName : string) (msg : string)
| ErrValidation (applierName : string) (msg : string)
| ErrNoPending (s : State)
| ErrNoSnapshotToRollback (e : SnapshotStore.Error)
| ErrRestoreSnapshot (e : SnapshotStore.Error)
| ErrRollbackPartial (errors : list ReapplyError).

(** What the engine does to its surroundings, in order: events published on
    the bus, rows written to the database, audit entries, calls of appliers. *)
Inductive Effect :=
| EffPublish (type : EventType)
| EffDbCreate (r : TxRecord)
| EffDbUpdate (r : TxRecord)
| EffAudit (action : string) (success : bool)
| EffApply (applierName : string) (c : Uci.Config)
| EffValidate (applierName : string).

(** A [context.Context] as the engine sees it: whether it is done at the
    k-th time the engine looks at it. *)
Definition Context := nat -> bool.
Definition Background : Context := fun _ => false.

(** The goroutine of a confirmation timer: the channel that cancels it, and
    whether its timer has expired and it waits for the mutex. *)
Record Timer := { cancelCh : nat; expired : bool }.

Section Engine.
Context {mr : MapRange} {ss : SnapshotStore.SortSlice}.
Variable Sys : Type.
Variable sha256hex : string -> string.

(** An applier: [Apply] and [Validate] act on the running system and return
    an error message or nothing. *)
Record Applier := {
  Apply : Uci.Config -> Sys -> option string * Sys;
  Validate : Sys -> option string * Sys
}.

Record Manager := {
  applierRegistry : gmap string Applier;
  state : State;
  currentSnapshot : option SnapshotStore.Snapshot;
  currentTxRecord : option TxRecord;
  pendingConfirm : option pendingConfirmation;
  confirmCancelCh : option nat;
  applyOrder : list string;
  userID : option nat;
  username : string
}.

Record World := {
  mgr : Manager;
  configManager : ConfigStore.Manager;
  active : Files;
  snapshots : SnapshotStore.SnapDir;
  sys : Sys;
  trace : list Effect;
  closedChans : gset nat;
  chanCount : nat;
  timers : list Timer
}.

(** What a call finds in its surroundings: the faults of the disk, the
    identifiers and the time it draws, the context made by
    [context.WithTimeout], and whether the database is open. *)
Record Env := {
  io : Faults;
  txID : string;
  snapshotID : string;
  now : Z;
  version : string;
  timeoutCtx : Context;
  dbOpen : bool
}.

Definition NewManager (registry : gmap string Applier) : Manager :=
  {| applierRegistry := registry; state := StateIdle; currentSnapshot := None;
     currentTxRecord := None; pendingConfirm := None; confirmCancelCh := None;
     applyOrder := ["network"; "firewall"; "dhcp"]; userID := None; username := "" |}.

(** Field updates. *)
Definition withMgr (f : Manager -> Manager) (w : World) : World :=
  {| mgr := f (mgr w); configManager := configManager w; active := active w;
     snapshots := snapshots w; sys := sys w; trace := trace w;
     closedChans := closedChans w; chanCount := chanCount w; timers := timers w |}.

Definition setState (s : State) (m : Manager) : Manager :=
  {| applierRegistry := applierRegistry m; state := s;
     currentSnapshot := currentSnapshot m; currentTxRecord := currentTxRecord m;
     pendingConfirm := pendingConfirm m; confirmCancelCh := confirmCancelCh m;
     applyOrder := applyOrder m; userID := userID m; username := username m |}.

Definition setCurrentSnapshot (s : option SnapshotStore.Snapshot) (m : Manager) : Manager :=
  {| applierRegistry := applierRegistry m; state := state m;
     currentSnapshot := s; currentTxRecord := currentTxRecord m;
     pendingConfirm := pendingConfirm m; confirmCancelCh := confirmCancelCh m;
     applyOrder := applyOrder m; userID := userID m; username := username m |}.

Definition setTxRecord (r : option TxRecord) (m : Manager) : Manager :=
  {| applierRegistry := applierRegistry m; state := state m;
     currentSnapshot := currentSnapshot m; currentTxRecord := r;
     pendingConfirm := pendingConfirm m; confirmCancelCh := confirmCancelCh m;
     applyOrder := applyOrder m; userID := userID m; username := username m |}.

Definition setPendingConfirm (p : option pendingConfirmation) (m : Manager) : Manager :=
  {| applierRegistry := applierRegistry m; state := state m;
     currentSnapshot := currentSnapshot m; currentTxRecord := currentTxRecord m;
     pendingConfirm := p; confirmCancelCh := confirmCancelCh m;
     applyOrder := applyOrder m; userID := userID m; username := username m |}.

Definition setCancelCh (c : option nat) (m : Manager) : Manager :=
  {| applierRegistry := applierRegistry m; state := state m;
     currentSnapshot := currentSnapshot m; currentTxRecord := currentTxRecord m;
     pendingConfirm := pendingConfirm m; confirmCancelCh := c;
     applyOrder := applyOrder m; userID := userID m; username := username m |}.

Definition emit (es : list Effect) (w : World) : World :=
  {| mgr := mgr w; configManager := configManager w; active := active w;
     snapshots := snapshots w; sys := sys w; trace := trace w ++ es;
     closedChans := closedChans w; chanCount := chanCount w; timers := timers w |}.

Definition withDisk (c : ConfigStore.Manager) (a : Files) (s : SnapshotStore.SnapDir)
    (w : World) : World :=
  {| mgr := mgr w; configManager := c; active := a; snapshots := s; sys := sys w;
     trace := trace w; closedChans := closedChans w; chanCount := chanCount w;
     timers := timers w |}.

Definition withSys (s : Sys) (w : World) : World :=
  {| mgr := mgr w; configManager := configManager w; active := active w;
     snapshots := snapshots w; sys := s; trace := trace w;
     closedChans := closedChans w; chanCount := chanCount w; timers := timers w |}.

Definition withTimers (closed : gset nat) (count : nat) (ts : list Timer) (w : World) : World :=
  {| mgr := mgr w; configManager := configManager w; active := active w;
     snapshots := snapshots w; sys := sys w; trace := trace w;
     closedChans := closed; chanCount := count; timers := ts |}.

Definition publish (t : EventType) : World -> World := emit [EffPublish t].

(** The statements guarded by [db.DB != nil && m.currentTxRecord != nil]
    that change the row of the transaction, write it and log an audit entry. *)
Definition updateTxRecord (env : Env) (f : TxRecord -> TxRecord)
    (audit : list Effect) (w : World) : World :=
  if dbOpen env then
    match currentTxRecord (mgr w) with
    | Some r =>
        emit (EffDbUpdate (f r) :: audit) (withMgr (setTxRecord (Some (f r))) w)
    | None => w
    end
  else w.

Definition setStatus (s : string) (r : TxRecord) : TxRecord :=
  {| TxID := TxID r; TxMessage := TxMessage r; TxStatus := s;
     TxConfigs := TxConfigs r; TxSnapshotID := TxSnapshotID r; TxError := TxError r |}.

Definition GetState (w : World) : State := state (mgr w).

(** The loop of [rollbackInternal] that applies the restored configurations
    again: the errors collected, or nothing when the context is done. *)
Fixpoint reapplyLoop (env : Env) (ctx : Context) (tick : nat) (configs : list string)
    (rollbackErrors : list ReapplyError) (w : World)
  : option (list ReapplyError) * World :=
  match configs with
  | [] => (Some rollbackErrors, w)
  | configName :: more =>
      if ctx tick then (None, w)
      else
        match applierRegistry (mgr w) !! configName with
        | None => reapplyLoop env ctx (S tick) more rollbackErrors w
        | Some applier =>
            match ConfigStore.Load (io env) (configManager w) (active w) configName with
            | Err e =>
                reapplyLoop env ctx (S tick) more
                  (rollbackErrors ++ [ReLoadFailed configName e]) w
            | Ok cfg =>
                let '(r, sys') := Apply applier cfg (sys w) in
                let w' := emit [EffApply configName cfg] (withSys sys' w) in
                match r with
                | Some msg =>
                    reapplyLoop env ctx (S tick) more
                      (rollbackErrors ++ [ReApplyFailed configName msg]) w'
                | None => reapplyLoop env ctx (S tick) more rollbackErrors w'
                end
            end
        end
  end.

Definition rollbackInternal (env : Env) (ctx : Context) (tick : nat) (w : World)
  : result Error unit * World :=
  let found :=
    match currentSnapshot (mgr w) with
    | Some s => Ok (s, w)
    | None =>
        match SnapshotStore.GetLatest (io env) (snapshots w) with
        | Err e => Err e
        | Ok latest => Ok (latest, withMgr (setCurrentSnapshot (Some latest)) w)
        end
    end in
  match found with
  | Err e => (Err (ErrNoSnapshotToRollback e), w)
  | Ok (snap, w1) =>
      let w2 := publish EventRollbackStarted w1 in
      match SnapshotStore.Restore sha256hex (io env) (snapshots w2) (active w2)
              (SnapshotStore.SnapID snap) with
      | (Err e, active') =>
          (Err (ErrRestoreSnapshot e), withDisk (configManager w2) active' (snapshots w2) w2)
      | (Ok _, active') =>
          let w3 := withDisk (configManager w2) active' (snapshots w2) w2 in
          match reapplyLoop env ctx tick
                  (SnapshotStore.Configs (SnapshotStore.SnapMetadata snap)) [] w3 with
          | (None, w4) => (Err ErrContext, w4)
          | (Some (e :: es), w4) =>
              (Err (ErrRollbackPartial (e :: es)), withMgr (setState StateFailed) w4)
          | (Some [], w4) =>
              let w5 :=
                withMgr (fun m => setPendingConfirm None
                                    (setCurrentSnapshot None (setState StateIdle m))) w4 in
              let w6 :=
                updateTxRecord env (setStatus "rolledback")
                  [EffAudit "transaction.rollback" true] w5 in
              (Ok tt, publish EventConfigReverted w6)
          end
      end
  end.

(** A failure inside the loop of [Commit]: roll back, mark the transaction
    failed, return the error. *)
Definition failApply (env : Env) (ctx : Context) (tick : nat) (e : Error) (w : World)
  : option Error * World :=
  (Some e, withMgr (setState StateFailed) (rollbackInternal env ctx tick w).2).

(** The loop of [Commit] over [applyOrder]. *)
Fixpoint applyLoop (env : Env) (ctx : Context) (tick : nat) (changedConfigs : list string)
    (order : list string) (w : World) : option Error * World :=
  match order with
  | [] => (None, w)
  | applierName :: more =>
      if ctx tick then failApply env ctx (S tick) ErrContext w
      else if negb (existsb (String.eqb applierName) changedConfigs)
      then applyLoop env ctx (S tick) changedConfigs more w
      else
        match applierRegistry (mgr w) !! applierName with
        | None => applyLoop env ctx (S tick) changedConfigs more w
        | Some applier =>
            match ConfigStore.Load (io env) (configManager w) (active w) applierName with
            | Err e => failApply env ctx (S tick) (ErrLoadConfig applierName e) w
            | Ok cfg =>
                let '(r, sys1) := Apply applier cfg (sys w) in
                let w1 := emit [EffApply applierName cfg] (withSys sys1 w) in
                match r with
                | Some msg => failApply env ctx (S tick) (ErrApply applierName msg) w1
                | None =>
                    let '(v, sys2) := Validate applier (sys w1) in
                    let w2 := emit [EffValidate applierName] (withSys sys2 w1) in
                    match v with
                    | Some msg => failApply env ctx (S tick) (ErrValidation applierName msg) w2
                    | None => applyLoop env ctx (S tick) changedConfigs more w2
                    end
                end
            end
        end
  end.

Definition Commit (env : Env) (message : string) (confirmTimeout overallTimeout : Z)
    (w : World) : result Error unit * World :=
  if negb (bool_decide (state (mgr w) = StateIdle)) then (Err (ErrBusy (state (mgr w))), w)
  else if negb (ConfigStore.HasChanges (configManager w)) then (Err ErrNoChanges, w)
  else
    let ctx := if (0 <? overallTimeout)%Z then timeoutCtx env else Background in
    let w := withMgr (setState StateInProgress) w in
    let record :=
      {| TxID := txID env; TxMessage := message; TxStatus := "pending";
         TxConfigs := []; TxSnapshotID := ""; TxError := None |} in
    let w := withMgr (setTxRecord (Some record)) w in
    let w :=
      if dbOpen env
      then emit [EffDbCreate record; EffAudit "transaction.start" true] w
      else w in
    let w := publish EventTransactionStarted w in
    let changedConfigs := ConfigStore.GetChanges (configManager w) in
    let w :=
      updateTxRecord env
        (fun r => {| TxID := TxID r; TxMessage := TxMessage r; TxStatus := TxStatus r;
                     TxConfigs := changedConfigs; TxSnapshotID := TxSnapshotID r;
                     TxError := TxError r |}) [] w in
    match SnapshotStore.Create sha256hex (io env) (snapshotID env) (now env) (version env)
            message changedConfigs (snapshots w) (active w) with
    | (Err e, snaps) =>
        let w := withDisk (configManager w) (active w) snaps w in
        let w := withMgr (setState StateFailed) w in
        let w :=
          updateTxRecord env
            (fun r => {| TxID := TxID r; TxMessage := TxMessage r; TxStatus := "failed";
                         TxConfigs := TxConfigs r; TxSnapshotID := TxSnapshotID r;
                         TxError := Some e |})
            [EffAudit "snapshot.create" false] w in
        (Err (ErrCreateSnapshot e), w)
    | (Ok snapshot, snaps) =>
        let w := withDisk (configManager w) (active w) snaps w in
        let w := withMgr (setCurrentSnapshot (Some snapshot)) w in
        let w :=
          updateTxRecord env
            (fun r => {| TxID := TxID r; TxMessage := TxMessage r; TxStatus := TxStatus r;
                         TxConfigs := TxConfigs r;
                         TxSnapshotID := SnapshotStore.SnapID snapshot;
                         TxError := TxError r |})
            [EffAudit "snapshot.create" true] w in
        let w := publish EventSnapshotCreated w in
        match ConfigStore.Commit (io env) (configManager w) (active w) with
        | (Err e, cm, act) =>
            (Err (ErrCommitConfig e),
             withMgr (setState StateFailed) (withDisk cm act (snapshots w) w))
        | (Ok _, cm, act) =>
            let w := withDisk cm act (snapshots w) w in
            match applyLoop env ctx 0 changedConfigs (applyOrder (mgr w)) w with
            | (Some e, w) => (Err e, w)
            | (None, w) =>
                if (0 <? confirmTimeout)%Z then
                  let w := withMgr (setState StatePending) w in
                  let w :=
                    withMgr (setPendingConfirm
                               (Some {| PendingSnapshot := snapshot;
                                        Timeout := confirmTimeout;
                                        StartTime := now env |})) w in
                  let ch := chanCount w in
                  let w := withMgr (setCancelCh (Some ch)) w in
                  let w :=
                    withTimers (closedChans w) (S ch)
                      (timers w ++ [{| cancelCh := ch; expired := false |}]) w in
                  (Ok tt, w)
                else
                  let w := withMgr (setState StateCompleted) w in
                  let w :=
                    updateTxRecord env (setStatus "completed")
                      [EffAudit "transaction.commit" true] w in
                  (Ok tt, publish EventTransactionCompleted w)
            end
        end
    end.

Definition Confirm (env : Env) (w : World) : result Error unit * World :=
  if negb (bool_decide (state (mgr w) = StatePending))
  then (Err (ErrNoPending (state (mgr w))), w)
  else
    let w :=
      match confirmCancelCh (mgr w) with
      | Some ch =>
          withMgr (setCancelCh None)
            (withTimers ({[ch]} ∪ closedChans w) (chanCount w) (timers w) w)
      | None => w
      end in
    let w := withMgr (setState StateCompleted) w in
    let w := withMgr (setPendingConfirm None) w in
    let w :=
      updateTxRecord env (setStatus "completed")
        [EffAudit "transaction.confirm" true] w in
    (Ok tt, publish EventTransactionCompleted w).

Definition Rollback (env : Env) (w : World) : result Error unit * World :=
  rollbackInternal env Background 0 w.

(** *** The goroutine of [confirmationTimer]

    It waits in a [select] for its timer or for its cancel channel.  Taking
    the branch of the timer is [timerExpire]; the goroutine then waits for
    the mutex and runs [timerRun].  Taking the branch of the closed channel
    is [timerCancel].  When both branches are ready Go takes either, so
    [timerExpire] does not ask whether the channel is closed. *)

Definition removeTimer (i : nat) (w : World) : World :=
  withTimers (closedChans w) (chanCount w) (delete i (timers w)) w.

Definition timerExpire (i : nat) (w : World) : option World :=
  match timers w !! i with
  | Some t =>
      if expired t then None
      else Some (withTimers (closedChans w) (chanCount w)
                   (<[i := {| cancelCh := cancelCh t; expired := true |}]> (timers w)) w)
  | None => None
  end.

Definition timerCancel (i : nat) (w : World) : option World :=
  match timers w !! i with
  | Some t =>
      if negb (expired t) && bool_decide (cancelCh t ∈ closedChans w)
      then Some (removeTimer i w)
      else None
  | None => None
  end.

Definition timerRun (env : Env) (i : nat) (w : World) : option World :=
  match timers w !! i with
  | Some t =>
      if expired t then
        let w := removeTimer i w in
        if bool_decide (state (mgr w) = StatePending)
        then Some (rollbackInternal env Background 0 w).2
        else Some w
      else None
  | None => None
  end.

(** A step of some timer goroutine. *)
Inductive timerStep : World -> World -> Prop :=
| StepExpire i w w' : timerExpire i w = Some w' -> timerStep w w'
| StepCancel i w w' : timerCancel i w = Some w' -> timerStep w w'
| StepRun env i w w' : timerRun env i w = Some w' -> timerStep w w'.

(** A world without its timer goroutines: all that a caller can observe. *)
Definition withoutTimers (w : World) : World :=
  withTimers (closedChans w) (chanCount w) [] w.

End Engine.

Arguments Apply {Sys} _ _ _.
Arguments Validate {Sys} _ _.
Arguments applierRegistry {Sys} _.
Arguments state {Sys} _.
Arguments currentSnapshot {Sys} _.
Arguments currentTxRecord {Sys} _.
Arguments pendingConfirm {Sys} _.
Arguments confirmCancelCh {Sys} _.
Arguments applyOrder {Sys} _.
Arguments userID {Sys} _.
Arguments username {Sys} _.
Arguments mgr {Sys} _.
Arguments configManager {Sys} _.
Arguments active {Sys} _.
Arguments snapshots {Sys} _.
Arguments sys {Sys} _.
Arguments trace {Sys} _.
Arguments closedChans {Sys} _.
Arguments chanCount {Sys} _.
Arguments timers {Sys} _.
Arguments NewManager {Sys} _.
Arguments withMgr {Sys} _ _.
Arguments setState {Sys} _ _.
Arguments setCurrentSnapshot {Sys} _ _.
Arguments setTxRecord {Sys} _ _.
Arguments setPendingConfirm {Sys} _ _.
Arguments setCancelCh {Sys} _ _.
Arguments emit {Sys} _ _.
Arguments withDisk {Sys} _ _ _ _.
Arguments withSys {Sys} _ _.
Arguments withTimers {Sys} _ _ _ _.
Arguments publish {Sys} _ _.
Arguments updateTxRecord {Sys} _ _ _ _.
Arguments GetState {Sys} _.
Arguments reapplyLoop {Sys} _ _ _ _ _ _.
Arguments rollbackInternal {ss Sys} _ _ _ _ _.
Arguments failApply {ss Sys} _ _ _ _ _ _.
Arguments applyLoop {ss Sys} _ _ _ _ _ _ _.
Arguments Commit {mr ss Sys} _ _ _ _ _ _.
Arguments Confirm {Sys} _ _.
Arguments Rollback {ss Sys} _ _ _.
Arguments removeTimer {Sys} _ _.
Arguments timerExpire {Sys} _ _.
Arguments timerCancel {Sys} _ _.
Arguments timerRun {ss Sys} _ _ _ _.
Arguments timerStep {ss Sys} _ _ _.
Arguments withoutTimers {Sys} _.

End Transaction.

(** ** pkg/util: validation of what reaches a command line *)

Module Util.
Import GoStrings.

Inductive ValidationError :=
| ErrEmpty
| ErrTooLong (s : string)
| ErrInvalid (s : string)
| ErrNotIPv4 (s : string).

(** The character class [[a-zA-Z0-9\-_.]] of the pattern for interface
    names. *)
Definition isInterfaceChar (c : ascii) : bool :=
  let n := nat_of_ascii c in
  ((97 <=? n)%nat && (n <=? 122)%nat)
  || ((65 <=? n)%nat && (n <=? 90)%nat)
  || ((48 <=? n)%nat && (n <=? 57)%nat)
  || Ascii.eqb c "-" || Ascii.eqb c "_" || Ascii.eqb c ".".

(** [regexp.MatchString] with a pattern of the form [^[class]+$]: the text
    is not empty and all of its characters are in the class. *)
Fixpoint allInClass (class : ascii -> bool) (s : string) : bool :=
  match s with
  | EmptyString => true
  | String c r => class c && allInClass class r
  end.

Definition matchClassPlus (class : ascii -> bool) (s : string) : bool :=
  negb (String.eqb s "") && allInClass class s.

Definition ValidateInterfaceName (name : string) : result ValidationError unit :=
  if String.eqb name "" then Err ErrEmpty
  else if (15 <? String.length name)%nat then Err (ErrTooLong name)
  else if matchClassPlus isInterfaceChar name then Ok tt
  else Err (ErrInvalid name).

(** [SanitizeString]: the characters removed, in the order of the loop. *)
Definition dangerous : list ascii :=
  [ ";"; "&"; "|"; "`"; "$"; "("; ")"; "<"; ">"; LF; CR; BACKSLASH ]%char.

Definition SanitizeString (s : string) : string :=
  foldl (fun result char => ReplaceAll1 result char "") s dangerous.

Section Net.
(** [net.ParseIP] of the standard library: whether the text is an IP
    address, and if so whether the address has a four-byte form ([To4] is
    not nil). *)
Variable ParseIP : string -> option bool.

Definition ValidateIPAddress (ip : string) : result ValidationError unit :=
  if String.eqb ip "" then Err ErrEmpty
  else match ParseIP ip with
       | None => Err (ErrInvalid ip)
       | Some _ => Ok tt
       end.

Definition ValidateNetmask (netmask : string) : result ValidationError unit :=
  if String.eqb netmask "" then Err ErrEmpty
  else match ParseIP netmask with
       | None => Err (ErrInvalid netmask)
       | Some false => Err (ErrNotIPv4 netmask)
       | Some true => Ok tt
       end.

End Net.

End Util.

(** ** pkg/appliers: the network applier

    The applier runs the commands [ip] and [dhclient].  What a command does
    to the machine is outside the program: an oracle [exec] tells, for the
    commands run so far and the command run now, whether it fails (with the
    text of its error) and what it prints.  The state of the applier is the
    map of saved interface states together with the commands run. *)

Module NetworkApply.
Import GoStrings Uci NetworkApplier.

(** The outcome of a command: the text of its error, if it failed, and its
    combined output. *)
Record Outcome := { cmdErr : option string; cmdOut : string }.

Record State := {
  previousState : gmap string string;
  commands : list (list string)
}.

Definition NewNetworkApplier : State := {| previousState := ∅; commands := [] |}.

Inductive InterfaceError :=
| ErrInvalidName (e : Util.ValidationError)
| ErrUnsupportedProtocol (proto : string)
| ErrStaticRequires
| ErrInvalidIP (e : Util.ValidationError)
| ErrInvalidNetmask (e : Util.ValidationError)
| ErrFlush (msg : string)
| ErrAddAddress (msg : string)
| ErrLinkUp (msg : string)
| ErrInvalidGateway (e : Util.ValidationError)
| ErrAddGateway (msg : string)
| ErrDhcpClient (msg : string)
| ErrCommand (msg : string).

Inductive Error :=
| ErrContext
| ErrApplyInterface (ifaceName : string) (e : InterfaceError).

(** [strings.Contains]. *)
Fixpoint Contains (s substr : string) : bool :=
  String.prefix substr s
  || match s with
     | EmptyString => false
     | String _ r => Contains r substr
     end.

Section Applier.
Context {mr : MapRange}.
Variable ParseIP : string -> option bool.
Variable exec : list (list string) -> list string -> Outcome.

(** [runCommandContext], and [cmd.CombinedOutput] for the one command whose
    output is read. *)
Definition runCommand (argv : list string) (a : State) : Outcome * State :=
  (exec (commands a) argv,
   {| previousState := previousState a; commands := commands a ++ [argv] |}).

Definition saveInterfaceState (ifaceName : string) (a : State)
  : option string * State :=
  match Util.ValidateInterfaceName ifaceName with
  | Err _ => (Some "invalid interface name", a)
  | Ok _ =>
      let '(r, a1) := runCommand ["ip"; "addr"; "show"; "dev"; ifaceName] a in
      match cmdErr r with
      | Some msg => (Some msg, a1)
      | None =>
          (None, {| previousState := <[ifaceName := cmdOut r]> (previousState a1);
                    commands := commands a1 |})
      end
  end.

Definition restoreInterfaceState (ifaceName : string) (a : State) : State :=
  let '(_, a1) := runCommand ["ip"; "addr"; "flush"; "dev"; ifaceName] a in
  let '(_, a2) := runCommand ["ip"; "link"; "set"; ifaceName; "down"] a1 in
  a2.

Definition applyStaticInterface (ifaceName : string) (section : Section) (a : State)
  : option InterfaceError * State :=
  match GetOption section "ipaddr", GetOption section "netmask" with
  | Some ipaddr, Some netmask =>
      match Util.ValidateIPAddress ParseIP ipaddr with
      | Err e => (Some (ErrInvalidIP e), a)
      | Ok _ =>
      match Util.ValidateNetmask ParseIP netmask with
      | Err e => (Some (ErrInvalidNetmask e), a)
      | Ok _ =>
      let '(r1, a1) := runCommand ["ip"; "addr"; "flush"; "dev"; ifaceName] a in
      match cmdErr r1 with
      | Some msg => (Some (ErrFlush msg), a1)
      | None =>
      let cidr := convertNetmaskToCIDR netmask in
      let addr := ipaddr +:+ "/" +:+ decimal cidr in
      let '(r2, a2) := runCommand ["ip"; "addr"; "add"; addr; "dev"; ifaceName] a1 in
      match cmdErr r2 with
      | Some msg => (Some (ErrAddAddress msg), a2)
      | None =>
      let '(r3, a3) := runCommand ["ip"; "link"; "set"; ifaceName; "up"] a2 in
      match cmdErr r3 with
      | Some msg => (Some (ErrLinkUp msg), a3)
      | None =>
      match GetOption section "gateway" with
      | None => (None, a3)
      | Some gateway =>
          match Util.ValidateIPAddress ParseIP gateway with
          | Err e => (Some (ErrInvalidGateway e), a3)
          | Ok _ =>
              let '(_, a4) := runCommand ["ip"; "route"; "del"; "default"] a3 in
              let '(r5, a5) :=
                runCommand ["ip"; "route"; "add"; "default"; "via"; gateway;
                            "dev"; ifaceName] a4 in
              match cmdErr r5 with
              | Some msg =>
                  if Contains msg "File exists" then (None, a5)
                  else (Some (ErrAddGateway msg), a5)
              | None => (None, a5)
              end
          end
      end
      end
      end
      end
      end
      end
  | _, _ => (Some ErrStaticRequires, a)
  end.

Definition applyDHCPInterface (ifaceName : string) (a : State)
  : option InterfaceError * State :=
  let '(r1, a1) := runCommand ["ip"; "link"; "set"; ifaceName; "up"] a in
  match cmdErr r1 with
  | Some msg => (Some (ErrLinkUp msg), a1)
  | None =>
      let '(_, a2) := runCommand ["dhclient"; "-r"; ifaceName] a1 in
      let '(r3, a3) := runCommand ["dhclient"; ifaceName] a2 in
      match cmdErr r3 with
      | Some msg => (Some (ErrDhcpClient msg), a3)
      | None => (None, a3)
      end
  end.

Definition applyNoneInterface (ifaceName : string) (a : State)
  : option InterfaceError * State :=
  let '(r, a1) := runCommand ["ip"; "link"; "set"; ifaceName; "down"] a in
  match cmdErr r with
  | Some msg => (Some (ErrCommand msg), a1)
  | None => (None, a1)
  end.

Definition applyInterface (ifaceName : string) (section : Section) (a : State)
  : option InterfaceError * State :=
  match Util.ValidateInterfaceName ifaceName with
  | Err e => (Some (ErrInvalidName e), a)
  | Ok _ =>
      let proto := default "" (GetOption section "proto") in
      if String.eqb proto "static" then applyStaticInterface ifaceName section a
      else if String.eqb proto "dhcp" then applyDHCPInterface ifaceName a
      else if String.eqb proto "none" then applyNoneInterface ifaceName a
      else (Some (ErrUnsupportedProtocol proto), a)
  end.

(** The loop of [Apply] over the interface sections; the context is looked
    at once in every turn. *)
Fixpoint applyInterfaces (ctx : Transaction.Context) (tick : nat)
    (interfaces : list Section) (a : State) : option Error * State :=
  match interfaces with
  | [] => (None, a)
  | iface :: more =>
      if ctx tick then (Some ErrContext, a)
      else
        let ifaceName := Name iface in
        if String.eqb ifaceName "" then applyInterfaces ctx (S tick) more a
        else
          let a1 := (saveInterfaceState ifaceName a).2 in
          match applyInterface ifaceName iface a1 with
          | (Some e, a2) => (Some (ErrApplyInterface ifaceName e), a2)
          | (None, a2) => applyInterfaces ctx (S tick) more a2
          end
  end.

Definition Apply (ctx : Transaction.Context) (config : Config) (a : State)
  : option Error * State :=
  applyInterfaces ctx 0 (GetSectionsByType config "interface") a.

Definition Validate (a : State) : option Error * State := (None, a).

(** The loop of [Rollback] over the saved states. *)
Fixpoint rollbackInterfaces (ctx : Transaction.Context) (tick : nat)
    (saved : list (string * string)) (a : State) : option Error * State :=
  match saved with
  | [] => (None, a)
  | (ifaceName, _) :: more =>
      if ctx tick then (Some ErrContext, a)
      else rollbackInterfaces ctx (S tick) more (restoreInterfaceState ifaceName a)
  end.

Definition Rollback (ctx : Transaction.Context) (a : State) : option Error * State :=
  rollbackInterfaces ctx 0 (range_map (previousState a)) a.

End Applier.

End NetworkApply.

(** * Definitions used by the statements

    Views of the model that the statements below are phrased with; none of
    them is used by the model itself. *)

Module UciSpec.
Import GoStrings Uci.

(** What [parseLine] takes a line for. *)
Inductive LineKind :=
| KSkip
| KConfig (sectionType sectionName : string)
| KOption (key value : string)
| KList (key value : string)
| KBad.

Definition classify (raw : string) : LineKind :=
  let line := TrimSpace raw in
  if String.eqb line "" || HasPrefix line "#" then KSkip
  else if HasPrefix line "config " then
    match parseQuotedLine (skip 7 line) with
    | [] => KBad
    | t :: more => KConfig t (match more with n :: _ => n | [] => "" end)
    end
  else if HasPrefix line "option " then
    match parseQuotedLine (skip 7 line) with
    | [k; v] => KOption k v
    | _ => KBad
    end
  else if HasPrefix line "list " then
    match parseQuotedLine (skip 5 line) with
    | [k; v] => KList k v
    | _ => KBad
    end
  else KBad.

(** A line that may stand inside a section: blank, comment, option or list. *)
Definition isBodyLine (raw : string) : bool :=
  match classify raw with
  | KSkip | KOption _ _ | KList _ _ => true
  | _ => false
  end.

(** The value of the last [option] line for [key] among the lines. *)
Fixpoint lastOption (key : string) (body : list string) : option string :=
  match body with
  | [] => None
  | raw :: more =>
      match lastOption key more with
      | Some v => Some v
      | None =>
          match classify raw with
          | KOption k v => if String.eqb k key then Some v else None
          | _ => None
          end
      end
  end.

(** Whether [parseLines] accepts the lines, which depends on the state only
    through whether a section is open. *)
Fixpoint parsesOk (inSection : bool) (lines : list string) : bool :=
  match lines with
  | [] => true
  | raw :: more =>
      match classify raw with
      | KSkip => parsesOk inSection more
      | KConfig _ _ => parsesOk true more
      | KOption _ _ | KList _ _ => inSection && parsesOk inSection more
      | KBad => false
      end
  end.

(** The lines are empty or start with a [config] line: what comes before
    them is a whole section. *)
Definition startsSection (lines : list string) : bool :=
  match lines with
  | [] => true
  | raw :: _ => match classify raw with KConfig _ _ => true | _ => false end
  end.

(** A document with one option whose value holds a single quote. *)
Definition quoteDoc : Config :=
  [SetOption (NewSection "interface" "wan") "desc" "it's"].

(** A text with three [option] lines for the key [ipaddr] in its second
    section, and a third section after it. *)
Definition dupText : string :=
  "config interface 'lan'" +:+ nl +:+ tabStr +:+ "option proto 'dhcp'" +:+ nl
  +:+ "config interface 'wan'" +:+ nl
  +:+ tabStr +:+ "option ipaddr '10.0.0.1'" +:+ nl
  +:+ tabStr +:+ "list dns '8.8.8.8'" +:+ nl
  +:+ tabStr +:+ "option ipaddr '10.0.0.2'" +:+ nl
  +:+ tabStr +:+ "option 'ipaddr' '10.0.0.3'" +:+ nl
  +:+ nl
  +:+ "config rule" +:+ nl
  +:+ tabStr +:+ "option ipaddr '10.9.9.9'" +:+ nl.

End UciSpec.

Module ConfigStoreSpec.
Import GoStrings.

(** The segments of a path between its dots, the empty ones included. *)
Fixpoint dotSegmentsFrom (path : string) (current : string) : list string :=
  match path with
  | EmptyString => [current]
  | String r rest =>
      if Ascii.eqb r "." then current :: dotSegmentsFrom rest ""
      else dotSegmentsFrom rest (snoc current r)
  end.

Definition dotSegments (path : string) : list string := dotSegmentsFrom path "".

Definition nonEmptySegments (path : string) : list string :=
  filter (fun s => s <> "") (dotSegments path).

Definition tmpOf (name : string) : string := name +:+ ".tmp".

(** The three system calls of the write of one staged configuration all
    succeed. *)
Definition writeSucceeds (io : Os.Faults) (entry : string * Uci.Config) : bool :=
  negb (Os.fault io Os.OpCreate (tmpOf entry.1))
  && negb (Os.fault io Os.OpWrite (tmpOf entry.1))
  && negb (Os.fault io Os.OpRename entry.1).

(** The directory after the write of one staged configuration: the file
    holds the emitted document, and no temporary file is left. *)
Definition putFile `{mr : MapRange} (dir : Os.Files) (entry : string * Uci.Config)
  : Os.Files :=
  <[entry.1 := Uci.Write entry.2]> (delete (tmpOf entry.1) dir).

(** An active directory with one file. *)
Definition networkText : string :=
  "config interface 'wan'" +:+ Uci.nl
  +:+ Uci.tabStr +:+ "option 'proto' 'static'" +:+ Uci.nl
  +:+ Uci.tabStr +:+ "option 'ipaddr' '192.168.1.1'" +:+ Uci.nl
  +:+ Uci.tabStr +:+ "option 'netmask' '255.255.255.0'" +:+ Uci.nl.

Definition exampleDir : Os.Files := {[ "network" := networkText ]}.

(** A store with two staged documents, and a disk on which the rename over
    [firewall] fails. *)
Definition twoStaged : ConfigStore.Manager :=
  ConfigStore.Stage
    (ConfigStore.Stage ConfigStore.NewManager "firewall" [Uci.NewSection "defaults" ""])
    "network" [Uci.SetOption (Uci.NewSection "interface" "wan") "proto" "dhcp"].

Definition renameFirewallFails : Os.Faults :=
  {| Os.fault := fun op path =>
       match op with
       | Os.OpRename => String.eqb path "firewall"
       | _ => false
       end |}.

End ConfigStoreSpec.

Module SnapshotSpec.
Import Os SnapshotStore.

(** A file of a snapshot is corrupt: it is missing, or a checksum is stored
    for it and differs from that of its content, or its content does not
    parse. *)
Definition isCorrupt (sha256hex : string -> string) (checksums : gmap string string)
    (files : Files) (configName : string) : bool :=
  match files !! configName with
  | None => true
  | Some data =>
      match checksums !! configName with
      | Some expected => negb (String.eqb (sha256hex data) expected)
      | None => false
      end
      || negb (is_ok (Uci.Parse data))
  end.

(** A stand-in for SHA-256 in examples: any function will do there. *)
Definition toyChecksum (data : string) : string := "sum:" +:+ data.

Definition goodNetwork : string :=
  "config interface 'wan'" +:+ Uci.nl +:+ Uci.tabStr +:+ "option 'proto' 'dhcp'" +:+ Uci.nl.

(** The same file cut off in the middle of its second line. *)
Definition truncatedNetwork : string :=
  "config interface 'wan'" +:+ Uci.nl +:+ Uci.tabStr +:+ "opt".

Definition metaOf (id : string) (ts : Z) (configs : list string)
    (checksums : gmap string string) : Metadata :=
  {| Timestamp := ts; Message := "m"; Configs := configs; ID := id;
     Version := "1.0"; Checksums := checksums |}.

(** A snapshot directory whose only snapshot had its file truncated after
    the checksum was recorded. *)
Definition tamperedDir : SnapDir :=
  {[ "20241006-153000-000-abcd" :=
       EDir (MetaOk (metaOf "20241006-153000-000-abcd" 100 ["network"]
                       {[ "network" := toyChecksum goodNetwork ]}))
            {[ "network" := truncatedNetwork ]} ]}.

(** A sort that meets the contract of [SortSlice]: merge sort on the
    timestamps, newest first. *)
#[global] Instance newerOrEqual_dec : RelDecision newerOrEqual.
Proof. intros a b. unfold newerOrEqual. apply _. Defined.

#[global] Instance newerOrEqual_total : Total newerOrEqual.
Proof. intros a b. unfold newerOrEqual. lia. Qed.

#[global] Instance newerOrEqual_trans : Transitive newerOrEqual.
Proof. intros a b c. unfold newerOrEqual. lia. Qed.

Definition mergeSortSlice : SortSlice :=
  {| sortNewestFirst := merge_sort newerOrEqual;
     sortNewestFirst_perm := merge_sort_Permutation newerOrEqual;
     sortNewestFirst_sorted := StronglySorted_merge_sort newerOrEqual |}.

(** The snapshot directory without the directories named [ids]. *)
Definition removeAll (dir : SnapDir) (ids : list string) : SnapDir :=
  foldl (fun d id => delete id d) dir ids.

(** Three snapshots, written at the instants 100, 300 and 200, and a stray
    file. *)
Definition threeSnapshots : SnapDir :=
  {[ "20241006-120000-000-aaaa" :=
       EDir (MetaOk (metaOf "20241006-120000-000-aaaa" 100 [] ∅)) ∅;
     "20241006-153000-000-cccc" :=
       EDir (MetaOk (metaOf "20241006-153000-000-cccc" 300 [] ∅)) ∅;
     "20241006-144500-000-bbbb" :=
       EDir (MetaOk (metaOf "20241006-144500-000-bbbb" 200 [] ∅)) ∅;
     "README" := EFile ]}.

End SnapshotSpec.

Module TransactionSpec.
Import Os Transaction.

(** The outcome of the re-application of a rollback: the running system
    after the calls, the calls of [Apply] made, in order, and whether a load
    or a call failed. *)
Record Reapplied (Sys : Type) := {
  sysAfter : Sys;
  applyCalls : list Effect;
  someFailed : bool
}.
Arguments sysAfter {Sys} _.
Arguments applyCalls {Sys} _.
Arguments someFailed {Sys} _.

(** The re-application of a rollback, in the words of the design: each
    configuration of the snapshot that has a registered applier is loaded and
    applied again, in the order of the list of the snapshot; a load or a call
    that fails is noted and the next configuration is tried. *)
Fixpoint reapplyAll {Sys : Type} (load : string -> result ConfigStore.Error Uci.Config)
    (registry : gmap string (Applier Sys)) (configs : list string) (s : Sys)
  : Reapplied Sys :=
  match configs with
  | [] => {| sysAfter := s; applyCalls := []; someFailed := false |}
  | configName :: more =>
      match registry !! configName with
      | None => reapplyAll load registry more s
      | Some applier =>
          match load configName with
          | Err _ =>
              let rest := reapplyAll load registry more s in
              {| sysAfter := sysAfter rest; applyCalls := applyCalls rest;
                 someFailed := true |}
          | Ok cfg =>
              let applied := Apply applier cfg s in
              let rest := reapplyAll load registry more applied.2 in
              {| sysAfter := sysAfter rest;
                 applyCalls := EffApply configName cfg :: applyCalls rest;
                 someFailed := match applied.1 with
                               | Some _ => true
                               | None => someFailed rest
                               end |}
          end
      end
  end.

(** The system of the examples counts the calls of [Apply]. *)
Definition okApplier : Applier nat :=
  {| Apply := fun _ n => (None, S n); Validate := fun n => (None, n) |}.

(** An applier whose external command works once and fails afterwards. *)
Definition onceApplier : Applier nat :=
  {| Apply := fun _ n => (if (n <? 1)%nat then None else Some "ip: command failed", S n);
     Validate := fun n => (None, n) |}.

Definition exampleEnv : Env :=
  {| io := noFaults; txID := "20241006-153000-000-0001";
     snapshotID := "20241006-153000-000-abcd"; now := 1000; version := "1.0";
     timeoutCtx := Background; dbOpen := false |}.

(** The world of scenario E1: [network] on the disk, and the address of
    [wan] staged for a change. *)
Definition stagedWorld (applier : Applier nat) (value : string) : World nat :=
  {| mgr := NewManager {[ "network" := applier ]};
     configManager :=
       (ConfigStore.Set_ noFaults ConfigStore.NewManager ConfigStoreSpec.exampleDir
          "network.wan.ipaddr" value).2;
     active := ConfigStoreSpec.exampleDir;
     snapshots := ∅; sys := 0%nat; trace := [];
     closedChans := ∅; chanCount := 0; timers := [] |}.

(** The world after the commit of scenario E1, without confirmation
    window. *)
Definition afterCommit : World nat :=
  (@Commit canonical_range SnapshotSpec.mergeSortSlice nat SnapshotSpec.toyChecksum
     exampleEnv "msg" 0 0 (stagedWorld okApplier "192.168.1.100")).2.

(** The world after the commit of scenario E2, with a confirmation window
    of two time units. *)
Definition pendingWorld (applier : Applier nat) : World nat :=
  (@Commit canonical_range SnapshotSpec.mergeSortSlice nat SnapshotSpec.toyChecksum
     exampleEnv "t" 2 0 (stagedWorld applier "10.0.0.1")).2.

(** The surroundings of a timer that finds a disk on which no file can be
    copied. *)
Definition noCopyEnv : Env :=
  {| io := {| fault := fun op _ => match op with OpCopy => true | _ => false end |};
     txID := "20241006-153000-000-0001";
     snapshotID := "20241006-153000-000-abcd"; now := 1000; version := "1.0";
     timeoutCtx := Background; dbOpen := false |}.

(** The snapshot that [Commit] takes of [stagedWorld] under [exampleEnv]
    with the message [t]. *)
Definition exampleSnapshot : SnapshotStore.Snapshot :=
  {| SnapshotStore.SnapID := "20241006-153000-000-abcd";
     SnapshotStore.SnapMetadata :=
       {| SnapshotStore.Timestamp := 1000; SnapshotStore.Message := "t";
          SnapshotStore.Configs := ["network"];
          SnapshotStore.ID := "20241006-153000-000-abcd";
          SnapshotStore.Version := "1.0";
          SnapshotStore.Checksums :=
            {[ "network" := SnapshotSpec.toyChecksum ConfigStoreSpec.networkText ]} |};
     SnapshotStore.Path := "20241006-153000-000-abcd" |}.

End TransactionSpec.

Module UciEmitSpec.
Import GoStrings Uci.

(** Every character of the string passes the test. *)
Fixpoint allChars (p : ascii -> bool) (s : string) : bool :=
  match s with
  | EmptyString => true
  | String c r => p c && allChars p r
  end.

(** A string that can stand between single quotes on one line. *)
Definition quotable (s : string) : bool :=
  allChars (fun c => negb (Ascii.eqb c SQUOTE) && negb (Ascii.eqb c LF)) s.

(** A string that can stand on a line without quotes. *)
Definition bareWord (s : string) : bool :=
  negb (String.eqb s "")
  && allChars (fun c => negb (isSpace c) && negb (Ascii.eqb c SQUOTE)
                        && negb (Ascii.eqb c DQUOTE)) s.

(** The line has room in the buffer of the scanner; [fixed] is the number of
    characters that [Write] adds around the two strings. *)
Definition fits (fixed : nat) (a b : string) : bool :=
  (Z.of_nat (fixed + String.length a + String.length b) <? Bufio.MaxScanTokenSize)%Z.

(** A string of ASCII characters.  On such strings the bytes are the runes,
    and the white space that [strings.TrimSpace] trims is [isSpace]. *)
Definition isASCII (s : string) : bool :=
  allChars (fun c => (nat_of_ascii c <? 128)%nat) s.

(** Every string of the section is ASCII. *)
Definition asciiSection (s : Section) : Prop :=
  isASCII (Type_ s) = true
  /\ isASCII (Name s) = true
  /\ map_Forall (fun k v => isASCII k = true /\ isASCII v = true) (Options s)
  /\ map_Forall (fun k vs => isASCII k = true
                             /\ Forall (fun v => isASCII v = true) vs) (Lists s).

(** A section that [Write] emits in a form [Parse] reads back: its strings
    are ASCII, the type is a bare word, no name, key or value holds a single
    quote or a newline, no list is empty and every line fits the scanner. *)
Definition sectionOk (s : Section) : Prop :=
  asciiSection s
  /\ bareWord (Type_ s) = true
  /\ quotable (Name s) = true
  /\ fits 10 (Type_ s) (Name s) = true
  /\ map_Forall (fun k v => quotable k = true /\ quotable v = true
                            /\ fits 13 k v = true) (Options s)
  /\ map_Forall (fun k vs => vs <> [] /\ quotable k = true
                             /\ Forall (fun v => quotable v = true
                                                 /\ fits 11 k v = true) vs) (Lists s).

#[global] Instance sectionOk_dec (s : Section) : Decision (sectionOk s).
Proof. unfold sectionOk, asciiSection. apply _. Defined.

(** A document with options, a list of two values and a section without a
    name; one value holds blanks and a backslash. *)
Definition lanDoc : Config :=
  [ AddListValue
      (AddListValue
         (SetOption (SetOption (NewSection "interface" "lan") "proto" "static")
            "descr" "office \\ floor 2")
         "dns" "8.8.8.8")
      "dns" "1.1.1.1";
    SetOption (NewSection "globals" "") "ula_prefix" "fd00::/48" ].

(** The lines of the text that [Write] emits, without their newlines. *)
Definition headerLine (s : Section) : string :=
  if String.eqb (Name s) "" then "config " +:+ Type_ s
  else "config " +:+ Type_ s +:+ " '" +:+ Name s +:+ "'".

Definition optionLine (kv : string * string) : string :=
  tabStr +:+ "option '" +:+ kv.1 +:+ "' '" +:+ escapeQuotes kv.2 +:+ "'".

Definition listLine (key value : string) : string :=
  tabStr +:+ "list '" +:+ key +:+ "' '" +:+ escapeQuotes value +:+ "'".

Definition listLines (kvs : string * list string) : list string :=
  List.map (listLine kvs.1) kvs.2.

Definition sectionLines `{mr : MapRange} (s : Section) : list string :=
  headerLine s :: List.map optionLine (range_map (Options s))
  ++ List.concat (List.map listLines (range_map (Lists s))).

Fixpoint docLines `{mr : MapRange} (first : bool) (c : Config) : list string :=
  match c with
  | [] => []
  | s :: more => (if first then [] else [""]) ++ sectionLines s ++ docLines false more
  end.

Definition noLF (l : string) : bool := allChars (fun c => negb (Ascii.eqb c LF)) l.

(** A line as [Write] emits it: no newline inside, short enough for the
    scanner, no carriage return at its end. *)
Definition lineOk (l : string) : Prop :=
  noLF l = true /\ Bufio.tooLong l = false /\ Bufio.dropCR l = l.

Definition bareChar (c : ascii) : bool :=
  negb (isSpace c) && negb (Ascii.eqb c SQUOTE) && negb (Ascii.eqb c DQUOTE).

Definition noSQ (s : string) : bool := allChars (fun c => negb (Ascii.eqb c SQUOTE)) s.

(** The text made of the lines, each followed by a newline. *)
Definition joinLines (lines : list string) : string :=
  String.concat "" (List.map (fun l => l +:+ nl) lines).

(** What the option and list lines do to the open section. *)
Definition setOptions (s : Section) (kvs : list (string * string)) : Section :=
  foldl (fun s kv => SetOption s kv.1 kv.2) s kvs.

Definition addList (s : Section) (kvs : string * list string) : Section :=
  foldl (fun s v => AddListValue s kvs.1 v) s kvs.2.

Definition addLists (s : Section) (l : list (string * list string)) : Section :=
  foldl addList s l.

Definition appendList (m : gmap string (list string)) (k : string) (vs : list string)
  : gmap string (list string) :=
  match vs with
  | [] => m
  | _ => <[k := default [] (m !! k) ++ vs]> m
  end.

End UciEmitSpec.

Module UciReadSpec.
Import GoStrings Uci UciSpec.

(** A blank line or a comment. *)
Definition isSkip (raw : string) : bool :=
  match classify raw with KSkip => true | _ => false end.

(** The types and names that the [config] lines among the lines give. *)
Fixpoint headers (lines : list string) : list (string * string) :=
  match lines with
  | [] => []
  | raw :: more =>
      match classify raw with
      | KConfig t n => (t, n) :: headers more
      | _ => headers more
      end
  end.

Definition opensSection (raw : string) : bool :=
  match classify raw with KConfig _ _ => true | _ => false end.

(** The values of the [list] lines for [key] among the lines, in order. *)
Fixpoint listValues (key : string) (body : list string) : list string :=
  match body with
  | [] => []
  | raw :: more =>
      match classify raw with
      | KList k v => if String.eqb k key then v :: listValues key more
                     else listValues key more
      | _ => listValues key more
      end
  end.

(** The line number that an error message names. *)
Definition lineOf (e : ParseError) : option nat :=
  match e with
  | ErrInvalidConfigLine n | ErrOptionOutsideSection n | ErrInvalidOptionLine n
  | ErrListOutsideSection n | ErrInvalidListLine n | ErrUnknownSyntax n _ => Some n
  | ErrScanner => None
  end.

(** The line is one that [Parse] stops at: it is malformed, or an option or
    list line when no section is open. *)
Definition rejected (inSection : bool) (raw : string) : bool :=
  match classify raw with
  | KBad => true
  | KOption _ _ | KList _ _ => negb inSection
  | _ => false
  end.

(** The error without its line number. *)
Definition withoutLine (e : ParseError) : ParseError :=
  match e with
  | ErrInvalidConfigLine _ => ErrInvalidConfigLine 0
  | ErrOptionOutsideSection _ => ErrOptionOutsideSection 0
  | ErrInvalidOptionLine _ => ErrInvalidOptionLine 0
  | ErrListOutsideSection _ => ErrListOutsideSection 0
  | ErrInvalidListLine _ => ErrInvalidListLine 0
  | ErrUnknownSyntax _ line => ErrUnknownSyntax 0 line
  | ErrScanner => ErrScanner
  end.

(** Two results of [Parse] agree but for the line number of the error: the
    same document, or the same kind of error, with the same line quoted in
    it if it quotes one. *)
Definition sameDocument (r1 r2 : result ParseError Config) : Prop :=
  match r1, r2 with
  | Ok c1, Ok c2 => c1 = c2
  | Err e1, Err e2 => withoutLine e1 = withoutLine e2
  | _, _ => False
  end.

(** A text with comments, an option set twice and a list of three values
    between other lines; the two sections have the same type and name. *)
Definition dnsText : string :=
  "# uplink" +:+ nl
  +:+ "config interface 'wan'" +:+ nl
  +:+ tabStr +:+ "list dns '9.9.9.9'" +:+ nl
  +:+ tabStr +:+ "option proto 'dhcp'" +:+ nl
  +:+ tabStr +:+ "list ntp 'pool.ntp.org'" +:+ nl
  +:+ tabStr +:+ "list dns '8.8.8.8'" +:+ nl
  +:+ nl
  +:+ tabStr +:+ "list 'dns' '9.9.9.9'" +:+ nl
  +:+ "config interface 'wan'" +:+ nl
  +:+ tabStr +:+ "list dns '1.1.1.1'" +:+ nl.

(** The same text without its comment and blank lines. *)
Definition dnsTextBare : string :=
  "config interface 'wan'" +:+ nl
  +:+ tabStr +:+ "list dns '9.9.9.9'" +:+ nl
  +:+ tabStr +:+ "option proto 'dhcp'" +:+ nl
  +:+ tabStr +:+ "list ntp 'pool.ntp.org'" +:+ nl
  +:+ tabStr +:+ "list dns '8.8.8.8'" +:+ nl
  +:+ tabStr +:+ "list 'dns' '9.9.9.9'" +:+ nl
  +:+ "config interface 'wan'" +:+ nl
  +:+ tabStr +:+ "list dns '1.1.1.1'" +:+ nl.

(** A text with a line of unknown syntax after a comment and a blank line,
    and the same text without them. *)
Definition typoText : string :=
  "# uplink" +:+ nl +:+ nl
  +:+ "config interface 'wan'" +:+ nl
  +:+ tabStr +:+ "optoin proto 'dhcp'" +:+ nl.

Definition typoTextBare : string :=
  "config interface 'wan'" +:+ nl
  +:+ tabStr +:+ "optoin proto 'dhcp'" +:+ nl.

(** A text whose fourth line is an option line before any section. *)
Definition strayOptionText : string :=
  "# global settings" +:+ nl +:+ nl +:+ "   " +:+ nl
  +:+ "option hostname 'router'" +:+ nl
  +:+ "config system" +:+ nl.

End UciReadSpec.

Module ConfigStorePathSpec.
Import GoStrings UciEmitSpec.

Definition dotFree (s : string) : bool :=
  allChars (fun c => negb (Ascii.eqb c ".")) s.

(** A segment of a path: not empty, without a dot. *)
Definition segmentOk (s : string) : Prop := s <> "" /\ dotFree s = true.

#[global] Instance segmentOk_dec (s : string) : Decision (segmentOk s).
Proof. unfold segmentOk. apply _. Defined.

(** A segment of ASCII characters. *)
Definition plainSegment (s : string) : Prop := segmentOk s /\ isASCII s = true.

#[global] Instance plainSegment_dec (s : string) : Decision (plainSegment s).
Proof. unfold plainSegment. apply _. Defined.

Definition joinDots (segs : list string) : string := String.concat "." segs.

(** The test of [Get] and [Set] for the section that a segment names. *)
Definition addresses (sn : string) (s : Uci.Section) : bool :=
  String.eqb (Uci.Name s) sn
  || String.eqb (Uci.Name s) "" && String.eqb (Uci.Type_ s) sn.

(** The document that [Set] stages. *)
Definition setIn (cfg : Uci.Config) (sn o v : string) : Uci.Config :=
  match ConfigStore.findSection sn 0 cfg with
  | Some (i, s) => <[i := Uci.SetOption s o v]> cfg
  | None => Uci.AddSection cfg (Uci.SetOption (Uci.NewSection sn sn) o v)
  end.

(** A configuration name that is the name of a file of the directory: it is
    not empty, not [.] or [..], and holds no separator, so that
    [filepath.Join] appends it to the directory as it is. *)
Definition plainName (name : string) : Prop :=
  name <> "" /\ name <> "." /\ name <> ".."
  /\ allChars (fun c => negb (Ascii.eqb c "/")) name = true.

#[global] Instance plainName_dec (name : string) : Decision (plainName name).
Proof. unfold plainName. apply _. Defined.

(** Every staged name is the name of a file of the directory. *)
Definition plainNames (m : ConfigStore.Manager) : Prop :=
  map_Forall (fun name _ => plainName name) (ConfigStore.staged m).

(** No staged name is the name of the temporary file of a staged name. *)
Definition noTmpClash (m : ConfigStore.Manager) : Prop :=
  forall name, is_Some (ConfigStore.staged m !! name) ->
               ConfigStore.staged m !! ConfigStoreSpec.tmpOf name = None.

(** Two staged documents, one under the name of the temporary file of the
    other. *)
Definition clashStaged : ConfigStore.Manager :=
  ConfigStore.Stage
    (ConfigStore.Stage ConfigStore.NewManager "network" [Uci.NewSection "interface" "wan"])
    "network.tmp" [Uci.NewSection "interface" "lan"].

End ConfigStorePathSpec.

Module SnapshotMoreSpec.
Import Os SnapshotStore.

(** No system call fails. *)
Definition faultFree (io : Faults) : Prop := forall op path, fault io op path = false.

(** The configurations among [configs] that have a file. *)
Definition existingConfigs (active : Files) (configs : list string) : list string :=
  List.filter (fun name => bool_decide (is_Some (active !! name))) configs.

(** A disk on which the copy to [firewall] fails. *)
Definition copyFirewallFails : Faults :=
  {| fault := fun op path =>
       match op with
       | OpCopy => String.eqb path "firewall"
       | _ => false
       end |}.

(** A disk on which the copy to [firewall] fails and the copy of [network]
    in the new snapshot directory cannot be removed. *)
Definition copyFailsCopyStays : Faults :=
  {| fault := fun op path =>
       match op with
       | OpCopy => String.eqb path "firewall"
       | OpRemove => String.eqb path "20241006-160000-000-ffff/network"
       | _ => false
       end |}.

(** A disk on which the directory of the snapshot [bbbb] cannot be removed,
    while the files in it can. *)
Definition removeBFails : Faults :=
  {| fault := fun op path =>
       match op with
       | OpRemove => String.eqb path "20241006-144500-000-bbbb"
       | _ => false
       end |}.

(** An active directory with two configurations. *)
Definition twoConfigs : Files :=
  {[ "network" := SnapshotSpec.goodNetwork;
     "firewall" := "config defaults" +:+ Uci.nl ]}.

(** A snapshot of [twoConfigs] under the stand-in checksum. *)
Definition twoConfigsSnapshot : SnapDir :=
  {[ "20241006-153000-000-abcd" :=
       EDir (MetaOk (SnapshotSpec.metaOf "20241006-153000-000-abcd" 100
                       ["network"; "firewall"]
                       {[ "network" := SnapshotSpec.toyChecksum SnapshotSpec.goodNetwork;
                          "firewall" := SnapshotSpec.toyChecksum
                                          ("config defaults" +:+ Uci.nl) ]}))
            twoConfigs ]}.

(** A snapshot directory with a hundred snapshots, written at the instants
    2000 to 2099. *)
Definition snapName (k : nat) : string :=
  "snap-" +:+ String (ascii_of_nat (48 + k / 10)) (String (ascii_of_nat (48 + k mod 10)) "").

Definition hundredSnapshots : SnapDir :=
  list_to_map
    (List.map (fun k => (snapName k,
                         EDir (MetaOk (SnapshotSpec.metaOf (snapName k)
                                         (2000 + Z.of_nat k) [] ∅)) ∅))
       (seq 0 100)).

End SnapshotMoreSpec.

Module TransactionMoreSpec.
Import Os Transaction.

(** The calls of appliers among the effects: the name of the applier, and
    whether the call is [Apply] (rather than [Validate]). *)
Fixpoint callsOf (t : list Effect) : list (string * bool) :=
  match t with
  | [] => []
  | EffApply name _ :: more => (name, true) :: callsOf more
  | EffValidate name :: more => (name, false) :: callsOf more
  | _ :: more => callsOf more
  end.

(** The events published on the bus among the effects. *)
Fixpoint eventsOf (t : list Effect) : list EventType :=
  match t with
  | [] => []
  | EffPublish e :: more => e :: eventsOf more
  | _ :: more => eventsOf more
  end.

(** The appliers that the loop of [Commit] runs: the names of the apply
    order that are among the changed configurations and are registered. *)
Definition applied {A} (changed : list string) (registry : gmap string A)
    (order : list string) : list string :=
  List.filter (fun name => existsb (String.eqb name) changed
                           && bool_decide (is_Some (registry !! name))) order.

(** The calls of a commit: [Apply], then [Validate], applier by applier. *)
Definition applyThenValidate (names : list string) : list (string * bool) :=
  flat_map (fun name => [(name, true); (name, false)]) names.

(** A world in which [firewall] and [network] are staged, in an engine
    that knows appliers for [network], [firewall] and [dhcp]. *)
Definition twoStagedWorld : World nat :=
  {| mgr := NewManager {[ "network" := TransactionSpec.okApplier;
                          "firewall" := TransactionSpec.okApplier;
                          "dhcp" := TransactionSpec.okApplier ]};
     configManager := ConfigStoreSpec.twoStaged;
     active := ConfigStoreSpec.exampleDir;
     snapshots := ∅; sys := 0%nat; trace := [];
     closedChans := ∅; chanCount := 0; timers := [] |}.

(** An environment whose disk refuses to create the snapshot directory. *)
Definition noSnapshotEnv : Env :=
  {| io := {| fault := fun op path =>
                match op with OpMkdir => true | _ => false end |};
     txID := "20241006-153000-000-0001";
     snapshotID := "20241006-153000-000-abcd"; now := 1000; version := "1.0";
     timeoutCtx := Background; dbOpen := true |}.

(** Scenario: a commit with a confirmation window of two units, an explicit
    rollback while it is pending, a new change staged, and a second commit
    with a window of five units. *)
Definition rolledBackWorld : World nat :=
  (@Rollback SnapshotSpec.mergeSortSlice nat SnapshotSpec.toyChecksum
     TransactionSpec.exampleEnv (TransactionSpec.pendingWorld TransactionSpec.okApplier)).2.

Definition restagedWorld : World nat :=
  withDisk
    (ConfigStore.Set_ noFaults (configManager rolledBackWorld) (active rolledBackWorld)
       "network.wan.ipaddr" "10.0.0.7").2
    (active rolledBackWorld) (snapshots rolledBackWorld) rolledBackWorld.

Definition secondEnv : Env :=
  {| io := noFaults; txID := "20241006-160000-000-0002";
     snapshotID := "20241006-160000-000-beef"; now := 2000; version := "1.0";
     timeoutCtx := Background; dbOpen := false |}.

End TransactionMoreSpec.

Module NetworkApplySpec.
Import GoStrings Uci NetworkApply.

Section Allowed.
Variable ParseIP : string -> option bool.

Definition validName (n : string) : Prop := Util.ValidateInterfaceName n = Ok tt.
Definition validIP (ip : string) : Prop := Util.ValidateIPAddress ParseIP ip = Ok tt.

(** The command lines that the applier may run for the interfaces
    [names]: every interface name in them has passed
    [ValidateInterfaceName], every address [ValidateIPAddress], and a prefix
    length is between 8 and 32. *)
Inductive allowed (names : list string) : list string -> Prop :=
| AllowShow n :
    n ∈ names -> validName n -> allowed names ["ip"; "addr"; "show"; "dev"; n]
| AllowFlush n :
    n ∈ names -> validName n -> allowed names ["ip"; "addr"; "flush"; "dev"; n]
| AllowAdd ip cidr n :
    n ∈ names -> validName n -> validIP ip -> (8 <= cidr <= 32)%Z ->
    allowed names ["ip"; "addr"; "add"; ip +:+ "/" +:+ NetworkApplier.decimal cidr; "dev"; n]
| AllowUp n :
    n ∈ names -> validName n -> allowed names ["ip"; "link"; "set"; n; "up"]
| AllowDown n :
    n ∈ names -> validName n -> allowed names ["ip"; "link"; "set"; n; "down"]
| AllowRouteDel : allowed names ["ip"; "route"; "del"; "default"]
| AllowRouteAdd gateway n :
    n ∈ names -> validName n -> validIP gateway ->
    allowed names ["ip"; "route"; "add"; "default"; "via"; gateway; "dev"; n]
| AllowRelease n :
    n ∈ names -> validName n -> allowed names ["dhclient"; "-r"; n]
| AllowDhclient n :
    n ∈ names -> validName n -> allowed names ["dhclient"; n].

(** What a step of the applier adds to the commands run. *)
Definition extends (names : list string) (a a' : State) : Prop :=
  exists new, commands a' = commands a ++ new /\ Forall (allowed names) new.

End Allowed.

(** The names of the interface sections of a document. *)
Definition interfaceNames (config : Config) : list string :=
  Name <$> GetSectionsByType config "interface".

(** The two commands of [Rollback] for one saved interface. *)
Definition rollbackCommands (saved : string * string) : list (list string) :=
  [ ["ip"; "addr"; "flush"; "dev"; saved.1]; ["ip"; "link"; "set"; saved.1; "down"] ].

(** A machine on which every command fails. *)
Definition allFail : list (list string) -> list string -> Outcome :=
  fun _ _ => {| cmdErr := Some "exit status 1"; cmdOut := "" |}.

(** A machine on which every command succeeds and prints nothing. *)
Definition allWork : list (list string) -> list string -> Outcome :=
  fun _ _ => {| cmdErr := None; cmdOut := "" |}.

(** A stand-in for [net.ParseIP] in examples: it accepts two texts. *)
Definition toyParseIP (s : string) : option bool :=
  if String.eqb s "192.168.1.1" || String.eqb s "255.255.255.0" then Some true else None.

(** A document with a static interface, an interface whose name holds a
    blank, and a section of another type. *)
Definition lanWanDoc : Config :=
  [ SetOption (SetOption (SetOption (NewSection "interface" "lan") "proto" "static")
                 "ipaddr" "192.168.1.1") "netmask" "255.255.255.0";
    NewSection "globals" "";
    SetOption (NewSection "interface" "wan; reboot") "proto" "dhcp" ].

End NetworkApplySpec.

Module UtilSpec.
Import GoStrings.

(** The characters of the string that pass the test, in order. *)
Fixpoint keep (p : ascii -> bool) (s : string) : string :=
  match s with
  | EmptyString => EmptyString
  | String c r => if p c then String c (keep p r) else keep p r
  end.

(** The character is none of those that [SanitizeString] removes. *)
Definition harmless (c : ascii) : bool := negb (existsb (Ascii.eqb c) Util.dangerous).

End UtilSpec.

(** * Properties *)

(** ** The configuration format *)

Module UciProps.
Import GoStrings Uci UciSpec.

Lemma range_map_empty `{mr : MapRange} (A : Type) :
  range_map (∅ : gmap string A) = [].
Proof.
  apply Permutation_nil_r. by rewrite range_map_perm, map_to_list_empty.
Qed.

Lemma range_map_singleton `{mr : MapRange} (A : Type) (k : string) (v : A) :
  range_map (<[k := v]> (∅ : gmap string A)) = [(k, v)].
Proof.
  apply Permutation_singleton_r.
  by rewrite range_map_perm, insert_empty, map_to_list_singleton.
Qed.

(** The tokens of the option line that [Write] emits for the value [it's]:
    the escaped quote closes the quoted token, and a third token follows. *)
Example parseQuotedLine_escaped_quote :
  parseQuotedLine "'desc' 'it\'s'" = ["desc"; "it\"; "s"].
Proof. reflexivity. Qed.

(** C1. The round trip of parse after emit fails on a document with a
    single quote in an option value: whatever the order of iteration over
    maps, [Write] emits the value as [it\'s] between single quotes, and
    [Parse] rejects that line, the second of the text, as an invalid option
    line. *)
Theorem write_then_parse_rejects_quote `{mr : MapRange} :
  Write quoteDoc
  = "config interface 'wan'" +:+ nl +:+ tabStr +:+ "option 'desc' 'it\'s'" +:+ nl
  /\ Parse (Write quoteDoc) = Err (ErrInvalidOptionLine 2).
Proof.
  assert (Write quoteDoc
          = "config interface 'wan'" +:+ nl +:+ tabStr
            +:+ "option 'desc' 'it\'s'" +:+ nl) as ->.
  { unfold Write, quoteDoc, writeSections, writeSection. simpl Options. simpl Lists.
    rewrite range_map_singleton, range_map_empty. reflexivity. }
  split; [reflexivity | vm_compute; reflexivity].
Qed.

(** A single quote in a list value breaks the round trip in the same way. *)
Example write_then_parse_rejects_quote_in_list `{mr : MapRange} :
  Parse (Write [AddListValue (NewSection "interface" "wan") "note" "it's"])
  = Err (ErrInvalidListLine 2).
Proof.
  unfold Write, writeSections, writeSection. simpl Options. simpl Lists.
  rewrite lookup_empty. simpl default.
  rewrite range_map_singleton, range_map_empty. vm_compute. reflexivity.
Qed.

(** The same document without the quote comes back as it was. *)
Example write_then_parse_plain `{mr : MapRange} :
  Parse (Write [SetOption (NewSection "interface" "wan") "desc" "its"])
  = Ok [SetOption (NewSection "interface" "wan") "desc" "its"].
Proof.
  unfold Write, writeSections, writeSection. simpl Options. simpl Lists.
  rewrite range_map_singleton, range_map_empty. vm_compute. reflexivity.
Qed.

Lemma parseLine_classify (n : nat) (st : ParseState) (raw : string) :
  parseLine n st raw =
  match classify raw with
  | KSkip => Ok st
  | KConfig t name =>
      Ok {| config := flushSection st; currentSection := Some (NewSection t name) |}
  | KOption k v =>
      match currentSection st with
      | Some s => Ok {| config := config st; currentSection := Some (SetOption s k v) |}
      | None => Err (ErrOptionOutsideSection n)
      end
  | KList k v =>
      match currentSection st with
      | Some s => Ok {| config := config st; currentSection := Some (AddListValue s k v) |}
      | None => Err (ErrListOutsideSection n)
      end
  | KBad => parseLine n st raw
  end.
Proof.
  unfold parseLine, classify.
  destruct (String.eqb (TrimSpace raw) "" || HasPrefix (TrimSpace raw) "#"); [done|].
  destruct (HasPrefix (TrimSpace raw) "config ").
  { destruct (parseQuotedLine _) as [|t more]; done. }
  destruct (HasPrefix (TrimSpace raw) "option ").
  { destruct (currentSection st);
      destruct (parseQuotedLine _) as [|k [|v [|x l]]]; try done. }
  destruct (HasPrefix (TrimSpace raw) "list ").
  { destruct (currentSection st);
      destruct (parseQuotedLine _) as [|k [|v [|x l]]]; try done. }
  done.
Qed.

(** Inside a section, option, list, blank and comment lines are all
    accepted, whatever keys came before; the options the section ends with
    are those of the last line for each key. *)
Lemma parseLines_body (body : list string) : forall n st s,
  currentSection st = Some s ->
  forallb isBodyLine body = true ->
  exists s',
    parseLines n st body = Ok {| config := config st; currentSection := Some s' |}
    /\ Type_ s' = Type_ s /\ Name s' = Name s
    /\ forall key, GetOption s' key =
         match lastOption key body with
         | Some v => Some v
         | None => GetOption s key
         end.
Proof.
  induction body as [|raw more IH]; intros n st s Hcur Hall.
  - exists s. simpl. destruct st; simpl in *; subst. done.
  - simpl in Hall. apply andb_true_iff in Hall as [Hraw Hmore].
    unfold isBodyLine in Hraw. simpl.
    rewrite parseLine_classify.
    destruct (classify raw) as [| |k v|k v|] eqn:Hk; try discriminate.
    + destruct (IH (S n) st s Hcur Hmore) as (s' & Hp & Ht & Hn & Ho).
      exists s'. repeat split; try done.
      intros key. rewrite Ho. by destruct (lastOption key more).
    + rewrite Hcur.
      destruct (IH (S n) {| config := config st; currentSection := Some (SetOption s k v) |}
                  (SetOption s k v) eq_refl Hmore) as (s' & Hp & Ht & Hn & Ho).
      exists s'. repeat split; try done.
      intros key. rewrite Ho. destruct (lastOption key more); [done|].
      unfold GetOption, SetOption; simpl.
      destruct (String.eqb_spec k key) as [->|Hne].
      * by rewrite lookup_insert_eq.
      * by rewrite lookup_insert_ne.
    + rewrite Hcur.
      destruct (IH (S n) {| config := config st; currentSection := Some (AddListValue s k v) |}
                  (AddListValue s k v) eq_refl Hmore) as (s' & Hp & Ht & Hn & Ho).
      exists s'. repeat split; try done.
      intros key. rewrite Ho. by destruct (lastOption key more).
Qed.

Lemma parseLines_app (l1 l2 : list string) : forall n st st1,
  parseLines n st l1 = Ok st1 ->
  parseLines n st (l1 ++ l2) = parseLines (n + List.length l1) st1 l2.
Proof.
  induction l1 as [|raw more IH]; intros n st st1 H; simpl in *.
  - inversion H. by rewrite Nat.add_0_r.
  - destruct (parseLine (S n) st raw) as [st'|e]; [|discriminate].
    rewrite (IH _ _ _ H). f_equal. lia.
Qed.

Lemma bad_line_rejected (n : nat) (st : ParseState) (raw : string) :
  classify raw = KBad -> exists e, parseLine n st raw = Err e.
Proof.
  unfold parseLine, classify.
  destruct (String.eqb (TrimSpace raw) "" || HasPrefix (TrimSpace raw) "#"); [done|].
  destruct (HasPrefix (TrimSpace raw) "config ").
  { destruct (parseQuotedLine _) as [|t more]; [eauto | done]. }
  destruct (HasPrefix (TrimSpace raw) "option ").
  { destruct (currentSection st); [|eauto].
    destruct (parseQuotedLine _) as [|k [|v [|x l]]]; try done; eauto. }
  destruct (HasPrefix (TrimSpace raw) "list ").
  { destruct (currentSection st); [|eauto].
    destruct (parseQuotedLine _) as [|k [|v [|x l]]]; try done; eauto. }
  eauto.
Qed.

(** Accepted lines only ever add sections after those already there. *)
Lemma parseLines_grows (lines : list string) : forall n st,
  parsesOk (bool_decide (is_Some (currentSection st))) lines = true ->
  exists st' extra,
    parseLines n st lines = Ok st' /\ flushSection st' = config st ++ extra.
Proof.
  induction lines as [|raw more IH]; intros n st Hok.
  - exists st. destruct st as [c [s|]]; simpl.
    + by exists [s].
    + exists []. by rewrite app_nil_r.
  - simpl in *. rewrite parseLine_classify.
    destruct (classify raw) as [|t name|k v|k v|] eqn:Hk; try discriminate.
    + destruct (IH (S n) st Hok) as (st' & extra & -> & Hc). by exists st', extra.
    + destruct (IH (S n)
                  {| config := flushSection st;
                     currentSection := Some (NewSection t name) |})
        as (st' & extra & -> & Hc); [done|].
      simpl in Hc. exists st'. destruct st as [c [s|]].
      * exists ([s] ++ extra). split; [done|]. rewrite Hc.
        unfold flushSection, AddSection. simpl. by rewrite <- app_assoc.
      * by exists extra.
    + apply andb_true_iff in Hok as [Hin Hok].
      destruct (currentSection st) as [s|] eqn:Hcur; [|done].
      destruct (IH (S n) {| config := config st;
                            currentSection := Some (SetOption s k v) |})
        as (st' & extra & -> & Hc); [done|]. by exists st', extra.
    + apply andb_true_iff in Hok as [Hin Hok].
      destruct (currentSection st) as [s|] eqn:Hcur; [|done].
      destruct (IH (S n) {| config := config st;
                            currentSection := Some (AddListValue s k v) |})
        as (st' & extra & -> & Hc); [done|]. by exists st', extra.
Qed.

(** Lines that start a new section leave the open section as it is: it is
    in the result, right after the sections that came before. *)
Lemma parseLines_keeps_section (post : list string) (n : nat) (c : Config) (s : Section) :
  startsSection post = true ->
  parsesOk true post = true ->
  exists st' extra,
    parseLines n {| config := c; currentSection := Some s |} post = Ok st'
    /\ flushSection st' = c ++ [s] ++ extra.
Proof.
  intros Hstart Hok. destruct post as [|raw more].
  - exists {| config := c; currentSection := Some s |}, []. done.
  - simpl in *. rewrite parseLine_classify.
    destruct (classify raw) as [|t name|k v|k v|] eqn:Hk; try discriminate.
    destruct (parseLines_grows more (S n)
                {| config := flushSection {| config := c; currentSection := Some s |};
                   currentSection := Some (NewSection t name) |})
      as (st' & extra & -> & Hc); [done|].
    exists st', extra. split; [done|]. rewrite Hc.
    unfold flushSection, AddSection. simpl. by rewrite <- app_assoc.
Qed.

(** C9. Several [option] lines with the same key inside one section are
    accepted, and the last one wins.  Let the lines of [text] be a prefix
    [pre] that parses, a [config] line, a body of option, list, blank and
    comment lines in which the last option line for [key] carries [value],
    and a rest [post] that is empty or starts the next section and is
    accepted.  Then [Parse] succeeds, and the section that the [config]
    line opens maps [key] to [value], however many earlier lines of the
    body set the same key. *)
Theorem duplicate_option_last_wins (text : string) (pre body post : list string)
    (header : string) (st0 : ParseState) (sectionType sectionName key value : string) :
  Bufio.scanLines text = (pre ++ header :: body ++ post, false) ->
  parseLines 0 initState pre = Ok st0 ->
  classify header = KConfig sectionType sectionName ->
  forallb isBodyLine body = true ->
  startsSection post = true ->
  parsesOk true post = true ->
  lastOption key body = Some value ->
  exists cfg s,
    Parse text = Ok cfg
    /\ cfg !! List.length (flushSection st0) = Some s
    /\ Type_ s = sectionType /\ Name s = sectionName
    /\ GetOption s key = Some value.
Proof.
  intros Hscan Hpre Hhdr Hbody Hstart Hpost Hlast.
  unfold Parse. rewrite Hscan.
  rewrite (parseLines_app _ _ _ _ _ Hpre). simpl.
  rewrite parseLine_classify, Hhdr.
  match goal with |- context [parseLines ?k ?st (body ++ post)] =>
    destruct (parseLines_body body k st (NewSection sectionType sectionName)
                eq_refl Hbody) as (s' & Hp & Ht & Hn & Ho) end.
  rewrite (parseLines_app _ _ _ _ _ Hp). simpl.
  match goal with |- context [parseLines ?k _ post] =>
    destruct (parseLines_keeps_section post k (flushSection st0) s' Hstart Hpost)
      as (st' & extra & -> & Hflush) end.
  exists (flushSection st'), s'. split; [done|]. split.
  - rewrite Hflush. by apply list_lookup_middle.
  - repeat split; try done. by rewrite Ho, Hlast.
Qed.

Lemma duplicate_option_last_wins_witness :
  exists cfg s,
    Parse dupText = Ok cfg
    /\ cfg !! 1%nat = Some s
    /\ Type_ s = "interface" /\ Name s = "wan"
    /\ GetOption s "ipaddr" = Some "10.0.0.3".
Proof.
  apply (duplicate_option_last_wins dupText
           ["config interface 'lan'"; tabStr +:+ "option proto 'dhcp'"]
           [tabStr +:+ "option ipaddr '10.0.0.1'"; tabStr +:+ "list dns '8.8.8.8'";
            tabStr +:+ "option ipaddr '10.0.0.2'"; tabStr +:+ "option 'ipaddr' '10.0.0.3'";
            ""]
           ["config rule"; tabStr +:+ "option ipaddr '10.9.9.9'"]
           "config interface 'wan'"
           {| config := [];
              currentSection :=
                Some (SetOption (NewSection "interface" "lan") "proto" "dhcp") |}).
  - vm_compute; reflexivity.
  - vm_compute; reflexivity.
  - vm_compute; reflexivity.
  - vm_compute; reflexivity.
  - vm_compute; reflexivity.
  - vm_compute; reflexivity.
  - vm_compute; reflexivity.
Defined.

End UciProps.

(** ** The netmask table *)

Module NetworkApplierProps.
Import NetworkApplier.
Open Scope Z_scope.

Example dottedMask_8 : dottedMask 8 = "255.0.0.0".
Proof. reflexivity. Qed.

Example dottedMask_23 : dottedMask 23 = "255.255.254.0".
Proof. reflexivity. Qed.

Example dottedMask_32 : dottedMask 32 = "255.255.255.255".
Proof. reflexivity. Qed.

(** A contiguous mask shorter than 8 bits is not in the table. *)
Example convertNetmaskToCIDR_short_mask : convertNetmaskToCIDR (dottedMask 7) = 24.
Proof. reflexivity. Qed.

Lemma prefix_cases (n : Z) :
  8 <= n <= 32 ->
  n ∈ [8;9;10;11;12;13;14;15;16;17;18;19;20;21;22;23;24;25;26;27;28;29;30;31;32].
Proof. intros Hn. rewrite !elem_of_cons. lia. Qed.

Lemma masks_are_dotted (s : string) (c : Z) :
  masksMap !! s = Some c -> 8 <= c <= 32 /\ s = dottedMask c.
Proof.
  intros H. apply elem_of_list_to_map_2 in H. unfold masks in H.
  repeat (apply elem_of_cons in H as [H | H];
          [inversion H; subst; split; [lia | vm_compute; reflexivity] |]).
  by apply elem_of_nil in H.
Qed.

Lemma dotted_in_table (n : Z) :
  8 <= n <= 32 -> convertNetmaskToCIDR (dottedMask n) = n.
Proof.
  intros Hn. apply prefix_cases in Hn.
  repeat (apply elem_of_cons in Hn as [-> | Hn]; [vm_compute; reflexivity |]).
  by apply elem_of_nil in Hn.
Qed.

(** C8. [convertNetmaskToCIDR] maps the dotted netmask of every prefix
    length from 8 to 32 to that prefix length, and every other string to
    the fallback 24. *)
Theorem convertNetmaskToCIDR_table (netmask : string) :
  (forall n, 8 <= n <= 32 -> netmask = dottedMask n -> convertNetmaskToCIDR netmask = n)
  /\ ((forall n, 8 <= n <= 32 -> netmask <> dottedMask n) ->
      convertNetmaskToCIDR netmask = DefaultCIDR).
Proof.
  split.
  - intros n Hn ->. by apply dotted_in_table.
  - intros Hout. unfold convertNetmaskToCIDR.
    destruct (masksMap !! netmask) as [c|] eqn:E; [|done].
    apply masks_are_dotted in E as [Hc ->]. by destruct (Hout c Hc).
Qed.

Lemma convertNetmaskToCIDR_table_witness :
  convertNetmaskToCIDR "255.255.240.0" = 20 /\ convertNetmaskToCIDR "255.0.255.0" = 24.
Proof.
  destruct (convertNetmaskToCIDR_table "255.255.240.0") as [Hin _].
  destruct (convertNetmaskToCIDR_table "255.0.255.0") as [_ Hout].
  split.
  - apply Hin; [lia | vm_compute; reflexivity].
  - apply Hout. intros n Hn. apply prefix_cases in Hn.
    repeat (apply elem_of_cons in Hn as [-> | Hn]; [vm_compute; discriminate |]).
    by apply elem_of_nil in Hn.
Defined.

End NetworkApplierProps.

(** ** The configuration store *)

Module ConfigStoreProps.
Import GoStrings Os ConfigStore ConfigStoreSpec.

Lemma splitPathLoop_segments (path : string) : forall parts current,
  splitPathLoop path parts current
  = parts ++ filter (fun s => s <> "") (dotSegmentsFrom path current).
Proof.
  induction path as [|r rest IH]; intros parts current; simpl.
  - destruct (String.eqb_spec current "") as [->|Hne].
    + rewrite filter_cons_False by naive_solver. by rewrite filter_nil, app_nil_r.
    + by rewrite filter_cons_True, filter_nil.
  - destruct (Ascii.eqb r "."); [|apply IH].
    destruct (String.eqb_spec current "") as [->|Hne].
    + rewrite filter_cons_False by naive_solver. apply IH.
    + rewrite filter_cons_True by done. rewrite IH. by rewrite <- app_assoc.
Qed.

Lemma splitPath_segments (path : string) : splitPath path = nonEmptySegments path.
Proof. unfold splitPath. by rewrite splitPathLoop_segments. Qed.

Lemma dotSegmentsFrom_dot (a b : string) : forall current,
  dotSegmentsFrom (a +:+ String "." b) current
  = dotSegmentsFrom a current ++ dotSegmentsFrom b "".
Proof.
  induction a as [|r rest IH]; intros current; simpl; [done|].
  destruct (Ascii.eqb r "."); by rewrite IH.
Qed.

Lemma splitPath_leading_dot (p : string) : splitPath ("." +:+ p) = splitPath p.
Proof. reflexivity. Qed.

Lemma splitPath_trailing_dot (p : string) : splitPath (p +:+ ".") = splitPath p.
Proof.
  rewrite !splitPath_segments. unfold nonEmptySegments, dotSegments.
  rewrite dotSegmentsFrom_dot. simpl. rewrite filter_app.
  rewrite filter_cons_False by naive_solver. by rewrite filter_nil, app_nil_r.
Qed.

Lemma splitPath_double_dot (a b : string) :
  splitPath (a +:+ ".." +:+ b) = splitPath (a +:+ "." +:+ b).
Proof.
  rewrite !splitPath_segments. unfold nonEmptySegments, dotSegments.
  change (a +:+ ".." +:+ b) with (a +:+ String "." ("." +:+ b)).
  change (a +:+ "." +:+ b) with (a +:+ String "." b).
  rewrite !dotSegmentsFrom_dot. rewrite !filter_app. f_equal.
Qed.

(** C10. Path resolution drops empty segments: [splitPath] yields the
    non-empty segments between the dots, so a leading dot, a trailing dot
    and a doubled dot change nothing, and [Get] and [Set] on two paths with
    the same non-empty segments do the same, on every store. *)
Theorem dotted_path_drops_empty_segments (p a b : string) :
  splitPath p = nonEmptySegments p
  /\ splitPath ("." +:+ p) = splitPath p
  /\ splitPath (p +:+ ".") = splitPath p
  /\ splitPath (a +:+ ".." +:+ b) = splitPath (a +:+ "." +:+ b)
  /\ (forall q io m dir value,
        nonEmptySegments q = nonEmptySegments p ->
        Get io m dir q = Get io m dir p
        /\ Set_ io m dir q value = Set_ io m dir p value).
Proof.
  split; [apply splitPath_segments|].
  split; [apply splitPath_leading_dot|].
  split; [apply splitPath_trailing_dot|].
  split; [apply splitPath_double_dot|].
  intros q io m dir value Hseg.
  unfold Get, Set_, parsePath. rewrite !splitPath_segments, Hseg. done.
Qed.

Lemma dotted_path_drops_empty_segments_witness :
  Get noFaults NewManager exampleDir ".network..wan.ipaddr." = Ok "192.168.1.1"
  /\ Set_ noFaults NewManager exampleDir ".network..wan.ipaddr." "10.0.0.1"
     = Set_ noFaults NewManager exampleDir "network.wan.ipaddr" "10.0.0.1".
Proof.
  destruct (dotted_path_drops_empty_segments "network.wan.ipaddr" "" "")
    as (_ & _ & _ & _ & H).
  destruct (H ".network..wan.ipaddr." noFaults NewManager exampleDir "10.0.0.1")
    as [HG HS]; [vm_compute; reflexivity|].
  split; [rewrite HG; vm_compute; reflexivity | exact HS].
Defined.

Section CommitOverlay.
Context {mr : MapRange}.

Lemma writeStaged_ok io dir entry :
  writeSucceeds io entry = true ->
  writeStaged io dir entry = (Ok tt, putFile dir entry).
Proof.
  destruct entry as [name c]. unfold writeSucceeds, writeStaged, putFile, tmpOf. simpl.
  intros H. apply andb_true_iff in H as [H H3]. apply andb_true_iff in H as [H1 H2].
  apply negb_true_iff in H1, H2, H3. rewrite H1, H2, H3.
  by rewrite !delete_insert_eq.
Qed.

Lemma writeStaged_err io dir entry :
  writeSucceeds io entry = false ->
  exists e, (writeStaged io dir entry = (Err e, dir)
             \/ writeStaged io dir entry = (Err e, delete (tmpOf entry.1) dir)).
Proof.
  destruct entry as [name c]. unfold writeSucceeds, writeStaged, tmpOf. simpl.
  intros H.
  destruct (fault io OpCreate (name +:+ ".tmp")); [eauto|].
  destruct (fault io OpWrite (name +:+ ".tmp")).
  { eexists. right. by rewrite delete_insert_eq. }
  destruct (fault io OpRename name); [|done].
  eexists. right. by rewrite !delete_insert_eq.
Qed.

(** The loop of [Commit] stops at the first write that fails and undoes
    nothing. *)
Lemma writeAllStaged_spec io entries : forall dir,
  match writeAllStaged io dir entries with
  | (Ok _, dir') =>
      forallb (writeSucceeds io) entries = true /\ dir' = foldl putFile dir entries
  | (Err e, dir') =>
      exists done failed rest,
        entries = done ++ failed :: rest
        /\ forallb (writeSucceeds io) done = true
        /\ writeSucceeds io failed = false
        /\ (dir' = foldl putFile dir done
            \/ dir' = delete (tmpOf failed.1) (foldl putFile dir done))
  end.
Proof.
  induction entries as [|entry more IH]; intros dir; simpl; [done|].
  destruct (writeSucceeds io entry) eqn:Hs.
  - rewrite (writeStaged_ok _ _ _ Hs). specialize (IH (putFile dir entry)).
    destruct (writeAllStaged io (putFile dir entry) more) as [[[]|e] dir'].
    + done.
    + destruct IH as (done & failed & rest & -> & Hd & Hf & Hdir).
      exists (entry :: done), failed, rest. simpl. rewrite Hs. done.
  - destruct (writeStaged_err io dir entry Hs) as [e [-> | ->]];
      exists [], entry, more; simpl; eauto.
Qed.


End CommitOverlay.

(** With the canonical order of iteration [network] is written before
    [firewall]: on a disk where the rename over [firewall] fails, [network]
    is on the disk, [firewall] is not, and both documents stay staged. *)
Example commit_fails_overlay_intact :
  let '(r, m', dir') := @Commit canonical_range renameFirewallFails twoStaged ∅ in
  r = Err (ErrCommitConfig "firewall")
  /\ m' = twoStaged
  /\ dir' !! "network"
     = Some ("config interface 'wan'" +:+ Uci.nl
             +:+ Uci.tabStr +:+ "option 'proto' 'dhcp'" +:+ Uci.nl)
  /\ dir' !! "firewall" = None
  /\ dir' !! "firewall.tmp" = None.
Proof. vm_compute. done. Qed.

End ConfigStoreProps.

(** ** The snapshot store *)

Module SnapshotProps.
Import Os SnapshotStore SnapshotSpec.

Section Restore.
Context {ss : SortSlice}.
Variable sha256hex : string -> string.

Lemma validateConfigs_corrupt io checksums path files configs :
  existsb (isCorrupt sha256hex checksums files) configs = true ->
  exists cause, validateConfigs sha256hex io checksums path files configs = Err cause.
Proof.
  induction configs as [|configName more IH]; simpl; [discriminate|].
  intros H.
  destruct (fault io OpStat (joinPath path configName)); [eauto|].
  unfold isCorrupt in H at 1.
  destruct (files !! configName) as [data|]; [|eauto].
  unfold verifyChecksum.
  destruct (0 <? size checksums)%nat eqn:Hsz.
  - destruct (checksums !! configName) as [expected|] eqn:Hc.
    + destruct (fault io OpRead (joinPath path configName)); [eauto|].
      destruct (String.eqb (sha256hex data) expected); [|eauto]. simpl in H.
      destruct (fault io OpOpen (joinPath path configName)); [eauto|].
      destruct (Uci.Parse data); simpl in H; [auto | eauto].
    + simpl in H.
      destruct (fault io OpOpen (joinPath path configName)); [eauto|].
      destruct (Uci.Parse data); simpl in H; [auto | eauto].
  - assert (checksums !! configName = None) as Hc.
    { apply Nat.ltb_ge in Hsz. assert (size checksums = 0) as Hz by lia.
      apply map_size_empty_iff in Hz. subst. apply lookup_empty. }
    rewrite Hc in H. simpl in H.
    destruct (fault io OpOpen (joinPath path configName)); [eauto|].
    destruct (Uci.Parse data); simpl in H; [auto | eauto].
Qed.

(** C5. [Restore] of a snapshot with a corrupt file (a file listed in the
    metadata that is missing, or whose checksum differs from the stored one,
    or that does not parse) fails with the validation error, and the
    directory of active configurations is returned as it was: nothing is
    copied. *)
Theorem restore_rejects_corrupt_snapshot (io : Faults) (dir : SnapDir)
    (active : Files) (id : string) (snapshot : Snapshot) :
  Load io dir id = Ok snapshot ->
  existsb (isCorrupt sha256hex (Checksums (SnapMetadata snapshot))
             (snapFiles dir (Path snapshot)))
          (Configs (SnapMetadata snapshot)) = true ->
  exists cause,
    Restore sha256hex io dir active id = (Err (ErrValidationFailed cause), active).
Proof.
  intros HL Hc. unfold Restore. rewrite HL. unfold ValidateSnapshot.
  destruct (validateConfigs_corrupt io _ (Path snapshot) _ _ Hc) as [cause ->].
  by exists cause.
Qed.
End Restore.

Lemma restore_rejects_corrupt_snapshot_witness :
  exists cause,
    Restore toyChecksum noFaults tamperedDir {[ "network" := goodNetwork ]}
      "20241006-153000-000-abcd"
    = (Err (ErrValidationFailed cause), {[ "network" := goodNetwork ]}).
Proof.
  eapply (restore_rejects_corrupt_snapshot toyChecksum noFaults tamperedDir).
  - vm_compute; reflexivity.
  - vm_compute; reflexivity.
Defined.

Open Scope Z_scope.

Lemma lookup_removeAll (ids : list string) : forall (dir : SnapDir) (k : string),
  removeAll dir ids !! k = if decide (k ∈ ids) then None else dir !! k.
Proof.
  induction ids as [|id more IH]; intros dir k.
  - destruct (decide (k ∈ [])) as [Hin|_]; [by apply elem_of_nil in Hin | done].
  - change (removeAll dir (id :: more)) with (removeAll (delete id dir) more).
    rewrite IH.
    destruct (decide (k ∈ more)) as [Hin|Hnin].
    + rewrite decide_True; [done | by apply list_elem_of_further].
    + destruct (decide (k = id)) as [->|Hne].
      * rewrite decide_True by apply list_elem_of_here. apply lookup_delete_eq.
      * rewrite decide_False.
        -- by apply lookup_delete_ne.
        -- intros Hin. apply elem_of_cons in Hin as [?|?]; done.
Qed.

Lemma listEntries_ids io dir entries :
  (SnapID <$> listEntries io dir entries) `sublist_of` entries.*1.
Proof.
  induction entries as [|[name e] more IH]; simpl; [constructor|].
  destruct e as [|meta files]; [by constructor|].
  destruct (fault io OpStat (joinPath name MetadataFile)); [by constructor|].
  assert (forall s, Load io dir name = Ok s -> SnapID s = name) as HL.
  { intros s. unfold Load. destruct (fault io OpStat name); [done|].
    destruct (dir !! name) as [[|m f]|]; try done.
    destruct (fault io OpOpen _); [done|]. destruct m; try done.
    by inversion 1. }
  destruct meta; [by constructor| |].
  all: destruct (Load io dir name) as [s|] eqn:E; [|by constructor].
  all: simpl; rewrite (HL s eq_refl); by constructor.
Qed.

Section Prune.
Context {ss : SortSlice}.

Lemma List_no_faults io dir :
  fault io OpMkdir "" = false -> fault io OpReadDir "" = false ->
  let listing := sortNewestFirst (listEntries io dir (map_to_list dir)) in
  List io dir = Ok listing
  /\ listing ≡ₚ listEntries io dir (map_to_list dir)
  /\ StronglySorted newerOrEqual listing
  /\ NoDup (SnapID <$> listing).
Proof.
  intros H1 H2 listing. unfold List. rewrite H1, H2. repeat split.
  - apply sortNewestFirst_perm.
  - apply sortNewestFirst_sorted.
  - unfold listing. rewrite sortNewestFirst_perm.
    eapply sublist_NoDup; [|apply listEntries_ids]. apply NoDup_fst_map_to_list.
Qed.

(** Where no removal fails, [os.RemoveAll] removes the whole entry. *)
Lemma RemoveAll_no_faults io (dir : SnapDir) id :
  (forall path, fault io OpRemove path = false) ->
  RemoveAll io dir id = (true, delete id dir).
Proof.
  intros Hrm. unfold RemoveAll.
  destruct (dir !! id) as [[|meta files]|] eqn:Hid.
  - by rewrite Hrm.
  - assert (filter (fun kv : string * string =>
                      fault io OpRemove (joinPath id kv.1) = true) files = ∅) as ->.
    { apply map_empty. intros name. apply map_lookup_filter_None. right.
      intros data _. simpl. by rewrite Hrm. }
    rewrite !Hrm. rewrite decide_True by done. by destruct meta.
  - rewrite Hrm. simpl. by rewrite delete_id.
Qed.

Lemma deleteOld_no_faults io old : forall dir deleted,
  (forall id, fault io OpRemove id = false) ->
  deleteOld io dir old deleted
  = (PruneReturn (deleted ++ (SnapID <$> old)) None, removeAll dir (SnapID <$> old)).
Proof.
  induction old as [|s more IH]; intros dir deleted Hrm; simpl.
  - by rewrite app_nil_r.
  - unfold Delete. rewrite RemoveAll_no_faults by done.
    rewrite IH by done. by rewrite <- app_assoc.
Qed.

(** C7. On a disk without faults and for [keep] at least 0, [Prune]
    returns the identifiers of the snapshots that [List] puts after the
    first [keep] ones and removes exactly their directories.  With at most
    [keep] valid snapshots it returns the empty list and removes nothing;
    with more, it removes all but [keep], every snapshot kept is at least
    as new as every snapshot removed, the directories of the kept ones are
    untouched and those of the removed ones are gone. *)
Theorem prune_deletes_oldest (io : Faults) (keep : Z) (dir : SnapDir) :
  0 <= keep ->
  fault io OpMkdir "" = false ->
  fault io OpReadDir "" = false ->
  (forall id, fault io OpRemove id = false) ->
  exists listing,
    List io dir = Ok listing
    /\ listing ≡ₚ listEntries io dir (map_to_list dir)
    /\ let kept := take (Z.to_nat keep) listing in
       let old := drop (Z.to_nat keep) listing in
       Prune io keep dir = (PruneReturn (SnapID <$> old) None, removeAll dir (SnapID <$> old))
       /\ (Z.of_nat (List.length listing) <= keep ->
           Prune io keep dir = (PruneReturn [] None, dir))
       /\ (keep < Z.of_nat (List.length listing) ->
           Z.of_nat (List.length old) = Z.of_nat (List.length listing) - keep
           /\ Z.of_nat (List.length kept) = keep)
       /\ (forall k o, k ∈ kept -> o ∈ old -> newerOrEqual k o)
       /\ (forall k, k ∈ kept ->
           removeAll dir (SnapID <$> old) !! SnapID k = dir !! SnapID k)
       /\ (forall o, o ∈ old -> removeAll dir (SnapID <$> old) !! SnapID o = None).
Proof.
  intros Hkeep Hmk Hrd Hrm.
  destruct (List_no_faults io dir Hmk Hrd) as (HL & Hperm & Hsorted & Hnodup).
  set (listing := sortNewestFirst (listEntries io dir (map_to_list dir))) in *.
  exists listing. split; [done|]. split; [done|]. intros kept old.
  assert (listing = kept ++ old) as Hsplit by (symmetry; apply take_drop).
  assert (Prune io keep dir
          = (PruneReturn (SnapID <$> old) None, removeAll dir (SnapID <$> old))) as HP.
  { unfold Prune. rewrite HL.
    destruct (Z.leb_spec (Z.of_nat (List.length listing)) keep) as [Hle|Hgt].
    - assert (old = []) as ->; [|done].
      unfold old. apply drop_ge. lia.
    - destruct (Z.ltb_spec keep 0) as [|_]; [lia|].
      by rewrite deleteOld_no_faults. }
  split; [exact HP|]. split; [|split; [|split; [|split]]].
  - intros Hle. rewrite HP. assert (old = []) as ->; [|done].
    unfold old. apply drop_ge. lia.
  - intros Hlt. unfold old, kept. rewrite length_drop, length_take. lia.
  - intros k o Hk Ho. rewrite Hsplit in Hsorted.
    apply StronglySorted_app in Hsorted as (H & _ & _). by apply H.
  - intros k Hk. rewrite lookup_removeAll. rewrite decide_False; [done|].
    rewrite Hsplit, fmap_app in Hnodup. apply NoDup_app in Hnodup as (_ & Hdisj & _).
    apply Hdisj. by apply list_elem_of_fmap_2.
  - intros o Ho. rewrite lookup_removeAll. rewrite decide_True; [done|].
    by apply list_elem_of_fmap_2.
Qed.
End Prune.

Lemma prune_deletes_oldest_witness :
  @Prune mergeSortSlice noFaults 1 threeSnapshots
  = (PruneReturn ["20241006-144500-000-bbbb"; "20241006-120000-000-aaaa"] None,
     {[ "20241006-153000-000-cccc" :=
          EDir (MetaOk (metaOf "20241006-153000-000-cccc" 300 [] ∅)) ∅;
        "README" := EFile ]}).
Proof.
  destruct (@prune_deletes_oldest mergeSortSlice noFaults 1 threeSnapshots)
    as (listing & HL & _ & HP & _); [lia | reflexivity | reflexivity | reflexivity |].
  vm_compute in HL. injection HL as <-. rewrite HP. vm_compute. reflexivity.
Defined.

(** A negative [keep] makes [Prune] index the slice out of range. *)
Example prune_negative_keep_panics :
  (@Prune mergeSortSlice noFaults (-1) threeSnapshots).1 = PrunePanic.
Proof. vm_compute. reflexivity. Qed.

End SnapshotProps.

(** ** The transaction engine *)

Module TransactionProps.
Import Os Transaction TransactionSpec.

Lemma list_delete_insert {A} (l : list A) : forall (i : nat) (x : A),
  delete i (<[i := x]> l) = delete i l.
Proof.
  induction l as [|y l IH]; intros [|i] x; simpl; try done. by rewrite IH.
Qed.

Lemma restoreConfigs_ok io files configs : forall active active',
  SnapshotStore.restoreConfigs io files configs active = (Ok tt, active') ->
  (forall name, name ∈ configs -> active' !! name = files !! name)
  /\ (forall name, name ∉ configs -> active' !! name = active !! name).
Proof.
  induction configs as [|c more IH]; intros active active' H; simpl in H.
  - injection H as <-. split; [intros name Hin; by apply elem_of_nil in Hin | done].
  - unfold CopyFileAtomic in H.
    destruct (files !! c) as [data|] eqn:Hc; [|discriminate].
    destruct (fault io OpCopy c); [discriminate|].
    apply IH in H as [Hin Hout]. split.
    + intros name Hname. destruct (decide (name ∈ more)) as [Hm|Hm]; [by apply Hin|].
      apply elem_of_cons in Hname as [->|Hname]; [|done].
      rewrite (Hout _ Hm). by rewrite lookup_insert_eq.
    + intros name Hname. apply not_elem_of_cons in Hname as [Hne Hname].
      rewrite (Hout _ Hname). by rewrite lookup_insert_ne.
Qed.

Section Engine.
Context {mr : MapRange} {ss : SnapshotStore.SortSlice}.
Variable Sys : Type.
Variable sha256hex : string -> string.

#[local] Abbreviation World := (Transaction.World Sys).

Lemma Restore_ok io dir active id active' :
  SnapshotStore.Restore sha256hex io dir active id = (Ok tt, active') ->
  exists loaded,
    SnapshotStore.Load io dir id = Ok loaded
    /\ (forall name, name ∈ SnapshotStore.Configs (SnapshotStore.SnapMetadata loaded) ->
        active' !! name = SnapshotStore.snapFiles dir id !! name)
    /\ (forall name, name ∉ SnapshotStore.Configs (SnapshotStore.SnapMetadata loaded) ->
        active' !! name = active !! name).
Proof.
  unfold SnapshotStore.Restore.
  destruct (SnapshotStore.Load io dir id) as [loaded|e] eqn:HL; [|discriminate].
  destruct (SnapshotStore.ValidateSnapshot sha256hex io dir loaded); [|discriminate].
  assert (SnapshotStore.Path loaded = id) as ->.
  { revert HL. unfold SnapshotStore.Load.
    destruct (fault io OpStat id); [done|].
    destruct (dir !! id) as [[|meta files]|]; try done.
    destruct (fault io OpOpen _); [done|]. destruct meta; try done.
    by inversion 1. }
  intros H. apply restoreConfigs_ok in H. by exists loaded.
Qed.

Lemma updateTxRecord_frame env f audit (w : World) :
  state (mgr (updateTxRecord env f audit w)) = state (mgr w)
  /\ currentSnapshot (mgr (updateTxRecord env f audit w)) = currentSnapshot (mgr w)
  /\ pendingConfirm (mgr (updateTxRecord env f audit w)) = pendingConfirm (mgr w)
  /\ active (updateTxRecord env f audit w) = active w
  /\ snapshots (updateTxRecord env f audit w) = snapshots w
  /\ exists extra, trace (updateTxRecord env f audit w) = trace w ++ extra.
Proof.
  unfold updateTxRecord. destruct (dbOpen env).
  - destruct (currentTxRecord (mgr w)); simpl; repeat split; try done; eauto.
    exists []. by rewrite app_nil_r.
  - repeat split; try done. exists []. by rewrite app_nil_r.
Qed.

Lemma reapplyLoop_frame env ctx configs : forall tick errs (w : World) r w',
  reapplyLoop env ctx tick configs errs w = (r, w') ->
  mgr w' = mgr w /\ configManager w' = configManager w /\ active w' = active w
  /\ snapshots w' = snapshots w /\ closedChans w' = closedChans w
  /\ chanCount w' = chanCount w /\ timers w' = timers w
  /\ exists extra, trace w' = trace w ++ extra.
Proof.
  induction configs as [|c more IH]; intros tick errs w r w' H; simpl in H.
  - injection H as <- <-. repeat split; try done. exists []. by rewrite app_nil_r.
  - destruct (ctx tick).
    { injection H as <- <-. repeat split; try done. exists []. by rewrite app_nil_r. }
    destruct (applierRegistry (mgr w) !! c) as [applier|]; [|by eapply IH].
    destruct (ConfigStore.Load _ _ _ _) as [cfg|e]; [|by eapply IH].
    destruct (Apply applier cfg (sys w)) as [res sys'].
    assert (forall errs',
              reapplyLoop env ctx (S tick) more errs'
                (emit [EffApply c cfg] (withSys sys' w)) = (r, w') ->
              mgr w' = mgr w /\ configManager w' = configManager w
              /\ active w' = active w /\ snapshots w' = snapshots w
              /\ closedChans w' = closedChans w /\ chanCount w' = chanCount w
              /\ timers w' = timers w /\ exists extra, trace w' = trace w ++ extra) as Hstep.
    { intros errs' H'. apply IH in H' as (-> & -> & -> & -> & -> & -> & -> & extra & ->).
      simpl. repeat split; try done. exists ([EffApply c cfg] ++ extra).
      by rewrite app_assoc. }
    destruct res; by eapply Hstep.
Qed.

(** Under a context that is never done the loop of [rollbackInternal] does
    what [reapplyAll] describes: the same calls in the same order on the
    same system, and it collects an error exactly when a load or a call
    failed. *)
Lemma reapplyLoop_reapplyAll env configs : forall tick errs (w : World),
  let again :=
    reapplyAll (ConfigStore.Load (io env) (configManager w) (active w))
      (applierRegistry (mgr w)) configs (sys w) in
  exists errs' w',
    reapplyLoop env Background tick configs errs w = (Some (errs ++ errs'), w')
    /\ someFailed again = match errs' with [] => false | _ :: _ => true end
    /\ sys w' = sysAfter again
    /\ trace w' = trace w ++ applyCalls again.
Proof.
  induction configs as [|c more IH]; intros tick errs w; simpl.
  - exists [], w. by rewrite !app_nil_r.
  - destruct (applierRegistry (mgr w) !! c) as [applier|]; [|by apply IH].
    destruct (ConfigStore.Load _ _ _ _) as [cfg|e].
    + destruct (Apply applier cfg (sys w)) as [[msg|] sys'] eqn:Happly; simpl.
      * destruct (IH (S tick) (errs ++ [ReApplyFailed c msg])
                    (emit [EffApply c cfg] (withSys sys' w)))
          as (errs' & w' & -> & _ & Hsys & Htrace).
        exists (ReApplyFailed c msg :: errs'), w'. simpl in *.
        rewrite <- app_assoc. repeat split; try done. by rewrite Htrace, <- app_assoc.
      * destruct (IH (S tick) errs (emit [EffApply c cfg] (withSys sys' w)))
          as (errs' & w' & -> & Hfailed & Hsys & Htrace).
        exists errs', w'. simpl in *.
        repeat split; try done. by rewrite Htrace, <- app_assoc.
    + destruct (IH (S tick) (errs ++ [ReLoadFailed c e]) w)
        as (errs' & w' & -> & _ & Hsys & Htrace).
      exists (ReLoadFailed c e :: errs'), w'. simpl.
      rewrite <- app_assoc. repeat split; done.
Qed.

(** What [rollbackInternal] does under a context that is never done when
    the manager remembers the snapshot [snap].  It publishes the start of
    the rollback and restores the snapshot.  When the restore fails it
    returns: the state is as before and no applier is called.  When the
    restore succeeds the files of the snapshot are back, the configurations
    are applied again as [reapplyAll] describes, and the state is
    [StateFailed] when a load or a call failed and [StateIdle] when none
    did. *)
Lemma rollbackInternal_run env (w : World) snap :
  currentSnapshot (mgr w) = Some snap ->
  let w2 := (rollbackInternal sha256hex env Background 0 w).2 in
  timers w2 = timers w
  /\ snapshots w2 = snapshots w
  /\ match SnapshotStore.Restore sha256hex (io env) (snapshots w) (active w)
             (SnapshotStore.SnapID snap) with
     | (Err _, active') =>
         GetState w2 = GetState w
         /\ currentSnapshot (mgr w2) = Some snap
         /\ active w2 = active'
         /\ sys w2 = sys w
         /\ trace w2 = trace w ++ [EffPublish EventRollbackStarted]
     | (Ok _, active') =>
         let again :=
           reapplyAll (ConfigStore.Load (io env) (configManager w) active')
             (applierRegistry (mgr w))
             (SnapshotStore.Configs (SnapshotStore.SnapMetadata snap)) (sys w) in
         active w2 = active'
         /\ (exists loaded,
               SnapshotStore.Load (io env) (snapshots w) (SnapshotStore.SnapID snap)
               = Ok loaded
               /\ forall name,
                    name ∈ SnapshotStore.Configs (SnapshotStore.SnapMetadata loaded) ->
                    active w2 !! name
                    = SnapshotStore.snapFiles (snapshots w) (SnapshotStore.SnapID snap)
                        !! name)
         /\ sys w2 = sysAfter again
         /\ if someFailed again
            then GetState w2 = StateFailed
                 /\ currentSnapshot (mgr w2) = Some snap
                 /\ trace w2
                    = trace w ++ EffPublish EventRollbackStarted :: applyCalls again
            else GetState w2 = StateIdle
                 /\ currentSnapshot (mgr w2) = None
                 /\ exists extra,
                      trace w2
                      = trace w ++ EffPublish EventRollbackStarted :: applyCalls again
                          ++ extra ++ [EffPublish EventConfigReverted]
                      /\ (extra = []
                          \/ exists r,
                               extra = [EffDbUpdate r; EffAudit "transaction.rollback" true])
     end.
Proof.
  intros Hsnap. unfold rollbackInternal. rewrite Hsnap. cbv zeta.
  change (snapshots (publish EventRollbackStarted w)) with (snapshots w).
  change (active (publish EventRollbackStarted w)) with (active w).
  destruct (SnapshotStore.Restore _ _ _ _ _) as [[[]|e] active'] eqn:HR.
  2:{ simpl. by rewrite Hsnap. }
  apply Restore_ok in HR as (loaded & HL & Hin & _).
  match goal with |- context [reapplyLoop ?e ?c ?t ?cs ?es ?x] =>
    destruct (reapplyLoop_reapplyAll e cs t es x)
      as (errs' & w4 & Hloop & Hfailed & Hsys & Htrace);
    pose proof (reapplyLoop_frame _ _ _ _ _ _ _ _ Hloop)
      as (Hm & Hcm & Hact & Hsn & Hcl & Hcc & Htm & _)
  end.
  rewrite Hloop. clear Hloop.
  simpl in Hfailed, Hsys, Htrace, Hm, Hcm, Hact, Hsn, Htm.
  rewrite Hfailed. destruct errs' as [|e es]; simpl.
  - unfold GetState, publish, emit. simpl.
    match goal with |- context [updateTxRecord ?e ?f ?a ?x] =>
      destruct (updateTxRecord_frame e f a x) as (Hs & Hc & _ & Ha & Hn & _);
      assert (timers (updateTxRecord e f a x) = timers x
              /\ sys (updateTxRecord e f a x) = sys x
              /\ exists extra,
                   trace (updateTxRecord e f a x) = trace x ++ extra
                   /\ (extra = []
                       \/ exists r,
                            extra = [EffDbUpdate r; EffAudit "transaction.rollback" true]))
        as (Ht & Hy & extra & Hx & Hextra)
    end.
    { unfold updateTxRecord. destruct (dbOpen env).
      - destruct (currentTxRecord _) as [r|]; simpl.
        + repeat split. eexists. split; [reflexivity|]. right. by eexists.
        + repeat split. exists []. split; [by rewrite app_nil_r | by left].
      - repeat split. exists []. split; [by rewrite app_nil_r | by left]. }
    rewrite Hs, Hc, Ha, Hn, Ht, Hy, Hx. simpl.
    rewrite Hsn, Htm, Hact, Hsys, Htrace. simpl.
    repeat split; try done.
    + exists loaded. split; [done|]. intros name Hname. by apply Hin.
    + exists extra. split; [|done]. by rewrite <- !app_assoc.
  - unfold GetState. simpl. rewrite Hsn, Htm, Hact, Hsys, Htrace, Hm. simpl.
    repeat split; try done.
    + exists loaded. split; [done|]. intros name Hname. by apply Hin.
    + by rewrite <- app_assoc.
Qed.


(** C2. [Commit] on an engine that is not idle returns the busy error and
    leaves the whole world as it was: the manager, the staging overlay, both
    directories, the running system, the events published, the database
    rows and applier calls recorded, and the timers. *)
Theorem commit_busy_no_effect (env : Env) (message : string)
    (confirmTimeout overallTimeout : Z) (w : World) :
  GetState w <> StateIdle ->
  Commit sha256hex env message confirmTimeout overallTimeout w
  = (Err (ErrBusy (GetState w)), w).
Proof.
  intros H. unfold Commit, GetState in *. by rewrite bool_decide_eq_false_2.
Qed.

(** The state in which a successful [Commit] leaves the engine. *)
Lemma commit_ok_state env message confirmTimeout overallTimeout (w w' : World) :
  Commit sha256hex env message confirmTimeout overallTimeout w = (Ok tt, w') ->
  GetState w' = if (0 <? confirmTimeout)%Z then StatePending else StateCompleted.
Proof.
  unfold Commit. cbv zeta.
  destruct (negb (bool_decide (state (mgr w) = StateIdle))); [discriminate|].
  destruct (negb (ConfigStore.HasChanges (configManager w))); [discriminate|].
  match goal with |- context [SnapshotStore.Create ?a ?b ?c ?d ?e ?f ?g ?h ?i] =>
    destruct (SnapshotStore.Create a b c d e f g h i) as [[snapshot|e1] snaps] end;
    [|discriminate].
  match goal with |- context [ConfigStore.Commit ?a ?b ?c] =>
    destruct (ConfigStore.Commit a b c) as [[[[]|e2] cm] act] end; [|discriminate].
  match goal with |- context [applyLoop ?h ?a ?b ?c ?d ?e ?f] =>
    destruct (applyLoop h a b c d e f) as [[e3|] w4] end; [discriminate|].
  destruct (0 <? confirmTimeout)%Z.
  - intros H. injection H as <-. reflexivity.
  - intros H. injection H as <-. unfold GetState, publish, emit. simpl.
    by destruct (updateTxRecord_frame env (setStatus "completed")
                   [EffAudit "transaction.commit" true]
                   (withMgr (setState StateCompleted) w4)) as (-> & _).
Qed.

(** C4, as the code has it. When [Commit] with no confirmation window and
    no overall timeout returns without error, the state of the engine is
    [StateCompleted]. *)
Theorem commit_without_confirmation_ends_completed (env : Env) (message : string)
    (w w' : World) :
  Commit sha256hex env message 0 0 w = (Ok tt, w') ->
  GetState w' = StateCompleted.
Proof. intros H. by rewrite (commit_ok_state _ _ _ _ _ _ H). Qed.

(** A step of a timer goroutine changes nothing a caller can observe while
    the engine is not pending. *)
Lemma timerStep_not_pending (w w' : World) :
  GetState w <> StatePending ->
  timerStep sha256hex w w' ->
  withoutTimers w' = withoutTimers w.
Proof.
  intros Hst Hstep. unfold GetState in Hst.
  destruct Hstep as [i w w' H | i w w' H | env i w w' H].
  - unfold timerExpire in H. destruct (timers w !! i) as [t|]; [|discriminate].
    destruct (expired t); [discriminate|]. by injection H as <-.
  - unfold timerCancel in H. destruct (timers w !! i) as [t|]; [|discriminate].
    destruct (_ && _); [|discriminate]. by injection H as <-.
  - unfold timerRun in H. destruct (timers w !! i) as [t|]; [|discriminate].
    destruct (expired t); [|discriminate].
    rewrite bool_decide_eq_false_2 in H by done. by injection H as <-.
Qed.

Lemma timerSteps_not_pending (w w' : World) :
  GetState w <> StatePending ->
  rtc (timerStep sha256hex) w w' ->
  withoutTimers w' = withoutTimers w.
Proof.
  intros Hst Hsteps. induction Hsteps as [w | w w1 w2 Hstep Hsteps IH]; [done|].
  pose proof (timerStep_not_pending _ _ Hst Hstep) as H1.
  rewrite IH; [done|].
  unfold GetState in *. replace (mgr w1) with (mgr (withoutTimers w1)) by done.
  by rewrite H1.
Qed.

Lemma updateTxRecord_timers env f audit (w : World) :
  timers (updateTxRecord env f audit w) = timers w
  /\ closedChans (updateTxRecord env f audit w) = closedChans w.
Proof.
  unfold updateTxRecord. destruct (dbOpen env); [|done].
  by destruct (currentTxRecord (mgr w)).
Qed.

(** [Confirm] in state [StatePending] cannot fail; it closes the cancel
    channel of the manager and leaves the timer goroutines to themselves. *)
Lemma confirm_pending env (w : World) :
  GetState w = StatePending ->
  exists w',
    Confirm env w = (Ok tt, w')
    /\ GetState w' = StateCompleted
    /\ timers w' = timers w
    /\ forall ch, confirmCancelCh (mgr w) = Some ch -> ch ∈ closedChans w'.
Proof.
  intros Hst. unfold Confirm, GetState in *.
  rewrite bool_decide_eq_true_2 by done. simpl. eexists. split; [reflexivity|].
  unfold publish, emit. simpl.
  match goal with |- context [updateTxRecord ?e ?f ?a ?x] =>
    destruct (updateTxRecord_frame e f a x) as (-> & _);
    destruct (updateTxRecord_timers e f a x) as (-> & ->) end.
  destruct (confirmCancelCh (mgr w)) as [ch|]; simpl.
  - repeat split; try done. intros ch' [= <-]. set_solver.
  - repeat split; done.
Qed.

(** The rollback succeeds when the restore succeeds and, for every
    configuration of the snapshot with a registered applier, the restored
    configuration loads and the applier applies it without error. *)
Lemma reapplyLoop_all_ok env ctx configs : forall tick errs (w : World),
  (forall tick', ctx tick' = false) ->
  (forall name applier,
      name ∈ configs -> applierRegistry (mgr w) !! name = Some applier ->
      is_ok (ConfigStore.Load (io env) (configManager w) (active w) name) = true
      /\ forall cfg s, (Apply applier cfg s).1 = None) ->
  exists w', reapplyLoop env ctx tick configs errs w = (Some errs, w').
Proof.
  induction configs as [|c more IH]; intros tick errs w Hctx Hok; simpl; [eauto|].
  rewrite Hctx.
  assert (forall name applier,
             name ∈ more -> applierRegistry (mgr w) !! name = Some applier ->
             is_ok (ConfigStore.Load (io env) (configManager w) (active w) name) = true
             /\ forall cfg s, (Apply applier cfg s).1 = None) as Hmore.
  { intros name applier Hin. apply Hok. by apply list_elem_of_further. }
  destruct (applierRegistry (mgr w) !! c) as [applier|] eqn:Hreg; [|by apply IH].
  destruct (Hok c applier (list_elem_of_here _ _) Hreg) as [Hload Happly].
  destruct (ConfigStore.Load _ _ _ _) as [cfg|e]; [|discriminate].
  specialize (Happly cfg (sys w)).
  destruct (Apply applier cfg (sys w)) as [res sys']. simpl in Happly. subst res.
  by apply IH.
Qed.

Lemma rollbackInternal_succeeds env (w : World) snap active' :
  currentSnapshot (mgr w) = Some snap ->
  SnapshotStore.Restore sha256hex (io env) (snapshots w) (active w)
    (SnapshotStore.SnapID snap) = (Ok tt, active') ->
  (forall name applier,
      name ∈ SnapshotStore.Configs (SnapshotStore.SnapMetadata snap) ->
      applierRegistry (mgr w) !! name = Some applier ->
      is_ok (ConfigStore.Load (io env) (configManager w) active' name) = true
      /\ forall cfg s, (Apply applier cfg s).1 = None) ->
  (rollbackInternal sha256hex env Background 0 w).1 = Ok tt.
Proof.
  intros Hsnap HR Hok. unfold rollbackInternal. rewrite Hsnap. simpl. rewrite HR.
  match goal with |- context [reapplyLoop ?e ?c ?t ?cs ?es ?x] =>
    destruct (reapplyLoop_all_ok e c cs t es x) as [w4 ->] end; done.
Qed.

(** What can happen in state [StatePending] with the snapshot [snap]
    remembered.  Every confirmation timer that has not expired can expire
    and run; its goroutine is then gone and it has performed
    [rollbackInternal], whose error it drops: the engine stays pending when
    the restore failed, and is failed or idle after the re-application.
    And [Confirm] succeeds, closes the cancel channel, and leaves the timer
    goroutines nothing to do. *)
Lemma pending_timer_or_confirm (env : Env) (w : World) (snap : SnapshotStore.Snapshot) :
  GetState w = StatePending ->
  currentSnapshot (mgr w) = Some snap ->
  (forall i t, timers w !! i = Some t -> expired t = false ->
     exists w1 w2,
       timerExpire i w = Some w1
       /\ timerRun sha256hex env i w1 = Some w2
       /\ timers w2 = delete i (timers w)
       /\ match SnapshotStore.Restore sha256hex (io env) (snapshots w) (active w)
                  (SnapshotStore.SnapID snap) with
          | (Err _, active') =>
              GetState w2 = StatePending
              /\ currentSnapshot (mgr w2) = Some snap
              /\ active w2 = active'
              /\ sys w2 = sys w
              /\ trace w2 = trace w ++ [EffPublish EventRollbackStarted]
          | (Ok _, active') =>
              let again :=
                reapplyAll (ConfigStore.Load (io env) (configManager w) active')
                  (applierRegistry (mgr w))
                  (SnapshotStore.Configs (SnapshotStore.SnapMetadata snap)) (sys w) in
              active w2 = active'
              /\ (exists loaded,
                    SnapshotStore.Load (io env) (snapshots w)
                      (SnapshotStore.SnapID snap) = Ok loaded
                    /\ forall name,
                         name ∈ SnapshotStore.Configs
                                  (SnapshotStore.SnapMetadata loaded) ->
                         active w2 !! name
                         = SnapshotStore.snapFiles (snapshots w)
                             (SnapshotStore.SnapID snap) !! name)
              /\ sys w2 = sysAfter again
              /\ if someFailed again
                 then GetState w2 = StateFailed
                      /\ currentSnapshot (mgr w2) = Some snap
                      /\ trace w2
                         = trace w
                             ++ EffPublish EventRollbackStarted :: applyCalls again
                 else GetState w2 = StateIdle
                      /\ currentSnapshot (mgr w2) = None
                      /\ exists extra,
                           trace w2
                           = trace w
                               ++ EffPublish EventRollbackStarted :: applyCalls again
                               ++ extra ++ [EffPublish EventConfigReverted]
                           /\ (extra = []
                               \/ exists r,
                                    extra = [EffDbUpdate r;
                                             EffAudit "transaction.rollback" true])
          end)
  /\ (forall env', exists w',
        Confirm env' w = (Ok tt, w')
        /\ GetState w' = StateCompleted
        /\ (forall i t ch,
              confirmCancelCh (mgr w) = Some ch -> timers w !! i = Some t ->
              cancelCh t = ch -> expired t = false ->
              timerCancel i w' = Some (removeTimer i w'))
        /\ forall w'', rtc (timerStep sha256hex) w' w'' ->
                       withoutTimers w'' = withoutTimers w').
Proof.
  intros Hst Hsnap. split.
  - intros i t Ht Hexp.
    unfold timerExpire. rewrite Ht, Hexp.
    eexists. eexists. split; [reflexivity|].
    unfold timerRun. simpl.
    rewrite list_lookup_insert_eq by (by eapply lookup_lt_Some). simpl.
    assert (removeTimer i
              (withTimers (closedChans w) (chanCount w)
                 (<[i:={| cancelCh := cancelCh t; expired := true |}]> (timers w)) w)
            = removeTimer i w) as ->.
    { unfold removeTimer. simpl. by rewrite list_delete_insert. }
    assert (state (mgr (removeTimer i w)) = StatePending) as Hst' by done.
    rewrite bool_decide_eq_true_2 by done.
    split; [reflexivity|].
    pose proof (rollbackInternal_run env (removeTimer i w) snap Hsnap) as H.
    cbv zeta in H. simpl in H. destruct H as (Htm & _ & H).
    split; [exact Htm|].
    destruct (SnapshotStore.Restore _ _ _ _ _) as [[[]|e] active']; [exact H|].
    destruct H as (H1 & H). split; [|exact H]. by rewrite H1.
  - intros env'. destruct (confirm_pending env' w Hst) as (w' & HC & Hst' & Htm & Hch).
    exists w'. split; [done|]. split; [done|]. split.
    + intros i t ch Hcur Ht <- Hexp. unfold timerCancel.
      rewrite Htm, Ht, Hexp. simpl.
      by rewrite bool_decide_eq_true_2 by (by apply Hch).
    + intros w'' Hsteps. apply timerSteps_not_pending; [|done]. by rewrite Hst'.
Qed.

(** A run of the loop of [Commit] without failure touches only the running
    system and the record of effects. *)
Lemma applyLoop_ok_frame env ctx changed order : forall tick (w w' : World),
  applyLoop sha256hex env ctx tick changed order w = (None, w') ->
  mgr w' = mgr w /\ timers w' = timers w /\ chanCount w' = chanCount w
  /\ closedChans w' = closedChans w.
Proof.
  induction order as [|name more IH]; intros tick w w' H; simpl in H.
  - by injection H as <-.
  - destruct (ctx tick); [discriminate|].
    destruct (negb _); [by eapply IH|].
    destruct (applierRegistry (mgr w) !! name) as [applier|]; [|by eapply IH].
    destruct (ConfigStore.Load _ _ _ _) as [cfg|e]; [|discriminate].
    destruct (Apply applier cfg (sys w)) as [[msg|] sys1]; [discriminate|].
    simpl in H.
    destruct (Validate applier sys1) as [[msg|] sys2]; [discriminate|].
    by apply IH in H.
Qed.

(** A successful [Commit] with a confirmation window leaves the engine
    pending, with the snapshot remembered and a fresh timer armed on the
    cancel channel of the manager. *)
Lemma commit_arms_timer env message confirmTimeout overallTimeout (w w' : World) :
  (0 < confirmTimeout)%Z ->
  Commit sha256hex env message confirmTimeout overallTimeout w = (Ok tt, w') ->
  GetState w' = StatePending
  /\ exists snap ch earlier,
       currentSnapshot (mgr w') = Some snap
       /\ confirmCancelCh (mgr w') = Some ch
       /\ timers w' = earlier ++ [{| cancelCh := ch; expired := false |}].
Proof.
  intros HT. unfold Commit. cbv zeta.
  destruct (negb (bool_decide (state (mgr w) = StateIdle))); [discriminate|].
  destruct (negb (ConfigStore.HasChanges (configManager w))); [discriminate|].
  match goal with |- context [SnapshotStore.Create ?a ?b ?c ?d ?e ?f ?g ?h ?i] =>
    destruct (SnapshotStore.Create a b c d e f g h i) as [[snapshot|e1] snaps] end;
    [|discriminate].
  match goal with |- context [ConfigStore.Commit ?a ?b ?c] =>
    destruct (ConfigStore.Commit a b c) as [[[[]|e2] cm] act] end; [|discriminate].
  match goal with |- context [applyLoop ?h ?a ?b ?c ?d ?e ?f] =>
    destruct (applyLoop h a b c d e f) as [[e3|] w4] eqn:Hloop end; [discriminate|].
  apply applyLoop_ok_frame in Hloop as (Hm & Htm & _ & _).
  rewrite (proj2 (Z.ltb_lt 0 confirmTimeout) HT).
  intros H. injection H as <-. split; [reflexivity|].
  exists snapshot, (chanCount w4), (timers w4). simpl. rewrite Hm. simpl.
  repeat split.
  match goal with |- context [updateTxRecord ?e ?f ?a ?x] =>
    by destruct (updateTxRecord_frame e f a x) as (_ & -> & _) end.
Qed.


End Engine.

Lemma commit_busy_no_effect_witness :
  GetState afterCommit <> StateIdle
  /\ @Commit canonical_range SnapshotSpec.mergeSortSlice nat SnapshotSpec.toyChecksum
       exampleEnv "again" 0 0 afterCommit
     = (Err (ErrBusy (GetState afterCommit)), afterCommit).
Proof.
  assert (GetState afterCommit <> StateIdle) as H by (vm_compute; discriminate).
  split; [exact H|].
  exact (@commit_busy_no_effect canonical_range SnapshotSpec.mergeSortSlice nat
           SnapshotSpec.toyChecksum exampleEnv "again" 0 0 afterCommit H).
Defined.

Lemma commit_without_confirmation_ends_completed_witness :
  GetState afterCommit = StateCompleted.
Proof.
  apply (@commit_without_confirmation_ends_completed canonical_range
           SnapshotSpec.mergeSortSlice nat SnapshotSpec.toyChecksum
           exampleEnv "msg" (stagedWorld okApplier "192.168.1.100")).
  unfold afterCommit.
  rewrite (surjective_pairing (Commit _ _ _ _ _ _)) at 1.
  apply pair_equal_spec. split; [vm_compute; reflexivity | reflexivity].
Defined.

(** C4 as stated fails: after the successful commit of scenario E1 with no
    confirmation window and no overall timeout the state is not
    [StateIdle], and a commit of a further staged change is refused. *)
Lemma commit_without_confirmation_not_idle :
  (@Commit canonical_range SnapshotSpec.mergeSortSlice nat SnapshotSpec.toyChecksum
     exampleEnv "msg" 0 0 (stagedWorld okApplier "192.168.1.100")).1 = Ok tt
  /\ GetState afterCommit <> StateIdle
  /\ (@Commit canonical_range SnapshotSpec.mergeSortSlice nat SnapshotSpec.toyChecksum
        exampleEnv "next" 0 0
        (withDisk
           (ConfigStore.Set_ noFaults (configManager afterCommit) (active afterCommit)
              "network.wan.ipaddr" "192.168.1.101").2
           (active afterCommit) (snapshots afterCommit) afterCommit)).1
     = Err (ErrBusy StateCompleted).
Proof.
  split; [vm_compute; reflexivity|].
  split; [vm_compute; discriminate | vm_compute; reflexivity].
Qed.


(** The timer can also leave the engine pending: in the pending world of
    scenario E2, on a disk on which no file can be copied, the restore
    fails, the timer drops the error, and its goroutine is gone while the
    state is still [StatePending] and the changed file is still active. *)
Example timer_rollback_can_stay_pending :
  match timerExpire 0 (pendingWorld okApplier) with
  | Some w1 =>
      match @timerRun SnapshotSpec.mergeSortSlice nat SnapshotSpec.toyChecksum
              noCopyEnv 0 w1 with
      | Some w2 =>
          GetState w2 = StatePending
          /\ timers w2 = []
          /\ sys w2 = sys (pendingWorld okApplier)
          /\ active w2 = active (pendingWorld okApplier)
      | None => False
      end
  | None => False
  end.
Proof. vm_compute. repeat split; reflexivity. Qed.


End TransactionProps.

Module UciEmitProps.
Import GoStrings Uci UciSpec UciEmitSpec.

Lemma app_cons_s (x : ascii) (a b : string) : String x a +:+ b = String x (a +:+ b).
Proof. reflexivity. Qed.

Lemma app_assoc_s (a b c : string) : (a +:+ b) +:+ c = a +:+ (b +:+ c).
Proof. induction a as [|x a IH]; [reflexivity|]. by rewrite !app_cons_s, IH. Qed.

Lemma app_nil_r_s (a : string) : a +:+ "" = a.
Proof. induction a as [|x a IH]; [reflexivity|]. by rewrite app_cons_s, IH. Qed.

Lemma length_app_s (a b : string) :
  String.length (a +:+ b) = (String.length a + String.length b)%nat.
Proof. induction a as [|x a IH]; [reflexivity|]. rewrite app_cons_s. simpl. by rewrite IH. Qed.

Lemma snoc_app (cur : string) (c : ascii) (r : string) :
  snoc cur c +:+ r = cur +:+ String c r.
Proof. unfold snoc. by rewrite app_assoc_s. Qed.

Lemma concat_cons_s (a : string) (l : list string) :
  String.concat "" (a :: l) = a +:+ String.concat "" l.
Proof. destruct l; simpl; [by rewrite app_nil_r_s | reflexivity]. Qed.

Lemma concat_app_s (l1 l2 : list string) :
  String.concat "" (l1 ++ l2) = String.concat "" l1 +:+ String.concat "" l2.
Proof.
  induction l1 as [|a l1 IH]; [reflexivity|].
  rewrite <- app_comm_cons, !concat_cons_s, IH. by rewrite app_assoc_s.
Qed.

(** *** The scanner on the emitted text *)

Lemma scanFrom_line (l rest : string) : forall cur,
  noLF l = true ->
  Bufio.scanFrom (l +:+ String LF rest) cur
  = if Bufio.tooLong (cur +:+ l) then ([], true)
    else let '(ls, e) := Bufio.scanFrom rest "" in (Bufio.dropCR (cur +:+ l) :: ls, e).
Proof.
  induction l as [|c l IH]; intros cur Hl.
  - rewrite app_nil_r_s. reflexivity.
  - simpl in Hl. apply andb_prop in Hl as [Hc Hl].
    rewrite app_cons_s. simpl. apply negb_true_iff in Hc. rewrite Hc.
    rewrite IH by exact Hl. by rewrite snoc_app.
Qed.

Lemma scanLines_joinLines (ls : list string) :
  Forall lineOk ls -> Bufio.scanLines (joinLines ls) = (ls, false).
Proof.
  unfold Bufio.scanLines, joinLines.
  induction 1 as [|l ls (Hlf & Hlen & Hcr) _ IH]; [reflexivity|].
  rewrite map_cons, concat_cons_s, app_assoc_s.
  change (nl +:+ ?r) with (String LF r).
  rewrite scanFrom_line by exact Hlf. simpl.
  change ("" +:+ l) with l. by rewrite Hlen, IH, Hcr.
Qed.

Lemma allChars_app p (a b : string) :
  allChars p (a +:+ b) = allChars p a && allChars p b.
Proof.
  induction a as [|c a IH]; [reflexivity|].
  rewrite app_cons_s. simpl. by rewrite IH, andb_assoc.
Qed.

Lemma allChars_impl (p q : ascii -> bool) (s : string) :
  (forall c, p c = true -> q c = true) -> allChars p s = true -> allChars q s = true.
Proof.
  intros Hpq. induction s as [|c s IH]; [done|]. simpl.
  intros [Hc Hs]%andb_prop. by rewrite (Hpq _ Hc), IH.
Qed.

Lemma dropCR_app (a b : string) :
  b <> "" -> Bufio.dropCR (a +:+ b) = a +:+ Bufio.dropCR b.
Proof.
  intros Hb. induction a as [|c a IH]; [reflexivity|].
  rewrite !app_cons_s. simpl. rewrite IH.
  destruct (a +:+ b) eqn:E; [|reflexivity].
  destruct a; [|discriminate E]. by destruct b.
Qed.

Lemma dropCR_bare (t : string) :
  allChars (fun c => negb (isSpace c)) t = true -> Bufio.dropCR t = t.
Proof.
  induction t as [|c t IH]; [done|]. simpl. intros [Hc Ht]%andb_prop.
  destruct t as [|c' t].
  - destruct (Ascii.eqb_spec c CR) as [->|]; [discriminate Hc | reflexivity].
  - by rewrite IH.
Qed.

(** *** Trimming the emitted lines *)

Lemma TrimRight_app (a b : string) :
  b <> "" -> TrimRight b = b -> TrimRight (a +:+ b) = a +:+ b.
Proof.
  intros Hb Hfix. induction a as [|c a IH]; [exact Hfix|].
  rewrite app_cons_s. simpl. rewrite IH.
  destruct (String.eqb_spec (a +:+ b) "") as [E|_].
  - destruct a; [by destruct b | discriminate E].
  - by rewrite andb_false_r.
Qed.

Lemma TrimRight_bare (t : string) :
  allChars (fun c => negb (isSpace c)) t = true -> TrimRight t = t.
Proof.
  induction t as [|c t IH]; [done|]. simpl. intros [Hc Ht]%andb_prop.
  rewrite IH by exact Ht. apply negb_true_iff in Hc. by rewrite Hc.
Qed.

(** *** The tokens of the emitted lines *)

Lemma parseQuotedLoop_quoted (s rest : string) : forall parts cur,
  allChars (fun c => negb (Ascii.eqb c SQUOTE)) s = true ->
  parseQuotedLoop (s +:+ String SQUOTE rest) parts cur true SQUOTE
  = parseQuotedLoop rest (parts ++ [cur +:+ s]) "" false zero.
Proof.
  induction s as [|c s IH]; intros parts cur Hs.
  - by rewrite app_nil_r_s.
  - simpl in Hs. apply andb_prop in Hs as [Hc Hs]. apply negb_true_iff in Hc.
    rewrite app_cons_s. simpl. rewrite Hc. simpl.
    rewrite IH by exact Hs. by rewrite snoc_app.
Qed.

Lemma parseQuotedLoop_bare (t rest : string) : forall parts cur q,
  allChars bareChar t = true ->
  parseQuotedLoop (t +:+ rest) parts cur false q
  = parseQuotedLoop rest parts (cur +:+ t) false q.
Proof.
  induction t as [|c t IH]; intros parts cur q Ht.
  - by rewrite app_nil_r_s.
  - simpl in Ht. apply andb_prop in Ht as [Hc Ht].
    unfold bareChar in Hc. apply andb_prop in Hc as [[Hsp Hsq]%andb_prop Hdq].
    apply negb_true_iff in Hsp, Hsq, Hdq.
    rewrite app_cons_s. simpl. rewrite Hsq, Hdq. simpl.
    assert (Ascii.eqb c " " || Ascii.eqb c TAB = false) as ->.
    { destruct (Ascii.eqb_spec c " ") as [->|]; [discriminate Hsp|].
      destruct (Ascii.eqb_spec c TAB) as [->|]; [discriminate Hsp | reflexivity]. }
    rewrite IH by exact Ht. by rewrite snoc_app.
Qed.

Lemma quotable_noSQ (s : string) : quotable s = true -> noSQ s = true.
Proof. apply allChars_impl. by intros c [? ?]%andb_prop. Qed.

Lemma quotable_noLF (s : string) : quotable s = true -> noLF s = true.
Proof. apply allChars_impl. by intros c [? ?]%andb_prop. Qed.

Lemma escapeQuotes_id (v : string) : noSQ v = true -> escapeQuotes v = v.
Proof.
  unfold escapeQuotes. induction v as [|c v IH]; [done|]. simpl.
  intros [Hc Hv]%andb_prop. apply negb_true_iff in Hc. by rewrite Hc, IH.
Qed.

Lemma tokens_two (k v : string) :
  noSQ k = true -> noSQ v = true ->
  parseQuotedLine ("'" +:+ k +:+ "' '" +:+ v +:+ "'") = [k; v].
Proof.
  intros Hk Hv. unfold parseQuotedLine.
  change ("'" +:+ k +:+ "' '" +:+ v +:+ "'")
    with (String SQUOTE (k +:+ String SQUOTE (String " " (String SQUOTE (v +:+ String SQUOTE ""))))).
  simpl. rewrite parseQuotedLoop_quoted by exact Hk. simpl.
  rewrite parseQuotedLoop_quoted by exact Hv. reflexivity.
Qed.

Lemma TrimRight_quote (a : string) : TrimRight (a +:+ "'") = a +:+ "'".
Proof. by apply TrimRight_app. Qed.

Lemma trim_optionLine (k v : string) :
  TrimSpace (optionLine (k, v)) = "option '" +:+ k +:+ "' '" +:+ escapeQuotes v +:+ "'".
Proof.
  unfold TrimSpace, optionLine. simpl fst. simpl snd.
  change (TrimLeft (tabStr +:+ "option '" +:+ ?x)) with ("option '" +:+ x).
  rewrite <- !app_assoc_s. rewrite TrimRight_quote. reflexivity.
Qed.

Lemma trim_listLine (k v : string) :
  TrimSpace (listLine k v) = "list '" +:+ k +:+ "' '" +:+ escapeQuotes v +:+ "'".
Proof.
  unfold TrimSpace, listLine.
  change (TrimLeft (tabStr +:+ "list '" +:+ ?x)) with ("list '" +:+ x).
  rewrite <- !app_assoc_s. rewrite TrimRight_quote. reflexivity.
Qed.

Lemma classify_optionLine (k v : string) :
  quotable k = true -> quotable v = true -> classify (optionLine (k, v)) = KOption k v.
Proof.
  intros Hk%quotable_noSQ Hv%quotable_noSQ. unfold classify.
  rewrite trim_optionLine, (escapeQuotes_id v Hv).
  change (skip 7 ("option '" +:+ ?x)) with ("'" +:+ x).
  change (String.eqb ("option '" +:+ ?x) "" || HasPrefix ("option '" +:+ ?x) "#") with false.
  change (HasPrefix ("option '" +:+ ?x) "config ") with false.
  change (HasPrefix ("option '" +:+ ?x) "option ") with true.
  cbv iota. by rewrite tokens_two.
Qed.

Lemma classify_listLine (k v : string) :
  quotable k = true -> quotable v = true -> classify (listLine k v) = KList k v.
Proof.
  intros Hk%quotable_noSQ Hv%quotable_noSQ. unfold classify.
  rewrite trim_listLine, (escapeQuotes_id v Hv).
  change (skip 5 ("list '" +:+ ?x)) with ("'" +:+ x).
  change (String.eqb ("list '" +:+ ?x) "" || HasPrefix ("list '" +:+ ?x) "#") with false.
  change (HasPrefix ("list '" +:+ ?x) "config ") with false.
  change (HasPrefix ("list '" +:+ ?x) "option ") with false.
  change (HasPrefix ("list '" +:+ ?x) "list ") with true.
  cbv iota. by rewrite tokens_two.
Qed.

Lemma bareWord_chars (t : string) :
  bareWord t = true -> t <> "" /\ allChars bareChar t = true.
Proof.
  unfold bareWord. intros [Hne Hall]%andb_prop. split; [|exact Hall].
  intros ->. discriminate Hne.
Qed.

Lemma bareChar_nonspace (t : string) :
  allChars bareChar t = true -> allChars (fun c => negb (isSpace c)) t = true.
Proof.
  apply allChars_impl. unfold bareChar. by intros c [[? ?]%andb_prop ?]%andb_prop.
Qed.

Lemma HasPrefix_config (t : string) :
  t <> "" -> HasPrefix ("config " +:+ t) "config " = true.
Proof. by destruct t. Qed.

Lemma classify_headerLine (s : Section) :
  bareWord (Type_ s) = true -> quotable (Name s) = true ->
  classify (headerLine s) = KConfig (Type_ s) (Name s).
Proof.
  intros [Hne Ht]%bareWord_chars Hn%quotable_noSQ. unfold classify, headerLine.
  destruct (String.eqb_spec (Name s) "") as [Hname|Hname].
  - rewrite Hname.
    assert (TrimSpace ("config " +:+ Type_ s) = "config " +:+ Type_ s) as ->.
    { unfold TrimSpace. change (TrimLeft ("config " +:+ ?x)) with ("config " +:+ x).
      apply TrimRight_app; [done|]. by apply TrimRight_bare, bareChar_nonspace. }
    change (skip 7 ("config " +:+ ?x)) with x.
    change (String.eqb ("config " +:+ ?x) "" || HasPrefix ("config " +:+ ?x) "#") with false.
    rewrite HasPrefix_config by exact Hne.
    cbv iota. unfold parseQuotedLine.
    rewrite <- (app_nil_r_s (Type_ s)) at 1.
    rewrite parseQuotedLoop_bare by exact Ht. simpl.
    change ("" +:+ Type_ s) with (Type_ s).
    destruct (String.eqb_spec (Type_ s) ""); [done|reflexivity].
  - assert (TrimSpace ("config " +:+ Type_ s +:+ " '" +:+ Name s +:+ "'")
            = "config " +:+ Type_ s +:+ " '" +:+ Name s +:+ "'") as ->.
    { unfold TrimSpace. change (TrimLeft ("config " +:+ ?x)) with ("config " +:+ x).
      rewrite <- !app_assoc_s. by rewrite TrimRight_quote. }
    change (skip 7 ("config " +:+ ?x)) with x.
    change (String.eqb ("config " +:+ ?x) "" || HasPrefix ("config " +:+ ?x) "#") with false.
    rewrite HasPrefix_config by (by destruct (Type_ s)).
    cbv iota. unfold parseQuotedLine.
    rewrite parseQuotedLoop_bare by exact Ht.
    change (" '" +:+ Name s +:+ "'")
      with (String " " (String SQUOTE (Name s +:+ String SQUOTE ""))).
    simpl. change ("" +:+ Type_ s) with (Type_ s).
    destruct (String.eqb_spec (Type_ s) ""); [done|].
    rewrite parseQuotedLoop_quoted by exact Hn. reflexivity.
Qed.

Lemma classify_blank : classify "" = KSkip.
Proof. reflexivity. Qed.

(** *** The emitted text, line by line *)

Section Emitted.
Context {mr : MapRange}.

Lemma joinLines_app (l1 l2 : list string) :
  joinLines (l1 ++ l2) = joinLines l1 +:+ joinLines l2.
Proof. unfold joinLines. by rewrite map_app, concat_app_s. Qed.

Lemma joinLines_cons (l : string) (ls : list string) :
  joinLines (l :: ls) = l +:+ nl +:+ joinLines ls.
Proof. unfold joinLines. by rewrite map_cons, concat_cons_s, app_assoc_s. Qed.

Lemma writeOption_line (kv : string * string) : writeOption kv = optionLine kv +:+ nl.
Proof. unfold writeOption, optionLine. by rewrite !app_assoc_s. Qed.

Lemma writeListValue_line (k v : string) : writeListValue k v = listLine k v +:+ nl.
Proof. unfold writeListValue, listLine. by rewrite !app_assoc_s. Qed.

Lemma writeHeader_line (s : Section) : writeHeader s = headerLine s +:+ nl.
Proof.
  unfold writeHeader, headerLine. destruct (String.eqb (Name s) ""); by rewrite !app_assoc_s.
Qed.

Lemma writeOptions_lines (kvs : list (string * string)) :
  String.concat "" (List.map writeOption kvs) = joinLines (List.map optionLine kvs).
Proof.
  unfold joinLines. rewrite List.map_map. f_equal. apply List.map_ext, writeOption_line.
Qed.

Lemma writeList_lines (kvs : string * list string) :
  writeList kvs = joinLines (listLines kvs).
Proof.
  unfold writeList, joinLines, listLines. rewrite List.map_map. f_equal.
  apply List.map_ext. intros v. apply writeListValue_line.
Qed.

Lemma writeLists_lines (l : list (string * list string)) :
  String.concat "" (List.map writeList l) = joinLines (List.concat (List.map listLines l)).
Proof.
  induction l as [|kvs l IH]; [reflexivity|].
  rewrite !map_cons, concat_cons_s, IH. simpl List.concat.
  by rewrite joinLines_app, writeList_lines.
Qed.

Lemma writeSection_lines (s : Section) : writeSection s = joinLines (sectionLines s).
Proof.
  unfold writeSection, sectionLines.
  rewrite joinLines_cons, joinLines_app, writeHeader_line, writeOptions_lines, writeLists_lines.
  by rewrite !app_assoc_s.
Qed.

Lemma writeSections_lines (c : Config) : forall first,
  writeSections first c = joinLines (docLines first c).
Proof.
  induction c as [|s c IH]; intros first; [reflexivity|].
  cbn [writeSections docLines]. rewrite !joinLines_app, IH, writeSection_lines.
  by destruct first.
Qed.

(** *** Every emitted line suits the scanner *)

Lemma tooLong_fits (fixed : nat) (a b l : string) :
  fits fixed a b = true ->
  (String.length l <= fixed + String.length a + String.length b)%nat ->
  Bufio.tooLong l = false.
Proof.
  unfold fits, Bufio.tooLong. intros Hf%Z.ltb_lt Hl. apply Z.leb_gt. lia.
Qed.

Lemma bareChar_noLF (t : string) : allChars bareChar t = true -> noLF t = true.
Proof.
  apply allChars_impl. unfold bareChar.
  intros c [[Hsp _]%andb_prop _]%andb_prop.
  destruct (Ascii.eqb_spec c LF) as [->|]; [discriminate Hsp | reflexivity].
Qed.

Lemma lineOk_optionLine (k v : string) :
  quotable k = true -> quotable v = true -> fits 13 k v = true -> lineOk (optionLine (k, v)).
Proof.
  intros Hk Hv Hf. unfold optionLine. simpl fst. simpl snd.
  rewrite (escapeQuotes_id v) by by apply quotable_noSQ.
  apply quotable_noLF in Hk, Hv. split; [|split].
  - unfold noLF in *. rewrite !allChars_app, Hk, Hv. reflexivity.
  - apply (tooLong_fits _ _ _ _ Hf). rewrite !length_app_s. simpl. lia.
  - rewrite <- !app_assoc_s. by rewrite dropCR_app.
Qed.

Lemma lineOk_listLine (k v : string) :
  quotable k = true -> quotable v = true -> fits 11 k v = true -> lineOk (listLine k v).
Proof.
  intros Hk Hv Hf. unfold listLine.
  rewrite (escapeQuotes_id v) by by apply quotable_noSQ.
  apply quotable_noLF in Hk, Hv. split; [|split].
  - unfold noLF in *. rewrite !allChars_app, Hk, Hv. reflexivity.
  - apply (tooLong_fits _ _ _ _ Hf). rewrite !length_app_s. simpl. lia.
  - rewrite <- !app_assoc_s. by rewrite dropCR_app.
Qed.

Lemma lineOk_headerLine (s : Section) :
  bareWord (Type_ s) = true -> quotable (Name s) = true ->
  fits 10 (Type_ s) (Name s) = true -> lineOk (headerLine s).
Proof.
  intros [Hne Ht]%bareWord_chars Hn Hf. unfold headerLine.
  pose proof (bareChar_noLF _ Ht) as Htlf. apply quotable_noLF in Hn.
  destruct (String.eqb (Name s) ""); (split; [|split]).
  - unfold noLF in *. by rewrite allChars_app, Htlf.
  - apply (tooLong_fits _ _ _ _ Hf). rewrite !length_app_s. simpl. lia.
  - rewrite dropCR_app by exact Hne. by rewrite dropCR_bare by by apply bareChar_nonspace.
  - unfold noLF in *. by rewrite !allChars_app, Htlf, Hn.
  - apply (tooLong_fits _ _ _ _ Hf). rewrite !length_app_s. simpl. lia.
  - rewrite <- !app_assoc_s. by rewrite dropCR_app.
Qed.

Lemma lineOk_blank : lineOk "".
Proof. by repeat split. Qed.

End Emitted.

(** *** Reading the emitted lines back *)

Lemma elem_of_range_map `{mr : MapRange} {A} (m : gmap string A) (k : string) (v : A) :
  (k, v) ∈ range_map m <-> m !! k = Some v.
Proof. rewrite range_map_perm. apply elem_of_map_to_list. Qed.

Lemma NoDup_range_map `{mr : MapRange} {A} (m : gmap string A) : NoDup (range_map m).*1.
Proof. rewrite range_map_perm. apply NoDup_fst_map_to_list. Qed.

Lemma foldl_insert_list_to_map {A} (l : list (string * A)) :
  foldl (fun (acc : gmap string A) kv => <[kv.1 := kv.2]> acc) ∅ l = list_to_map (reverse l).
Proof.
  induction l as [|x l IH] using rev_ind; [reflexivity|].
  by rewrite foldl_app, reverse_app, IH.
Qed.

Lemma foldl_insert_range `{mr : MapRange} {A} (m : gmap string A) :
  foldl (fun (acc : gmap string A) kv => <[kv.1 := kv.2]> acc) ∅ (range_map m) = m.
Proof.
  rewrite foldl_insert_list_to_map. symmetry. apply list_to_map_flip.
  by rewrite reverse_Permutation, range_map_perm.
Qed.

Lemma section_eq (s s' : Section) :
  Type_ s = Type_ s' -> Name s = Name s' -> Options s = Options s' -> Lists s = Lists s' ->
  s = s'.
Proof. destruct s, s'. simpl. by intros -> -> -> ->. Qed.

Lemma setOptions_fields (kvs : list (string * string)) : forall s,
  Type_ (setOptions s kvs) = Type_ s /\ Name (setOptions s kvs) = Name s
  /\ Lists (setOptions s kvs) = Lists s
  /\ Options (setOptions s kvs)
     = foldl (fun (acc : gmap string string) kv => <[kv.1 := kv.2]> acc) (Options s) kvs.
Proof.
  induction kvs as [|kv kvs IH]; intros s; [done|].
  simpl. destruct (IH (SetOption s kv.1 kv.2)) as (-> & -> & -> & ->). done.
Qed.

Lemma addList_fields (k : string) (vs : list string) : forall s,
  Type_ (addList s (k, vs)) = Type_ s /\ Name (addList s (k, vs)) = Name s
  /\ Options (addList s (k, vs)) = Options s
  /\ Lists (addList s (k, vs)) = appendList (Lists s) k vs.
Proof.
  unfold addList. simpl. induction vs as [|v vs IH]; intros s; [done|].
  simpl. destruct (IH (AddListValue s k v)) as (-> & -> & -> & ->).
  repeat split. simpl. destruct vs as [|v' vs]; [done|].
  unfold appendList. rewrite lookup_insert_eq. simpl.
  by rewrite insert_insert_eq, <- app_assoc.
Qed.

Lemma addLists_fields (l : list (string * list string)) : forall s,
  Type_ (addLists s l) = Type_ s /\ Name (addLists s l) = Name s
  /\ Options (addLists s l) = Options s
  /\ Lists (addLists s l) = foldl (fun m kvs => appendList m kvs.1 kvs.2) (Lists s) l.
Proof.
  unfold addLists. induction l as [|[k vs] l IH]; intros s; [done|].
  simpl. destruct (IH (addList s (k, vs))) as (-> & -> & -> & ->).
  by destruct (addList_fields k vs s) as (-> & -> & -> & ->).
Qed.

Lemma foldl_appendList_fresh (l : list (string * list string)) :
  forall m : gmap string (list string),
  NoDup l.*1 ->
  Forall (fun kvs => kvs.2 <> [] /\ m !! kvs.1 = None) l ->
  foldl (fun m kvs => appendList m kvs.1 kvs.2) m l
  = foldl (fun (acc : gmap string (list string)) kv => <[kv.1 := kv.2]> acc) m l.
Proof.
  induction l as [|[k vs] l IH]; intros m Hnd Hall; [done|].
  simpl in *. apply NoDup_cons in Hnd as [Hk Hnd].
  apply Forall_cons in Hall as [[Hvs Hfresh] Hall]. simpl in *.
  assert (appendList m k vs = <[k := vs]> m) as ->.
  { unfold appendList. rewrite Hfresh. simpl. by destruct vs. }
  apply IH; [exact Hnd|].
  apply Forall_forall. intros [k' vs'] Hin.
  rewrite Forall_forall in Hall. destruct (Hall _ Hin) as [Hne Hnone]. simpl in *.
  split; [exact Hne|]. rewrite lookup_insert_ne; [exact Hnone|].
  intros <-. apply Hk. by apply (list_elem_of_fmap_2 fst) in Hin.
Qed.

Section Reading.
Context {mr : MapRange}.

Lemma parse_optionLines (kvs : list (string * string)) : forall n c s more,
  Forall (fun kv => quotable kv.1 = true /\ quotable kv.2 = true) kvs ->
  parseLines n {| config := c; currentSection := Some s |} (List.map optionLine kvs ++ more)
  = parseLines (n + List.length kvs)
      {| config := c; currentSection := Some (setOptions s kvs) |} more.
Proof.
  induction kvs as [|[k v] kvs IH]; intros n c s more Hall.
  - simpl. by rewrite Nat.add_0_r.
  - apply Forall_cons in Hall as [[Hk Hv] Hall]. simpl in Hk, Hv.
    cbn [List.map List.app parseLines].
    rewrite UciProps.parseLine_classify, classify_optionLine by assumption.
    cbn [currentSection config]. rewrite IH by exact Hall.
    simpl List.length. by rewrite Nat.add_succ_r.
Qed.

Lemma parse_listLines (k : string) (vs : list string) : forall n c s more,
  quotable k = true -> Forall (fun v => quotable v = true) vs ->
  parseLines n {| config := c; currentSection := Some s |} (listLines (k, vs) ++ more)
  = parseLines (n + List.length vs)
      {| config := c; currentSection := Some (addList s (k, vs)) |} more.
Proof.
  intros n c s more Hk. revert n s.
  unfold listLines, addList. simpl fst. simpl snd.
  induction vs as [|v vs IH]; intros n s Hall.
  - simpl. by rewrite Nat.add_0_r.
  - apply Forall_cons in Hall as [Hv Hall].
    cbn [List.map List.app parseLines].
    rewrite UciProps.parseLine_classify, classify_listLine by assumption.
    cbn [currentSection config]. rewrite IH by exact Hall.
    simpl List.length. by rewrite Nat.add_succ_r.
Qed.

Lemma parse_listBlocks (l : list (string * list string)) : forall n c s more,
  Forall (fun kvs => quotable kvs.1 = true /\ Forall (fun v => quotable v = true) kvs.2) l ->
  exists n',
    parseLines n {| config := c; currentSection := Some s |}
      (List.concat (List.map listLines l) ++ more)
    = parseLines n' {| config := c; currentSection := Some (addLists s l) |} more.
Proof.
  induction l as [|[k vs] l IH]; intros n c s more Hall.
  - by exists n.
  - apply Forall_cons in Hall as [[Hk Hvs] Hall]. simpl in Hk, Hvs.
    cbn [List.map List.concat]. rewrite <- app_assoc.
    rewrite parse_listLines by assumption.
    destruct (IH (n + List.length vs)%nat c (addList s (k, vs)) more Hall) as [n' Hn'].
    exists n'. exact Hn'.
Qed.

Lemma section_read_back (s : Section) :
  sectionOk s ->
  addLists (setOptions (NewSection (Type_ s) (Name s)) (range_map (Options s)))
    (range_map (Lists s)) = s.
Proof.
  intros (_ & _ & _ & _ & _ & Hlists).
  set (s1 := setOptions _ _).
  destruct (addLists_fields (range_map (Lists s)) s1) as (Ht & Hn & Ho & Hl).
  destruct (setOptions_fields (range_map (Options s)) (NewSection (Type_ s) (Name s)))
    as (Ht1 & Hn1 & Hl1 & Ho1).
  fold s1 in Ht1, Hn1, Hl1, Ho1.
  rewrite Ht1 in Ht. rewrite Hn1 in Hn. rewrite Ho1 in Ho. rewrite Hl1 in Hl.
  simpl in Ht, Hn, Ho, Hl.
  rewrite foldl_insert_range in Ho.
  rewrite foldl_appendList_fresh, foldl_insert_range in Hl.
  - by apply section_eq.
  - apply NoDup_range_map.
  - apply Forall_forall. intros [k vs] Hin%elem_of_range_map. simpl.
    split; [|apply lookup_empty]. by destruct (Hlists k vs Hin).
Qed.

Lemma parse_sectionLines (s : Section) (n : nat) (st : ParseState) (more : list string) :
  sectionOk s ->
  exists n',
    parseLines n st (sectionLines s ++ more)
    = parseLines n' {| config := flushSection st; currentSection := Some s |} more.
Proof.
  intros Hok. pose proof Hok as (_ & Ht & Hn & _ & Hopts & Hlists).
  unfold sectionLines. cbn [List.app parseLines].
  rewrite UciProps.parseLine_classify, classify_headerLine by assumption.
  rewrite <- app_assoc. rewrite parse_optionLines.
  2:{ apply Forall_forall. intros [k v] Hin%elem_of_range_map.
      destruct (Hopts k v Hin) as (? & ? & _). by split. }
  edestruct parse_listBlocks as [n' Hn'].
  2:{ exists n'. rewrite Hn'. by rewrite section_read_back. }
  apply Forall_forall. intros [k vs] Hin%elem_of_range_map.
  destruct (Hlists k vs Hin) as (_ & Hk & Hvs). split; [exact Hk|].
  simpl. eapply Forall_impl; [exact Hvs|]. by intros v [? _].
Qed.

Lemma parse_docLines (d : Config) : forall first n st,
  Forall sectionOk d ->
  exists st',
    parseLines n st (docLines first d) = Ok st'
    /\ flushSection st' = flushSection st ++ d.
Proof.
  induction d as [|s d IH]; intros first n st Hall.
  - exists st. by rewrite app_nil_r.
  - apply Forall_cons in Hall as [Hs Hall]. cbn [docLines].
    assert (exists n1, parseLines n st ((if first then [] else [""]) ++ sectionLines s
                                        ++ docLines false d)
                       = parseLines n1 st (sectionLines s ++ docLines false d)) as [n1 ->].
    { destruct first; [by exists n | by exists (S n)]. }
    destruct (parse_sectionLines s n1 st (docLines false d) Hs) as [n2 ->].
    destruct (IH false n2 {| config := flushSection st; currentSection := Some s |} Hall)
      as (st' & Hst' & Hflush).
    exists st'. split; [exact Hst'|]. rewrite Hflush.
    unfold flushSection at 1. simpl. unfold AddSection. by rewrite <- app_assoc.
Qed.

Lemma lineOk_sectionLines (s : Section) : sectionOk s -> Forall lineOk (sectionLines s).
Proof.
  intros (_ & Ht & Hn & Hf & Hopts & Hlists). unfold sectionLines.
  apply Forall_cons. split; [by apply lineOk_headerLine|].
  apply Forall_app. split.
  - apply Forall_forall. intros l (kv & -> & Hin)%list_elem_of_fmap.
    destruct kv as [k v]. apply elem_of_range_map in Hin.
    destruct (Hopts k v Hin) as (? & ? & ?). by apply lineOk_optionLine.
  - apply Forall_forall. intros l Hin.
    apply list_elem_of_In, in_concat in Hin as (block & Hblock & Hl).
    apply in_map_iff in Hblock as ([k vs] & <- & Hkvs).
    apply list_elem_of_In, elem_of_range_map in Hkvs.
    destruct (Hlists k vs Hkvs) as (_ & Hk & Hvs).
    unfold listLines in Hl. simpl in Hl. apply in_map_iff in Hl as (v & <- & Hv).
    apply list_elem_of_In in Hv. rewrite Forall_forall in Hvs.
    destruct (Hvs v Hv). by apply lineOk_listLine.
Qed.

Lemma lineOk_docLines (d : Config) : forall first,
  Forall sectionOk d -> Forall lineOk (docLines first d).
Proof.
  induction d as [|s d IH]; intros first Hall; [constructor|].
  apply Forall_cons in Hall as [Hs Hall]. cbn [docLines].
  apply Forall_app. split.
  - destruct first; [constructor|]. apply Forall_cons. split; [apply lineOk_blank|constructor].
  - apply Forall_app. split; [by apply lineOk_sectionLines | by apply IH].
Qed.

Lemma Parse_Write (d : Config) : Forall sectionOk d -> Parse (Write d) = Ok d.
Proof.
  intros Hall. unfold Parse, Write.
  rewrite writeSections_lines, scanLines_joinLines by by apply lineOk_docLines.
  destruct (parse_docLines d true 0 initState Hall) as (st' & -> & Hflush).
  by rewrite Hflush.
Qed.

(** X1: a document of ASCII strings whose sections are well formed (bare
    type, no single quote or newline in a name, key or value, no empty list,
    lines that fit the scanner) is read back unchanged from the text [Write]
    emits for it, whatever the order in which [Write] visits the options and
    lists. *)
Theorem write_then_parse_round_trip (d : Config) :
  Forall sectionOk d -> Parse (Write d) = Ok d.
Proof. apply Parse_Write. Qed.

End Reading.

Lemma write_then_parse_round_trip_witness :
  Forall sectionOk lanDoc
  /\ Parse (@Write canonical_range lanDoc) = Ok lanDoc.
Proof.
  assert (Forall sectionOk lanDoc) as Hok.
  { apply (bool_decide_unpack _). vm_compute. reflexivity. }
  split; [exact Hok|]. exact (@write_then_parse_round_trip canonical_range lanDoc Hok).
Defined.

End UciEmitProps.

Module UciReadProps.
Import GoStrings Uci UciSpec UciReadSpec.

(** Inside a section, the list lines for a key add their values in order. *)
Lemma parseLines_body_lists (body : list string) : forall n st s,
  currentSection st = Some s ->
  forallb isBodyLine body = true ->
  exists s',
    parseLines n st body = Ok {| config := config st; currentSection := Some s' |}
    /\ Type_ s' = Type_ s /\ Name s' = Name s
    /\ forall key, GetList s' key = GetList s key ++ listValues key body.
Proof.
  induction body as [|raw more IH]; intros n st s Hcur Hall.
  - exists s. simpl. destruct st; simpl in *; subst.
    repeat split. intros key. by rewrite app_nil_r.
  - simpl in Hall. apply andb_true_iff in Hall as [Hraw Hmore].
    unfold isBodyLine in Hraw. simpl.
    rewrite UciProps.parseLine_classify.
    destruct (classify raw) as [| |k v|k v|] eqn:Hk; try discriminate.
    + destruct (IH (S n) st s Hcur Hmore) as (s' & Hp & Ht & Hn & Ho).
      exists s'. by repeat split.
    + rewrite Hcur.
      destruct (IH (S n) {| config := config st; currentSection := Some (SetOption s k v) |}
                  (SetOption s k v) eq_refl Hmore) as (s' & Hp & Ht & Hn & Ho).
      exists s'. by repeat split.
    + rewrite Hcur.
      destruct (IH (S n) {| config := config st; currentSection := Some (AddListValue s k v) |}
                  (AddListValue s k v) eq_refl Hmore) as (s' & Hp & Ht & Hn & Ho).
      exists s'. repeat split; try done.
      intros key. rewrite Ho. unfold GetList, AddListValue; simpl.
      destruct (String.eqb_spec k key) as [->|Hne].
      * rewrite lookup_insert_eq. simpl. by rewrite <- app_assoc.
      * by rewrite lookup_insert_ne.
Qed.

(** X2: the values of the [list] lines for one key inside a section are kept
    in the order of the lines, repeated values included, whatever option,
    blank and comment lines stand between them.  The hypotheses are those of
    C9: a prefix that parses, a [config] line, a body, and a rest that is
    empty or starts the next section and is accepted. *)
Theorem list_values_keep_order (text : string) (pre body post : list string)
    (header : string) (st0 : ParseState) (sectionType sectionName key : string) :
  Bufio.scanLines text = (pre ++ header :: body ++ post, false) ->
  parseLines 0 initState pre = Ok st0 ->
  classify header = KConfig sectionType sectionName ->
  forallb isBodyLine body = true ->
  startsSection post = true ->
  parsesOk true post = true ->
  exists cfg s,
    Parse text = Ok cfg
    /\ cfg !! List.length (flushSection st0) = Some s
    /\ Type_ s = sectionType /\ Name s = sectionName
    /\ GetList s key = listValues key body.
Proof.
  intros Hscan Hpre Hhdr Hbody Hstart Hpost.
  unfold Parse. rewrite Hscan.
  rewrite (UciProps.parseLines_app _ _ _ _ _ Hpre). simpl.
  rewrite UciProps.parseLine_classify, Hhdr.
  match goal with |- context [parseLines ?k ?st (body ++ post)] =>
    destruct (parseLines_body_lists body k st (NewSection sectionType sectionName)
                eq_refl Hbody) as (s' & Hp & Ht & Hn & Ho) end.
  rewrite (UciProps.parseLines_app _ _ _ _ _ Hp). simpl.
  match goal with |- context [parseLines ?k _ post] =>
    destruct (UciProps.parseLines_keeps_section post k (flushSection st0) s' Hstart Hpost)
      as (st' & extra & -> & Hflush) end.
  exists (flushSection st'), s'. split; [done|]. split.
  - rewrite Hflush. by apply list_lookup_middle.
  - repeat split; try done; by rewrite Ho.
Qed.

Lemma list_values_keep_order_witness :
  exists cfg s,
    Parse dnsText = Ok cfg
    /\ cfg !! 0%nat = Some s
    /\ Type_ s = "interface" /\ Name s = "wan"
    /\ GetList s "dns" = ["9.9.9.9"; "8.8.8.8"; "9.9.9.9"].
Proof.
  apply (list_values_keep_order dnsText
           ["# uplink"]
           [tabStr +:+ "list dns '9.9.9.9'"; tabStr +:+ "option proto 'dhcp'";
            tabStr +:+ "list ntp 'pool.ntp.org'"; tabStr +:+ "list dns '8.8.8.8'";
            ""; tabStr +:+ "list 'dns' '9.9.9.9'"]
           ["config interface 'wan'"; tabStr +:+ "list dns '1.1.1.1'"]
           "config interface 'wan'" initState "interface" "wan" "dns").
  - vm_compute; reflexivity.
  - vm_compute; reflexivity.
  - vm_compute; reflexivity.
  - vm_compute; reflexivity.
  - vm_compute; reflexivity.
  - vm_compute; reflexivity.
Defined.

(** Whether a section is open after accepted lines. *)
Lemma parsesOk_open (lines : list string) : forall n st,
  parsesOk (bool_decide (is_Some (currentSection st))) lines = true ->
  exists st',
    parseLines n st lines = Ok st'
    /\ bool_decide (is_Some (currentSection st'))
       = bool_decide (is_Some (currentSection st)) || existsb opensSection lines.
Proof.
  induction lines as [|raw more IH]; intros n st Hok.
  - exists st. by rewrite orb_false_r.
  - simpl in *. rewrite UciProps.parseLine_classify. unfold opensSection at 1.
    destruct (classify raw) as [|t name|k v|k v|] eqn:Hk; try discriminate.
    + destruct (IH (S n) st Hok) as (st' & -> & Hc). by exists st'.
    + destruct (IH (S n) {| config := flushSection st;
                            currentSection := Some (NewSection t name) |})
        as (st' & -> & Hc); [done|].
      exists st'. split; [done|]. rewrite Hc. simpl. by rewrite orb_true_r.
    + apply andb_true_iff in Hok as [Hin Hok].
      destruct (currentSection st) as [s|] eqn:Hcur; [|done].
      destruct (IH (S n) {| config := config st;
                            currentSection := Some (SetOption s k v) |})
        as (st' & -> & Hc); [done|]. by exists st'.
    + apply andb_true_iff in Hok as [Hin Hok].
      destruct (currentSection st) as [s|] eqn:Hcur; [|done].
      destruct (IH (S n) {| config := config st;
                            currentSection := Some (AddListValue s k v) |})
        as (st' & -> & Hc); [done|]. by exists st'.
Qed.

Lemma parseLine_error_line (n : nat) (st : ParseState) (raw : string) (e : ParseError) :
  parseLine n st raw = Err e -> lineOf e = Some n.
Proof.
  unfold parseLine.
  destruct (String.eqb (TrimSpace raw) "" || HasPrefix (TrimSpace raw) "#"); [done|].
  destruct (HasPrefix (TrimSpace raw) "config ").
  { destruct (parseQuotedLine _) as [|t more]; by intros [= <-]. }
  destruct (HasPrefix (TrimSpace raw) "option ").
  { destruct (currentSection st); [|by intros [= <-]].
    destruct (parseQuotedLine _) as [|k [|v [|x l]]]; by intros [= <-]. }
  destruct (HasPrefix (TrimSpace raw) "list ").
  { destruct (currentSection st); [|by intros [= <-]].
    destruct (parseQuotedLine _) as [|k [|v [|x l]]]; by intros [= <-]. }
  by intros [= <-].
Qed.

(** X3: [Parse] stops at the first line it does not accept and names it by
    its number, counted from 1 over all lines, blank and comment lines
    included: the line is malformed, or it is an option or list line and no
    [config] line came before.  In the latter case the error is "option
    outside of section" or "list outside of section".  A later line that
    is too long for the scanner does not change this. *)
Theorem first_rejected_line_is_reported (text : string) (pre post : list string)
    (raw : string) (scanErr : bool) :
  Bufio.scanLines text = (pre ++ raw :: post, scanErr) ->
  parsesOk false pre = true ->
  rejected (existsb opensSection pre) raw = true ->
  exists err,
    Parse text = Err err
    /\ lineOf err = Some (S (List.length pre))
    /\ (forall k v, classify raw = KOption k v ->
          err = ErrOptionOutsideSection (S (List.length pre)))
    /\ (forall k v, classify raw = KList k v ->
          err = ErrListOutsideSection (S (List.length pre))).
Proof.
  intros Hscan Hpre Hrej. unfold Parse. rewrite Hscan.
  destruct (parsesOk_open pre 0 initState Hpre) as (st & Hst & Hopen).
  rewrite (UciProps.parseLines_app _ _ _ _ _ Hst). simpl in *.
  rewrite <- Hopen in Hrej. unfold rejected in Hrej.
  destruct (parseLine (S (List.length pre)) st raw) as [st'|err] eqn:Hline.
  - exfalso. rewrite UciProps.parseLine_classify in Hline.
    destruct (classify raw) as [|t name|k v|k v|] eqn:Hk; try discriminate Hrej.
    + destruct (currentSection st); [discriminate Hrej | discriminate Hline].
    + destruct (currentSection st); [discriminate Hrej | discriminate Hline].
    + destruct (UciProps.bad_line_rejected (S (List.length pre)) st raw Hk) as [e He].
      rewrite He in Hline. discriminate Hline.
  - exists err. split; [done|]. split; [by apply parseLine_error_line in Hline|].
    rewrite UciProps.parseLine_classify in Hline.
    split; intros k v Hk; rewrite Hk in Hline, Hrej;
      (destruct (currentSection st); [discriminate Hrej | by inversion Hline]).
Qed.

Lemma first_rejected_line_is_reported_witness :
  Parse strayOptionText = Err (ErrOptionOutsideSection 4).
Proof.
  destruct (first_rejected_line_is_reported strayOptionText
              ["# global settings"; ""; "   "] ["config system"]
              "option hostname 'router'" false)
    as (err & Hparse & _ & Hopt & _).
  - vm_compute; reflexivity.
  - vm_compute; reflexivity.
  - vm_compute; reflexivity.
  - rewrite Hparse. f_equal. apply (Hopt "hostname" "router"). vm_compute; reflexivity.
Defined.

(** The line number plays no role in [parseLine] but in the error. *)
Lemma parseLine_number (n m : nat) (st : ParseState) (raw : string) :
  match parseLine n st raw, parseLine m st raw with
  | Ok st1, Ok st2 => st1 = st2
  | Err e1, Err e2 => withoutLine e1 = withoutLine e2
  | _, _ => False
  end.
Proof.
  unfold parseLine.
  destruct (String.eqb (TrimSpace raw) "" || HasPrefix (TrimSpace raw) "#"); [done|].
  destruct (HasPrefix (TrimSpace raw) "config ").
  { by destruct (parseQuotedLine _) as [|t more]. }
  destruct (HasPrefix (TrimSpace raw) "option ").
  { destruct (currentSection st); [|done].
    by destruct (parseQuotedLine _) as [|k [|v [|x l]]]. }
  destruct (HasPrefix (TrimSpace raw) "list ").
  { destruct (currentSection st); [|done].
    by destruct (parseQuotedLine _) as [|k [|v [|x l]]]. }
  done.
Qed.

(** [parseLines] on the lines without the blank lines and comments. *)
Lemma parseLines_skip (lines : list string) : forall n m st,
  match parseLines n st lines, parseLines m st (List.filter (fun l => negb (isSkip l)) lines) with
  | Ok st1, Ok st2 => st1 = st2
  | Err e1, Err e2 => withoutLine e1 = withoutLine e2
  | _, _ => False
  end.
Proof.
  induction lines as [|raw more IH]; intros n m st; [done|].
  cbn [List.filter parseLines].
  destruct (isSkip raw) eqn:Hskip; cbn [negb].
  - rewrite UciProps.parseLine_classify. unfold isSkip in Hskip.
    destruct (classify raw); try discriminate Hskip. apply IH.
  - cbn [parseLines].
    pose proof (parseLine_number (S n) (S m) st raw) as Hline.
    destruct (parseLine (S n) st raw) as [st1|e1], (parseLine (S m) st raw) as [st2|e2];
      try done.
    subst st2. apply IH.
Qed.

(** X4: blank lines and comment lines carry no information.  Two texts
    whose lines agree once the blank and comment lines are left out, and
    of which both or none have a line too long for the scanner, parse to
    the same document or are rejected with the same error, in which only
    the line number may differ. *)
Theorem blank_and_comment_lines_are_ignored (text1 text2 : string)
    (lines1 lines2 : list string) (long : bool) :
  Bufio.scanLines text1 = (lines1, long) ->
  Bufio.scanLines text2 = (lines2, long) ->
  List.filter (fun l => negb (isSkip l)) lines1
  = List.filter (fun l => negb (isSkip l)) lines2 ->
  sameDocument (Parse text1) (Parse text2).
Proof.
  intros H1 H2 Heq. unfold Parse. rewrite H1, H2.
  pose proof (parseLines_skip lines1 0 0 initState) as P1.
  pose proof (parseLines_skip lines2 0 0 initState) as P2.
  rewrite Heq in P1.
  destruct (parseLines 0 initState lines1) as [st1|e1],
           (parseLines 0 initState lines2) as [st2|e2],
           (parseLines 0 initState (List.filter _ lines2)) as [st3|e3];
    simpl; try done.
  - subst. by destruct long.
  - congruence.
Qed.

Lemma blank_and_comment_lines_are_ignored_witness :
  sameDocument (Parse typoText) (Parse typoTextBare)
  /\ Parse typoText = Err (ErrUnknownSyntax 4 "optoin proto 'dhcp'")
  /\ Parse typoTextBare = Err (ErrUnknownSyntax 2 "optoin proto 'dhcp'").
Proof.
  split; [|split; vm_compute; reflexivity].
  apply (blank_and_comment_lines_are_ignored typoText typoTextBare
           (Bufio.scanLines typoText).1 (Bufio.scanLines typoTextBare).1 false).
  - vm_compute; reflexivity.
  - vm_compute; reflexivity.
  - vm_compute; reflexivity.
Defined.

(** Accepted lines add one section for each [config] line, in order. *)
Lemma parseLines_headers (lines : list string) : forall n st st',
  parseLines n st lines = Ok st' ->
  (fun s => (Type_ s, Name s)) <$> flushSection st'
  = ((fun s => (Type_ s, Name s)) <$> flushSection st) ++ headers lines.
Proof.
  induction lines as [|raw more IH]; intros n st st' Hp.
  - inversion Hp. by rewrite app_nil_r.
  - simpl in Hp. rewrite UciProps.parseLine_classify in Hp.
    cbn [headers].
    destruct (classify raw) as [|t name|k v|k v|] eqn:Hk.
    + by apply IH in Hp.
    + apply IH in Hp. rewrite Hp.
      change (flushSection {| config := flushSection st;
                              currentSection := Some (NewSection t name) |})
        with (flushSection st ++ [NewSection t name]).
      rewrite fmap_app. simpl. by rewrite <- app_assoc.
    + destruct (currentSection st) as [s|] eqn:Hcur; [|discriminate Hp].
      apply IH in Hp. rewrite Hp. f_equal. unfold flushSection. simpl. rewrite Hcur.
      unfold AddSection. by rewrite !fmap_app.
    + destruct (currentSection st) as [s|] eqn:Hcur; [|discriminate Hp].
      apply IH in Hp. rewrite Hp. f_equal. unfold flushSection. simpl. rewrite Hcur.
      unfold AddSection. by rewrite !fmap_app.
    + destruct (UciProps.bad_line_rejected (S n) st raw Hk) as [e He].
      rewrite He in Hp. discriminate Hp.
Qed.

(** X5: a parsed document has one section for each [config] line of the
    text, in the order of the lines, with the type and the name the line
    gives.  In particular two [config] lines with the same type and name
    give two sections: [Parse] neither merges nor rejects them. *)
Theorem sections_follow_config_lines (text : string) (lines : list string)
    (scanErr : bool) (cfg : Config) :
  Bufio.scanLines text = (lines, scanErr) ->
  Parse text = Ok cfg ->
  (fun s => (Type_ s, Name s)) <$> cfg = headers lines.
Proof.
  intros Hscan. unfold Parse. rewrite Hscan.
  destruct (parseLines 0 initState lines) as [st|e] eqn:Hp; [|done].
  destruct scanErr; [done|]. intros [= <-].
  by rewrite (parseLines_headers _ _ _ _ Hp).
Qed.

Lemma sections_follow_config_lines_witness :
  exists cfg,
    Parse dnsText = Ok cfg
    /\ (fun s => (Type_ s, Name s)) <$> cfg = [("interface", "wan"); ("interface", "wan")].
Proof.
  destruct (Parse dnsText) as [cfg|e] eqn:Hp; [|vm_compute in Hp; discriminate Hp].
  exists cfg. split; [reflexivity|].
  rewrite (sections_follow_config_lines dnsText (Bufio.scanLines dnsText).1 false cfg).
  - vm_compute; reflexivity.
  - vm_compute; reflexivity.
  - exact Hp.
Defined.

End UciReadProps.

Module ConfigStoreMoreProps.
Import GoStrings Os ConfigStore ConfigStoreSpec ConfigStorePathSpec.
Import UciEmitSpec.

(** *** Paths *)

Lemma dotSegmentsFrom_dotFree (s : string) : forall current,
  dotFree s = true -> dotSegmentsFrom s current = [current +:+ s].
Proof.
  induction s as [|c s IH]; intros current Hs.
  - by rewrite UciEmitProps.app_nil_r_s.
  - simpl in Hs. apply andb_prop in Hs as [Hc Hs]. apply negb_true_iff in Hc.
    simpl. rewrite Hc, IH by exact Hs. by rewrite UciEmitProps.snoc_app.
Qed.

Lemma dotSegmentsFrom_wf (path : string) : forall current,
  dotFree current = true ->
  Forall (fun s => dotFree s = true) (dotSegmentsFrom path current).
Proof.
  induction path as [|c path IH]; intros current Hcur; simpl.
  - by constructor.
  - destruct (Ascii.eqb c ".") eqn:Hc.
    + constructor; [exact Hcur | by apply IH].
    + apply IH. unfold dotFree, snoc. rewrite UciEmitProps.allChars_app.
      fold (dotFree current). rewrite Hcur. simpl. by rewrite Hc.
Qed.

Lemma splitPath_wf (path : string) : Forall segmentOk (splitPath path).
Proof.
  rewrite ConfigStoreProps.splitPath_segments. unfold nonEmptySegments, dotSegments.
  apply Forall_forall. intros s [Hne Hin]%list_elem_of_filter.
  pose proof (dotSegmentsFrom_wf path "" eq_refl) as Hwf.
  rewrite Forall_forall in Hwf. split; [exact Hne | by apply Hwf].
Qed.

Lemma splitPath_joinDots (segs : list string) :
  Forall segmentOk segs -> splitPath (joinDots segs) = segs.
Proof.
  rewrite ConfigStoreProps.splitPath_segments. unfold nonEmptySegments, dotSegments.
  induction 1 as [|s segs [Hne Hs] Hall IH]; [reflexivity|].
  unfold joinDots in *. destruct segs as [|s' segs].
  - simpl. rewrite dotSegmentsFrom_dotFree by exact Hs.
    by rewrite filter_cons_True, filter_nil.
  - change (String.concat "." (s :: s' :: segs))
      with (s +:+ String "." (String.concat "." (s' :: segs))).
    rewrite ConfigStoreProps.dotSegmentsFrom_dot, filter_app, IH.
    rewrite dotSegmentsFrom_dotFree by exact Hs.
    by rewrite filter_cons_True, filter_nil.
Qed.

Lemma isASCII_app (a b : string) : isASCII (a +:+ b) = isASCII a && isASCII b.
Proof. apply UciEmitProps.allChars_app. Qed.

Lemma dotSegmentsFrom_ascii (path : string) : forall current,
  isASCII path = true -> isASCII current = true ->
  Forall (fun s => isASCII s = true) (dotSegmentsFrom path current).
Proof.
  induction path as [|c path IH]; intros current Hpath Hcur; simpl.
  - by constructor.
  - change (isASCII (String c path))
      with ((nat_of_ascii c <? 128)%nat && isASCII path) in Hpath.
    apply andb_prop in Hpath as [Hc Hpath].
    destruct (Ascii.eqb c ".").
    + constructor; [exact Hcur | by apply IH].
    + apply IH; [exact Hpath|]. unfold snoc. rewrite isASCII_app, Hcur.
      change (isASCII (String c "")) with ((nat_of_ascii c <? 128)%nat && true).
      by rewrite Hc.
Qed.

Lemma isASCII_joinDots (segs : list string) :
  Forall (fun s => isASCII s = true) segs -> isASCII (joinDots segs) = true.
Proof.
  unfold joinDots. induction 1 as [|s segs Hs Hall IH]; [reflexivity|].
  destruct segs as [|s' segs]; [exact Hs|].
  change (String.concat "." (s :: s' :: segs))
    with (s +:+ String "." (String.concat "." (s' :: segs))).
  rewrite isASCII_app, Hs.
  change (isASCII (String "." ?x)) with (isASCII x). exact IH.
Qed.

(** X6: on ASCII text [splitPath] and joining with dots are inverse to
    each other.  Every segment that [splitPath] returns for an ASCII path is
    ASCII, non-empty and holds no dot; and a list of such segments joined by
    dots is an ASCII path that is split into exactly these segments. *)
Theorem splitPath_round_trip (path : string) (segs : list string) :
  (isASCII path = true -> Forall plainSegment (splitPath path))
  /\ (Forall plainSegment segs ->
      isASCII (joinDots segs) = true /\ splitPath (joinDots segs) = segs).
Proof.
  split.
  - intros Hpath. apply Forall_forall. intros s Hin. split.
    + pose proof (splitPath_wf path) as Hwf. rewrite Forall_forall in Hwf. by apply Hwf.
    + revert Hin. rewrite ConfigStoreProps.splitPath_segments.
      unfold nonEmptySegments, dotSegments. intros [_ Hin]%list_elem_of_filter.
      pose proof (dotSegmentsFrom_ascii path "" Hpath eq_refl) as Hascii.
      rewrite Forall_forall in Hascii. by apply Hascii.
  - intros Hsegs. split.
    + apply isASCII_joinDots. eapply Forall_impl; [exact Hsegs|]. by intros s [_ ?].
    + apply splitPath_joinDots. eapply Forall_impl; [exact Hsegs|]. by intros s [? _].
Qed.

Lemma splitPath_round_trip_witness :
  Forall plainSegment (splitPath "..network.wan..ipaddr")
  /\ splitPath (joinDots ["network"; "wan"; "ipaddr"]) = ["network"; "wan"; "ipaddr"].
Proof.
  destruct (splitPath_round_trip "..network.wan..ipaddr" ["network"; "wan"; "ipaddr"])
    as [H1 H2].
  split; [apply H1; reflexivity|]. apply H2.
  apply (bool_decide_unpack _). vm_compute. reflexivity.
Defined.

(** *** [Get] and [Set] *)

Lemma parsePath_joinDots (c s o : string) (rest : list string) (path : string) :
  splitPath path = c :: s :: o :: rest ->
  parsePath path = Ok (c, s, o) /\ parsePath (joinDots [c; s; o]) = Ok (c, s, o).
Proof.
  intros Hsplit. unfold parsePath. rewrite Hsplit. split; [reflexivity|].
  rewrite splitPath_joinDots; [reflexivity|].
  pose proof (splitPath_wf path) as Hwf. rewrite Hsplit in Hwf.
  apply Forall_cons in Hwf as [Hc Hwf]. apply Forall_cons in Hwf as [Hs Hwf].
  apply Forall_cons in Hwf as [Ho _].
  repeat (apply Forall_cons; split; [assumption|]). constructor.
Qed.

(** X7: a path is read through its first three segments only.  With three
    or more segments [Get] and [Set] do what they do on the path made of the
    first three, so [network.wan.ipaddr.x.y] addresses the option [ipaddr];
    with fewer than two segments both fail with "invalid path" and [Set]
    leaves the store as it was. *)
Theorem path_uses_first_three_segments (io : Faults) (m : Manager) (dir : Files)
    (path value : string) :
  match splitPath path with
  | c :: s :: o :: _ =>
      Get io m dir path = Get io m dir (joinDots [c; s; o])
      /\ Set_ io m dir path value = Set_ io m dir (joinDots [c; s; o]) value
  | [_; _] => True
  | _ =>
      Get io m dir path = Err ErrInvalidPath
      /\ Set_ io m dir path value = (Err ErrInvalidPath, m)
  end.
Proof.
  destruct (splitPath path) as [|c [|s [|o rest]]] eqn:Hsplit.
  - unfold Get, Set_, parsePath. by rewrite Hsplit.
  - unfold Get, Set_, parsePath. by rewrite Hsplit.
  - exact I.
  - destruct (parsePath_joinDots c s o rest path Hsplit) as [H1 H2].
    unfold Get, Set_. by rewrite H1, H2.
Qed.

Lemma findSection_set (sn o v : string) (cfg : Uci.Config) : forall i j s,
  findSection sn i cfg = Some (j, s) ->
  (i <= j)%nat
  /\ findSection sn i (<[(j - i)%nat := Uci.SetOption s o v]> cfg)
     = Some (j, Uci.SetOption s o v).
Proof.
  induction cfg as [|s0 more IH]; intros i j s Hfind; [done|].
  simpl in Hfind.
  destruct (String.eqb (Uci.Name s0) sn
            || String.eqb (Uci.Name s0) "" && String.eqb (Uci.Type_ s0) sn) eqn:Haddr.
  - injection Hfind as <- <-. split; [lia|]. rewrite Nat.sub_diag. simpl. by rewrite Haddr.
  - destruct (IH _ _ _ Hfind) as [Hle Hset]. split; [lia|].
    replace (j - i)%nat with (S (j - S i)) by lia. simpl. by rewrite Haddr.
Qed.

Lemma findSection_new (sn : string) (new : Uci.Section) (cfg : Uci.Config) : forall i,
  findSection sn i cfg = None ->
  Uci.Name new = sn ->
  findSection sn i (cfg ++ [new]) = Some ((i + List.length cfg)%nat, new).
Proof.
  induction cfg as [|s0 more IH]; intros i Hfind Hname.
  - simpl. rewrite Hname, String.eqb_refl. simpl. by rewrite Nat.add_0_r.
  - simpl in *.
    destruct (String.eqb (Uci.Name s0) sn
              || String.eqb (Uci.Name s0) "" && String.eqb (Uci.Type_ s0) sn); [done|].
    rewrite IH by done. f_equal. f_equal. lia.
Qed.

Lemma findSection_setIn (cfg : Uci.Config) (sn o v : string) :
  exists i s, findSection sn 0 (setIn cfg sn o v) = Some (i, s)
              /\ Uci.GetOption s o = Some v.
Proof.
  unfold setIn. destruct (findSection sn 0 cfg) as [[i s]|] eqn:Hfind.
  - destruct (findSection_set sn o v cfg 0 i s Hfind) as [_ Hset].
    rewrite Nat.sub_0_r in Hset. exists i, (Uci.SetOption s o v).
    split; [exact Hset|]. unfold Uci.GetOption. simpl. apply lookup_insert_eq.
  - eexists _, _. split.
    + by apply findSection_new.
    + unfold Uci.GetOption. simpl. apply lookup_insert_eq.
Qed.

Lemma Set_staged (io : Faults) (m m' : Manager) (dir : Files) (path value : string)
    (c sn o : string) :
  parsePath path = Ok (c, sn, o) ->
  Set_ io m dir path value = (Ok tt, m') ->
  exists cfg, Load io m dir c = Ok cfg /\ m' = Stage m c (setIn cfg sn o value).
Proof.
  intros Hpath. unfold Set_. rewrite Hpath.
  destruct (Load io m dir c) as [cfg|e]; [|done].
  intros [= <-]. by exists cfg.
Qed.

Lemma Load_staged (io : Faults) (m : Manager) (dir : Files) (c : string) (cfg : Uci.Config) :
  Load io (Stage m c cfg) dir c = Ok cfg.
Proof. unfold Load, Stage. simpl. by rewrite lookup_insert_eq. Qed.

(** X8: what [Set] has written, [Get] reads back.  After a successful
    [Set] on a path of three or more segments, [Get] on the same path
    returns the value, whether the section existed, was found by its type
    or was created by [Set]; the value comes from the overlay, so the disk
    and its faults play no role. *)
Theorem set_then_get (io io' : Faults) (m m' : Manager) (dir dir' : Files)
    (path value : string) :
  (3 <= List.length (splitPath path))%nat ->
  Set_ io m dir path value = (Ok tt, m') ->
  Get io' m' dir' path = Ok value.
Proof.
  intros Hlen Hset.
  destruct (splitPath path) as [|c [|sn [|o rest]]] eqn:Hsplit; simpl in Hlen; try lia.
  destruct (parsePath_joinDots c sn o rest path Hsplit) as [Hpath _].
  destruct (Set_staged _ _ _ _ _ _ _ _ _ Hpath Hset) as (cfg & _ & ->).
  unfold Get. rewrite Hpath, Load_staged.
  destruct (findSection_setIn cfg sn o value) as (i & s & -> & Hget).
  pose proof (splitPath_wf path) as Hwf. rewrite Hsplit in Hwf.
  apply Forall_cons in Hwf as [_ Hwf]. apply Forall_cons in Hwf as [_ Hwf].
  apply Forall_cons in Hwf as [[Ho _] _].
  destruct (String.eqb_spec o ""); [done|]. by rewrite Hget.
Qed.

Lemma set_then_get_witness :
  exists m',
    Set_ noFaults NewManager exampleDir "network.lan.ipaddr" "10.0.0.1" = (Ok tt, m')
    /\ Get noFaults m' ∅ "network.lan.ipaddr" = Ok "10.0.0.1".
Proof.
  set (res := Set_ noFaults NewManager exampleDir "network.lan.ipaddr" "10.0.0.1").
  assert (res = (Ok tt, res.2)) as Hset by (vm_compute; reflexivity).
  exists res.2. split; [exact Hset|].
  apply (set_then_get noFaults noFaults NewManager res.2 exampleDir ∅
           "network.lan.ipaddr" "10.0.0.1"); [vm_compute; lia | exact Hset].
Defined.

(** X9: a path of two segments names a section and no option.  [Set]
    accepts it and stores the value under the empty option name of the
    section; [Get] on the same path then fails with "option name required",
    so the value cannot be read back. *)
Theorem set_without_option_name (io io' : Faults) (m m' : Manager) (dir dir' : Files)
    (path value c sn : string) :
  splitPath path = [c; sn] ->
  Set_ io m dir path value = (Ok tt, m') ->
  (exists cfg i s,
      staged m' !! c = Some cfg
      /\ findSection sn 0 cfg = Some (i, s)
      /\ Uci.GetOption s "" = Some value)
  /\ Get io' m' dir' path = Err ErrOptionNameRequired.
Proof.
  intros Hsplit Hset.
  assert (parsePath path = Ok (c, sn, "")) as Hpath.
  { unfold parsePath. by rewrite Hsplit. }
  destruct (Set_staged _ _ _ _ _ _ _ _ _ Hpath Hset) as (cfg & _ & ->).
  destruct (findSection_setIn cfg sn "" value) as (i & s & Hfind & Hget).
  split.
  - exists (setIn cfg sn "" value), i, s. simpl. by rewrite lookup_insert_eq.
  - unfold Get. by rewrite Hpath, Load_staged, Hfind.
Qed.

Lemma set_without_option_name_witness :
  exists m',
    Set_ noFaults NewManager exampleDir "network.wan" "up" = (Ok tt, m')
    /\ Get noFaults m' exampleDir "network.wan" = Err ErrOptionNameRequired.
Proof.
  set (res := Set_ noFaults NewManager exampleDir "network.wan" "up").
  assert (res = (Ok tt, res.2)) as Hset by (vm_compute; reflexivity).
  exists res.2. split; [exact Hset|].
  apply (set_without_option_name noFaults noFaults NewManager res.2 exampleDir exampleDir
           "network.wan" "up" "network" "wan"); [vm_compute; reflexivity | exact Hset].
Defined.

Lemma findSection_Some (sn : string) (cfg : Uci.Config) : forall i j s,
  findSection sn i cfg = Some (j, s) ->
  (i <= j)%nat /\ cfg !! (j - i)%nat = Some s /\ addresses sn s = true.
Proof.
  induction cfg as [|s0 more IH]; intros i j s Hfind; [done|].
  simpl in Hfind. fold (addresses sn s0) in Hfind.
  destruct (addresses sn s0) eqn:Haddr.
  - injection Hfind as <- <-. by rewrite Nat.sub_diag.
  - destruct (IH _ _ _ Hfind) as (Hle & Hlook & Hs). split; [lia|].
    replace (j - i)%nat with (S (j - S i)) by lia. done.
Qed.

Lemma findSection_insert_other (sn : string) (s x : Uci.Section) (cfg : Uci.Config) :
  forall i n,
  cfg !! n = Some s ->
  addresses sn s = false -> addresses sn x = false ->
  findSection sn i (<[n := x]> cfg) = findSection sn i cfg.
Proof.
  induction cfg as [|s0 more IH]; intros i n Hlook Hs Hx; [done|].
  destruct n as [|n]; simpl in *.
  - injection Hlook as ->. fold (addresses sn x). fold (addresses sn s).
    by rewrite Hs, Hx.
  - fold (addresses sn s0). destruct (addresses sn s0); [done|]. by apply IH.
Qed.

Lemma findSection_app_other (sn : string) (x : Uci.Section) (cfg : Uci.Config) : forall i,
  addresses sn x = false ->
  findSection sn i (cfg ++ [x]) = findSection sn i cfg.
Proof.
  induction cfg as [|s0 more IH]; intros i Hx; simpl.
  - fold (addresses sn x). by rewrite Hx.
  - fold (addresses sn s0). destruct (addresses sn s0); [done|]. by apply IH.
Qed.

Lemma addresses_two (s1 s2 : string) (s : Uci.Section) :
  s1 <> "" -> s2 <> "" -> addresses s1 s = true -> addresses s2 s = true -> s1 = s2.
Proof.
  unfold addresses. intros H1 H2 A1 A2.
  apply orb_true_iff in A1, A2.
  destruct A1 as [A1%String.eqb_eq | [E1%String.eqb_eq T1%String.eqb_eq]%andb_true_iff],
           A2 as [A2%String.eqb_eq | [E2%String.eqb_eq T2%String.eqb_eq]%andb_true_iff];
    congruence.
Qed.

Lemma addresses_SetOption (sn o v : string) (s : Uci.Section) :
  addresses sn (Uci.SetOption s o v) = addresses sn s.
Proof. reflexivity. Qed.

Lemma findSection_setIn_other (cfg : Uci.Config) (s1 s2 o v : string) :
  s1 <> "" -> s2 <> "" -> s1 <> s2 ->
  findSection s2 0 (setIn cfg s1 o v) = findSection s2 0 cfg.
Proof.
  intros H1 H2 Hne. unfold setIn.
  destruct (findSection s1 0 cfg) as [[i s]|] eqn:Hfind.
  - destruct (findSection_Some _ _ _ _ _ Hfind) as (_ & Hlook & Haddr).
    rewrite Nat.sub_0_r in Hlook.
    assert (addresses s2 s = false) as Hs.
    { destruct (addresses s2 s) eqn:E; [|done].
      destruct Hne. by apply (addresses_two s1 s2 s). }
    by apply (findSection_insert_other s2 s).
  - apply findSection_app_other. unfold addresses. simpl.
    destruct (String.eqb_spec s1 s2); [done|].
    by destruct (String.eqb_spec s1 "").
Qed.

Lemma findSection_setIn_same (cfg : Uci.Config) (sn o v o' : string) :
  o <> o' ->
  match findSection sn 0 (setIn cfg sn o v), findSection sn 0 cfg with
  | Some (_, s'), Some (_, s) => Uci.GetOption s' o' = Uci.GetOption s o'
  | Some (_, s'), None => Uci.GetOption s' o' = None
  | None, _ => False
  end.
Proof.
  intros Hne. unfold setIn.
  destruct (findSection sn 0 cfg) as [[i s]|] eqn:Hfind.
  - destruct (findSection_set sn o v cfg 0 i s Hfind) as [_ Hset].
    rewrite Nat.sub_0_r in Hset. rewrite Hset.
    unfold Uci.GetOption. simpl. by rewrite lookup_insert_ne.
  - unfold Uci.AddSection.
    rewrite (findSection_new sn (Uci.SetOption (Uci.NewSection sn sn) o v) cfg 0 Hfind eq_refl).
    unfold Uci.GetOption. simpl. by rewrite lookup_insert_ne.
Qed.

Lemma parsePath_segments (path c sn o : string) :
  parsePath path = Ok (c, sn, o) -> c <> "" /\ sn <> "".
Proof.
  unfold parsePath. pose proof (splitPath_wf path) as Hwf.
  destruct (splitPath path) as [|c' [|sn' rest]]; try done.
  intros [= <- <- _].
  apply Forall_cons in Hwf as [[Hc _] Hwf]. by apply Forall_cons in Hwf as [[Hs _] _].
Qed.

(** X10: [Set] changes one option and nothing else that [Get] can see.
    After a successful [Set] on a path, [Get] on any path that names another
    configuration, another section or another option returns a value exactly
    when it did before, and the same one.  (Without a value the error may
    differ: a section that [Set] created is now found.) *)
Theorem set_leaves_other_options (io : Faults) (m m' : Manager) (dir : Files)
    (p q value : string) (c1 s1 o1 c2 s2 o2 : string) :
  parsePath p = Ok (c1, s1, o1) ->
  parsePath q = Ok (c2, s2, o2) ->
  (c1, s1, o1) <> (c2, s2, o2) ->
  Set_ io m dir p value = (Ok tt, m') ->
  forall w, Get io m' dir q = Ok w <-> Get io m dir q = Ok w.
Proof.
  intros Hp Hq Hne Hset w.
  destruct (Set_staged _ _ _ _ _ _ _ _ _ Hp Hset) as (cfg & Hload & ->).
  destruct (parsePath_segments _ _ _ _ Hp) as [_ Hs1].
  destruct (parsePath_segments _ _ _ _ Hq) as [_ Hs2].
  unfold Get. rewrite Hq.
  destruct (decide (c1 = c2)) as [Hc|Hc]; [subst c2|].
  - rewrite Load_staged, Hload.
    destruct (decide (s1 = s2)) as [Hs|Hs]; [subst s2|].
    + assert (o1 <> o2) as Ho by (intros Ho; subst o2; by apply Hne).
      pose proof (findSection_setIn_same cfg s1 o1 value o2 Ho) as Hsame.
      destruct (findSection s1 0 (setIn cfg s1 o1 value)) as [[i' s']|]; [|done].
      destruct (findSection s1 0 cfg) as [[i s]|].
      * by rewrite Hsame.
      * rewrite Hsame. by destruct (String.eqb o2 "").
    + by rewrite findSection_setIn_other.
  - assert (Load io (Stage m c1 (setIn cfg s1 o1 value)) dir c2 = Load io m dir c2) as ->.
    { unfold Load, Stage. simpl. by rewrite lookup_insert_ne. }
    done.
Qed.

Lemma set_leaves_other_options_witness :
  exists m',
    Set_ noFaults NewManager exampleDir "network.wan.ipaddr" "10.0.0.1" = (Ok tt, m')
    /\ (Get noFaults m' exampleDir "network.wan.netmask" = Ok "255.255.255.0"
        <-> Get noFaults NewManager exampleDir "network.wan.netmask" = Ok "255.255.255.0")
    /\ Get noFaults NewManager exampleDir "network.wan.netmask" = Ok "255.255.255.0".
Proof.
  set (res := Set_ noFaults NewManager exampleDir "network.wan.ipaddr" "10.0.0.1").
  assert (res = (Ok tt, res.2)) as Hset by (vm_compute; reflexivity).
  exists res.2. split; [exact Hset|]. split; [|vm_compute; reflexivity].
  apply (set_leaves_other_options noFaults NewManager res.2 exampleDir
           "network.wan.ipaddr" "network.wan.netmask" "10.0.0.1"
           "network" "wan" "ipaddr" "network" "wan" "netmask").
  - vm_compute; reflexivity.
  - vm_compute; reflexivity.
  - intros [=].
  - exact Hset.
Defined.

(** *** [Commit] *)

Section CommitFiles.
Context {mr : MapRange}.

Lemma foldl_putFile (entries : list (string * Uci.Config)) (dir : Files) :
  NoDup entries.*1 ->
  (forall name, name ∈ entries.*1 -> tmpOf name ∉ entries.*1) ->
  (forall name doc, (name, doc) ∈ entries ->
      foldl putFile dir entries !! name = Some (Uci.Write doc))
  /\ (forall name, name ∈ entries.*1 -> foldl putFile dir entries !! tmpOf name = None)
  /\ (forall q, q ∉ entries.*1 -> (forall name, name ∈ entries.*1 -> q <> tmpOf name) ->
      foldl putFile dir entries !! q = dir !! q).
Proof.
  induction entries as [|[n d] entries IH] using rev_ind; intros Hnd Hclash.
  - repeat split.
    + intros name doc Hin. by apply elem_of_nil in Hin.
    + intros name Hin. by apply elem_of_nil in Hin.
  - rewrite fmap_app in Hnd, Hclash |- *. simpl in Hnd, Hclash |- *.
    apply NoDup_app in Hnd as (Hnd & Hfresh & _).
    assert (n ∉ entries.*1) as Hn.
    { intros Hin. apply (Hfresh n Hin). apply list_elem_of_here. }
    assert (forall x, x ∈ entries.*1 -> x ∈ entries.*1 ++ [n]) as Hin_l.
    { intros x Hx. apply elem_of_app. by left. }
    assert (n ∈ entries.*1 ++ [n]) as Hin_n.
    { apply elem_of_app. right. apply list_elem_of_here. }
    destruct IH as (IH1 & IH2 & IH3); [exact Hnd | |].
    { intros name Hin Htmp. apply (Hclash name (Hin_l _ Hin)). by apply Hin_l. }
    rewrite foldl_app. simpl. unfold putFile at 1 3 5. simpl.
    assert (tmpOf n <> n) as Htn.
    { intros E. apply (Hclash n Hin_n). rewrite E. exact Hin_n. }
    repeat split.
    + intros name doc [Hin|Hin]%elem_of_app.
      * assert (name ∈ entries.*1) as Hk by (by apply (list_elem_of_fmap_2 fst) in Hin).
        rewrite lookup_insert_ne by (intros <-; done).
        rewrite lookup_delete_ne; [by apply IH1|].
        intros E. apply (Hclash n Hin_n). rewrite E. by apply Hin_l.
      * apply list_elem_of_singleton in Hin as [= -> ->]. apply lookup_insert_eq.
    + intros name [Hin|Hin]%elem_of_app.
      * rewrite lookup_insert_ne.
        2:{ intros E. apply (Hclash name (Hin_l _ Hin)). rewrite <- E. exact Hin_n. }
        destruct (decide (tmpOf n = tmpOf name)) as [E|E].
        -- rewrite E. apply lookup_delete_eq.
        -- rewrite lookup_delete_ne by done. by apply IH2.
      * apply list_elem_of_singleton in Hin as ->.
        rewrite lookup_insert_ne by done. apply lookup_delete_eq.
    + intros q Hq Hqtmp. rewrite not_elem_of_app in Hq. destruct Hq as [Hq Hqn].
      rewrite lookup_insert_ne.
      2:{ intros <-. apply Hqn. apply list_elem_of_here. }
      rewrite lookup_delete_ne.
      2:{ intros E. by apply (Hqtmp n Hin_n). }
      apply IH3; [exact Hq|]. intros name Hin. apply Hqtmp. by apply Hin_l.
Qed.

Lemma Commit_files (io : Faults) (m m' : Manager) (dir dir' : Files) :
  Commit io m dir = (Ok tt, m', dir') ->
  staged m' = ∅ /\ dir' = foldl putFile dir (range_map (staged m)).
Proof.
  unfold Commit.
  destruct (size (staged m) =? 0)%nat; [done|].
  destruct (fault io OpMkdir ""); [done|].
  pose proof (ConfigStoreProps.writeAllStaged_spec io (range_map (staged m)) dir) as H.
  destruct (writeAllStaged io dir (range_map (staged m))) as [[[]|e] dir1]; [|done].
  destruct H as [_ ->]. by intros [= <- <-].
Qed.

Lemma range_map_keys {A} (m : gmap string A) (k : string) :
  k ∈ (range_map m).*1 <-> is_Some (m !! k).
Proof.
  rewrite list_elem_of_fmap. split.
  - intros ([k' v] & -> & Hin). apply UciEmitProps.elem_of_range_map in Hin. by exists v.
  - intros [v Hv]. exists (k, v). split; [done|]. by apply UciEmitProps.elem_of_range_map.
Qed.

Lemma Commit_disk (io : Faults) (m m' : Manager) (dir dir' : Files) :
  noTmpClash m ->
  Commit io m dir = (Ok tt, m', dir') ->
  staged m' = ∅
  /\ (forall name doc, staged m !! name = Some doc ->
        dir' !! name = Some (Uci.Write doc) /\ dir' !! tmpOf name = None)
  /\ (forall q, staged m !! q = None ->
        (forall name, is_Some (staged m !! name) -> q <> tmpOf name) ->
        dir' !! q = dir !! q).
Proof.
  intros Hclash [Hstaged ->]%Commit_files.
  destruct (foldl_putFile (range_map (staged m)) dir) as (H1 & H2 & H3).
  { apply UciEmitProps.NoDup_range_map. }
  { intros name Hin%range_map_keys Htmp%range_map_keys.
    rewrite (Hclash name Hin) in Htmp. by destruct Htmp. }
  split; [exact Hstaged|]. split.
  - intros name doc Hdoc. split.
    + apply H1. by apply UciEmitProps.elem_of_range_map.
    + apply H2. apply range_map_keys. by exists doc.
  - intros q Hq Hqtmp. apply H3.
    + rewrite range_map_keys, Hq. by intros [? ?].
    + intros name Hin%range_map_keys. by apply Hqtmp.
Qed.

(** X11: what [Commit] leaves on the disk.  After a successful [Commit]
    of a store in which every staged name is the name of a file of the
    directory and none is the temporary name ([name.tmp]) of another, every
    staged document is in its file as [Write] emits it, its temporary file
    is gone, and every other file is as before; a staged document of ASCII
    strings that is well formed is then loaded back from the disk
    unchanged. *)
Theorem commit_then_load (io : Faults) (m m' : Manager) (dir dir' : Files) :
  plainNames m ->
  noTmpClash m ->
  Commit io m dir = (Ok tt, m', dir') ->
  (forall name doc, staged m !! name = Some doc ->
      dir' !! name = Some (Uci.Write doc)
      /\ dir' !! tmpOf name = None
      /\ (Forall UciEmitSpec.sectionOk doc ->
          forall io', fault io' OpOpen name = false -> Load io' m' dir' name = Ok doc))
  /\ (forall q, staged m !! q = None ->
        (forall name, is_Some (staged m !! name) -> q <> tmpOf name) ->
        dir' !! q = dir !! q).
Proof.
  intros _ Hclash Hcommit.
  destruct (Commit_disk io m m' dir dir' Hclash Hcommit) as (Hstaged & Hfiles & Hother).
  split; [|exact Hother].
  intros name doc Hdoc. destruct (Hfiles name doc Hdoc) as [Hfile Htmp].
  split; [exact Hfile|]. split; [exact Htmp|].
  intros Hok io' Hopen. unfold Load. rewrite Hstaged, lookup_empty, Hopen, Hfile.
  by rewrite UciEmitProps.Parse_Write.
Qed.

End CommitFiles.

Lemma commit_then_load_witness :
  plainNames twoStaged
  /\ noTmpClash twoStaged
  /\ exists m' dir',
       @Commit canonical_range noFaults twoStaged exampleDir = (Ok tt, m', dir')
       /\ Load noFaults m' dir' "network"
          = Ok [Uci.SetOption (Uci.NewSection "interface" "wan") "proto" "dhcp"]
       /\ dir' !! "firewall" = Some ("config defaults" +:+ Uci.nl).
Proof.
  assert (noTmpClash twoStaged) as Hclash.
  { intros name [doc Hdoc]. unfold twoStaged, Stage in *. simpl in *.
    apply lookup_insert_Some in Hdoc as [[<- _]|[_ Hdoc]]; [reflexivity|].
    apply lookup_insert_Some in Hdoc as [[<- _]|[_ Hdoc]]; [reflexivity|].
    by rewrite lookup_empty in Hdoc. }
  assert (plainNames twoStaged) as Hplain.
  { apply (bool_decide_unpack _). vm_compute. reflexivity. }
  split; [exact Hplain|]. split; [exact Hclash|].
  set (res := @Commit canonical_range noFaults twoStaged exampleDir).
  assert (res.1.1 = Ok tt) as H1 by (vm_compute; reflexivity).
  assert (res = (Ok tt, res.1.2, res.2)) as Hc.
  { rewrite <- H1. rewrite <- (surjective_pairing res.1). apply surjective_pairing. }
  exists res.1.2, res.2. split; [exact Hc|].
  destruct (@commit_then_load canonical_range noFaults twoStaged res.1.2 exampleDir res.2
              Hplain Hclash Hc) as [Hfiles _].
  split.
  - destruct (Hfiles "network"
                [Uci.SetOption (Uci.NewSection "interface" "wan") "proto" "dhcp"])
      as (_ & _ & Hload); [reflexivity|].
    apply Hload; [|reflexivity]. apply (bool_decide_unpack _). vm_compute. reflexivity.
  - destruct (Hfiles "firewall" [Uci.NewSection "defaults" ""]) as (-> & _); [reflexivity|].
    vm_compute. reflexivity.
Defined.

(** When a staged name is the temporary name of another, the document
    staged under it can be lost: with the canonical order of iteration
    [network.tmp] is written first, and the write of [network] then uses
    and removes the file. *)
Example commit_tmp_clash_loses_file :
  let '(r, m', dir') := @Commit canonical_range noFaults clashStaged ∅ in
  r = Ok tt /\ HasChanges m' = false
  /\ is_Some (dir' !! "network") /\ dir' !! "network.tmp" = None.
Proof. vm_compute. split; [done|]. split; [done|]. split; [by eexists | done]. Qed.

End ConfigStoreMoreProps.

Module SnapshotMoreProps.
Import Os SnapshotStore SnapshotSpec SnapshotMoreSpec.

Section Validate.
Variable sha256hex : string -> string.

Lemma validateConfigs_intact io checksums path files configs :
  faultFree io ->
  is_ok (validateConfigs sha256hex io checksums path files configs)
  = negb (existsb (isCorrupt sha256hex checksums files) configs).
Proof.
  intros Hio. induction configs as [|configName more IH]; simpl; [done|].
  rewrite !Hio. unfold isCorrupt at 1.
  destruct (files !! configName) as [data|]; [|done].
  unfold verifyChecksum.
  destruct (0 <? size checksums)%nat eqn:Hsz.
  - destruct (checksums !! configName) as [expected|] eqn:Hc.
    + rewrite !Hio. destruct (String.eqb (sha256hex data) expected); [|done]. simpl.
      destruct (Uci.Parse data); simpl; [exact IH | done].
    + simpl. destruct (Uci.Parse data); simpl; [exact IH | done].
  - assert (checksums !! configName = None) as Hc.
    { apply Nat.ltb_ge in Hsz. assert (size checksums = 0)%nat as Hz by lia.
      apply map_size_empty_iff in Hz. subst. apply lookup_empty. }
    rewrite Hc. simpl. destruct (Uci.Parse data); simpl; [exact IH | done].
Qed.

(** X12: on a disk without faults [ValidateSnapshot] accepts a snapshot
    exactly when none of the files its metadata lists is corrupt (missing,
    of another checksum than the stored one, or not parsable): an intact
    snapshot is never rejected. *)
Theorem validate_accepts_exactly_intact (io : Faults) (dir : SnapDir) (snapshot : Snapshot) :
  faultFree io ->
  is_ok (ValidateSnapshot sha256hex io dir snapshot)
  = negb (existsb (isCorrupt sha256hex (Checksums (SnapMetadata snapshot))
                     (snapFiles dir (Path snapshot)))
            (Configs (SnapMetadata snapshot))).
Proof. intros Hio. unfold ValidateSnapshot. by apply validateConfigs_intact. Qed.

End Validate.

Lemma elem_of_existingConfigs (active : Files) (configs : list string) (name : string) :
  name ∈ existingConfigs active configs <-> name ∈ configs /\ is_Some (active !! name).
Proof.
  unfold existingConfigs. rewrite !list_elem_of_In, filter_In, bool_decide_eq_true. tauto.
Qed.

Lemma copyConfigs_faultFree io active configs : forall files copied,
  faultFree io ->
  exists files',
    copyConfigs io active configs files copied
    = (Ok (copied ++ existingConfigs active configs), files')
    /\ forall name,
         files' !! name
         = if decide (name ∈ existingConfigs active configs) then active !! name
           else files !! name.
Proof.
  induction configs as [|configName more IH]; intros files copied Hio.
  - exists files. cbn [copyConfigs existingConfigs List.filter]. rewrite app_nil_r.
    split; [done|]. intros name.
    destruct (decide (name ∈ [])) as [H|_]; [by apply elem_of_nil in H | done].
  - cbn [copyConfigs existingConfigs List.filter]. fold (existingConfigs active more).
    rewrite Hio. destruct (active !! configName) as [data|] eqn:Hact.
    + unfold CopyFileAtomic. rewrite Hio.
      destruct (IH (<[configName := data]> files) (copied ++ [configName]) Hio)
        as (files' & -> & Hfiles).
      exists files'. rewrite bool_decide_eq_true_2 by by exists data.
      rewrite <- app_assoc. split; [done|]. intros name. rewrite Hfiles.
      destruct (decide (name ∈ existingConfigs active more)) as [Hin|Hnin].
      * rewrite decide_True; [done | by apply list_elem_of_further].
      * destruct (decide (name = configName)) as [->|Hne].
        -- rewrite decide_True by apply list_elem_of_here.
           by rewrite lookup_insert_eq.
        -- rewrite decide_False.
           ++ by rewrite lookup_insert_ne.
           ++ intros Hin. apply elem_of_cons in Hin as [?|?]; done.
    + destruct (IH files copied Hio) as (files' & -> & Hfiles).
      exists files'. rewrite bool_decide_eq_false_2; [done|].
      intros [? ?]. congruence.
Qed.

Section CreateRestore.
Context {ss : SortSlice}.
Variable sha256hex : string -> string.

Lemma checksumConfigs_faultFree io path files copied : forall checksums,
  faultFree io ->
  exists checksums',
    checksumConfigs sha256hex io path files copied checksums = Ok checksums'
    /\ forall name, name ∈ copied ->
         checksums' !! name = Some (sha256hex (default "" (files !! name))).
Proof.
  induction copied as [|configName more IH]; intros checksums Hio.
  - exists checksums. split; [done|]. intros name Hin. by apply elem_of_nil in Hin.
  - simpl. rewrite Hio.
    destruct (IH (<[configName := sha256hex (default "" (files !! configName))]> checksums)
                Hio) as (checksums' & Hc & Hlook).
    exists checksums'. split; [exact Hc|].
    intros name Hin. destruct (decide (name ∈ more)) as [Hmore|Hmore]; [by apply Hlook|].
    apply elem_of_cons in Hin as [->|?]; [|done].
    clear IH Hlook. revert checksums Hc. generalize dependent more.
    induction more as [|n more IH]; intros Hmore checksums Hc.
    + simpl in Hc. injection Hc as <-. by rewrite lookup_insert_eq.
    + simpl in Hc. rewrite Hio in Hc. rewrite not_elem_of_cons in Hmore.
      destruct Hmore as [Hne Hmore].
      rewrite insert_insert_ne in Hc by done. by apply (IH Hmore _ Hc).
Qed.

Lemma restoreConfigs_faultFree io files configs : forall active,
  faultFree io ->
  (forall name, name ∈ configs -> is_Some (files !! name)) ->
  exists active', restoreConfigs io files configs active = (Ok tt, active').
Proof.
  induction configs as [|configName more IH]; intros active Hio Hfiles.
  - by exists active.
  - simpl. destruct (Hfiles configName) as [data ->]; [apply list_elem_of_here|].
    unfold CopyFileAtomic. rewrite Hio. apply IH; [exact Hio|].
    intros name Hin. apply Hfiles. by apply list_elem_of_further.
Qed.

Lemma List_length io dir listing :
  List io dir = Ok listing -> (List.length listing <= size dir)%nat.
Proof.
  unfold List. destruct (fault io OpMkdir ""); [done|].
  destruct (fault io OpReadDir ""); [done|]. intros [= <-].
  rewrite sortNewestFirst_perm.
  pose proof (SnapshotProps.listEntries_ids io dir (map_to_list dir)) as Hsub.
  apply sublist_length in Hsub. rewrite !length_fmap in Hsub.
  by rewrite length_map_to_list in Hsub.
Qed.

Lemma Create_faultFree io id now version message configs dir active :
  faultFree io -> dir !! id = None -> (size dir < 100)%nat ->
  exists files checksums,
    Create sha256hex io id now version message configs dir active
    = (Ok {| SnapID := id;
             SnapMetadata :=
               {| Timestamp := now; Message := message;
                  Configs := existingConfigs active configs; ID := id;
                  Version := version; Checksums := checksums |};
             Path := id |},
       <[id := EDir (MetaOk {| Timestamp := now; Message := message;
                               Configs := existingConfigs active configs; ID := id;
                               Version := version; Checksums := checksums |}) files]> dir)
    /\ (forall name, name ∈ existingConfigs active configs ->
          files !! name = active !! name
          /\ checksums !! name = Some (sha256hex (default "" (active !! name)))).
Proof.
  intros Hio Hfresh Hsize. unfold Create. rewrite !Hio, Hfresh.
  destruct (copyConfigs_faultFree io active configs ∅ [] Hio) as (files & -> & Hfiles).
  simpl app.
  destruct (checksumConfigs_faultFree io id files (existingConfigs active configs) ∅ Hio)
    as (checksums & -> & Hsums).
  exists files, checksums. simpl. split.
  - set (dir1 := <[id := _]> dir).
    destruct (List io dir1) as [listing|e] eqn:HL; [|done].
    apply List_length in HL. unfold dir1 in HL.
    rewrite map_size_insert_None in HL by exact Hfresh.
    destruct (Z.ltb_spec 100 (Z.of_nat (List.length listing))) as [Hgt|_]; [lia|done].
  - intros name Hin. specialize (Hfiles name). rewrite decide_True in Hfiles by exact Hin.
    split; [exact Hfiles|]. rewrite (Hsums name Hin). by rewrite Hfiles.
Qed.


End CreateRestore.

Lemma faultFree_noFaults : faultFree noFaults.
Proof. by intros op path. Qed.

Lemma validate_accepts_exactly_intact_witness :
  is_ok (ValidateSnapshot toyChecksum noFaults twoConfigsSnapshot
           {| SnapID := "20241006-153000-000-abcd";
              SnapMetadata :=
                metaOf "20241006-153000-000-abcd" 100 ["network"; "firewall"]
                  {[ "network" := toyChecksum goodNetwork;
                     "firewall" := toyChecksum ("config defaults" +:+ Uci.nl) ]};
              Path := "20241006-153000-000-abcd" |}) = true.
Proof.
  rewrite (validate_accepts_exactly_intact toyChecksum noFaults twoConfigsSnapshot _
             faultFree_noFaults).
  vm_compute. reflexivity.
Defined.


Lemma listEntries_perm io dir (es es' : list (string * Entry)) :
  es ≡ₚ es' -> listEntries io dir es ≡ₚ listEntries io dir es'.
Proof.
  induction 1 as [|[name e] es es' _ IH|[n1 e1] [n2 e2] es|es1 es2 es3 _ IH1 _ IH2].
  - done.
  - simpl. destruct e as [|meta files]; [exact IH|].
    destruct (fault io OpStat _); [exact IH|].
    destruct meta; [exact IH| |]; (destruct (Load io dir name); [by constructor | exact IH]).
  - simpl.
    assert (forall (n : string) (e : Entry) (rest : list Snapshot),
               exists pre : list Snapshot,
                 (forall tail,
                    match e with
                    | EFile => tail
                    | EDir meta _ =>
                        if fault io OpStat (joinPath n MetadataFile) then tail
                        else match meta with
                             | MetaMissing => tail
                             | _ => match Load io dir n with
                                    | Ok s => s :: tail
                                    | Err _ => tail
                                    end
                             end
                    end = pre ++ tail)) as Hshape.
    { intros n e _. destruct e as [|meta files]; [by exists []|].
      destruct (fault io OpStat _); [by exists []|].
      destruct meta; [by exists [] | |];
        (destruct (Load io dir n) as [s|]; [by exists [s] | by exists []]). }
    destruct (Hshape n1 e1 []) as [p1 H1]. destruct (Hshape n2 e2 []) as [p2 H2].
    rewrite !H1, !H2. rewrite !app_assoc. apply Permutation_app_tail, Permutation_app_comm.
  - by etrans.
Qed.

Lemma listEntries_ext io (dir dir' : SnapDir) (es : list (string * Entry)) :
  (forall name e, (name, e) ∈ es -> dir' !! name = dir !! name) ->
  listEntries io dir' es = listEntries io dir es.
Proof.
  induction es as [|[name e] es IH]; intros Hsame; [done|]. simpl.
  assert (listEntries io dir' es = listEntries io dir es) as ->.
  { apply IH. intros n e' Hin. apply (Hsame n e'). by apply list_elem_of_further. }
  assert (Load io dir' name = Load io dir name) as ->; [|done].
  unfold Load. by rewrite (Hsame name e) by apply list_elem_of_here.
Qed.

(** What is listed is what [Load] loads. *)
Lemma listEntries_Load io (dir : SnapDir) (es : list (string * Entry)) (s : Snapshot) :
  s ∈ listEntries io dir es -> Load io dir (SnapID s) = Ok s.
Proof.
  assert (forall name s', Load io dir name = Ok s' -> SnapID s' = name) as HL.
  { intros name s'. unfold Load. destruct (fault io OpStat name); [done|].
    destruct (dir !! name) as [[|m f]|]; try done.
    destruct (fault io OpOpen _); [done|]. destruct m; try done.
    by inversion 1. }
  induction es as [|[name e] es IH]; simpl; [by intros ?%elem_of_nil|].
  destruct e as [|meta files]; [exact IH|].
  destruct (fault io OpStat _); [exact IH|].
  destruct meta; [exact IH| |].
  all: destruct (Load io dir name) as [s'|] eqn:E; [|exact IH].
  all: intros [->|Hin]%elem_of_cons; [|by apply IH].
  all: by rewrite (HL _ _ E).
Qed.

Lemma Load_Ok_entry io (dir : SnapDir) (id : string) (s : Snapshot) :
  Load io dir id = Ok s ->
  SnapID s = id /\ exists files, dir !! id = Some (EDir (MetaOk (SnapMetadata s)) files).
Proof.
  unfold Load. destruct (fault io OpStat id); [done|].
  destruct (dir !! id) as [[|m f]|]; try done.
  destruct (fault io OpOpen _); [done|]. destruct m; try done.
  intros [= <-]. split; [done|]. by eexists.
Qed.

(** [os.RemoveAll] that returns no error has removed the entry. *)
Lemma RemoveAll_done io (dir dir' : SnapDir) (id : string) :
  RemoveAll io dir id = (true, dir') -> dir' = delete id dir.
Proof.
  unfold RemoveAll. destruct (dir !! id) as [[|meta files]|] eqn:Hid.
  - destruct (fault io OpRemove id); [done | by intros [= <-]].
  - destruct meta; repeat case_match; try done; by intros [= <-].
  - intros [= _ <-]. by rewrite delete_id.
Qed.

(** [os.RemoveAll] that returns an error on a directory has left the
    directory with what could not be removed: the files whose removal
    failed, and the metadata file if its removal failed. *)
Lemma RemoveAll_failed io (dir dir' : SnapDir) (id : string) (meta : MetaFile)
    (files : Files) :
  dir !! id = Some (EDir meta files) ->
  RemoveAll io dir id = (false, dir') ->
  dir' = <[id := EDir (match meta with
                       | MetaMissing => MetaMissing
                       | _ => if fault io OpRemove (joinPath id MetadataFile)
                              then meta else MetaMissing
                       end)
                      (filter (fun kv => fault io OpRemove (joinPath id kv.1) = true)
                         files)]> dir.
Proof.
  intros Hid. unfold RemoveAll. rewrite Hid.
  destruct meta; repeat case_match; try done; intros [= <-]; congruence.
Qed.

Section CreateFails.
Context {ss : SortSlice}.
Variable sha256hex : string -> string.

(** The files of a snapshot under construction are copies of active
    configurations. *)
Lemma copyConfigs_copies io (active : Files) (configs : list string) :
  forall files copied r files',
    copyConfigs io active configs files copied = (r, files') ->
    forall name data,
      files' !! name = Some data ->
      files !! name = Some data \/ (name ∈ configs /\ active !! name = Some data).
Proof.
  induction configs as [|c more IH]; intros files copied r files' H name data Hname;
    simpl in H.
  - injection H as _ <-. by left.
  - destruct (fault io OpStat c); [injection H as _ <-; by left|].
    destruct (active !! c) as [content|] eqn:Hc.
    + unfold CopyFileAtomic in H.
      destruct (fault io OpCopy c); [injection H as _ <-; by left|].
      destruct (IH _ _ _ _ H name data Hname) as [Hold|[Hin Hact]].
      * apply lookup_insert_Some in Hold as [[<- <-]|[_ Hold]]; [|by left].
        right. split; [apply list_elem_of_here | done].
      * right. split; [by apply list_elem_of_further | done].
    + destruct (IH _ _ _ _ H name data Hname) as [Hold|[Hin Hact]]; [by left|].
      right. split; [by apply list_elem_of_further | done].
Qed.

(** The deferred clean-up of [Create] on the directory of a fresh
    identifier. *)
Lemma cleanup_fresh io (dir : SnapDir) (id : string) (files : Files) :
  dir !! id = None ->
  let dir' := (RemoveAll io (<[id := EDir MetaMissing files]> dir) id).2 in
  (forall other, other <> id -> dir' !! other = dir !! other)
  /\ (dir' !! id = None
      \/ exists remains,
           dir' !! id = Some (EDir MetaMissing remains)
           /\ forall name data,
                remains !! name = Some data ->
                files !! name = Some data
                /\ fault io OpRemove (joinPath id name) = true)
  /\ (fault io OpRemove id = false ->
      (forall name, is_Some (files !! name) ->
                    fault io OpRemove (joinPath id name) = false) ->
      dir' = dir).
Proof.
  intros Hfresh dir'.
  destruct (RemoveAll io (<[id := EDir MetaMissing files]> dir) id) as [[] d] eqn:HR;
    subst dir'; simpl.
  - apply RemoveAll_done in HR. subst d. rewrite delete_insert_eq, delete_id by done.
    split; [done|]. split; [by left | done].
  - pose proof HR as HR'.
    apply (RemoveAll_failed _ _ _ _ MetaMissing files) in HR; [|by rewrite lookup_insert_eq].
    subst d. rewrite insert_insert_eq. split; [|split].
    + intros other Hne. by rewrite lookup_insert_ne.
    + right. eexists. split; [by rewrite lookup_insert_eq|].
      intros name data [Hin Hfault]%map_lookup_filter_Some. by split.
    + intros Hdir Hfiles. exfalso. revert HR'. unfold RemoveAll.
      rewrite lookup_insert_eq.
      assert (filter (fun kv : string * string =>
                        fault io OpRemove (joinPath id kv.1) = true) files = ∅) as ->.
      { apply map_empty. intros name. apply map_lookup_filter_None.
        destruct (files !! name) as [data|] eqn:Hname; [right | by left].
        intros data' _. simpl. by rewrite Hfiles. }
      rewrite decide_True by done. by rewrite Hdir.
Qed.

(** X14: what a failed [Create] leaves behind.  Whatever call fails
    (creating the directory, a copy, reading a copy for its checksum,
    writing the metadata), with a fresh identifier every other entry of the
    snapshot directory is as it was, and under the new identifier there is
    nothing or a directory without metadata in which the only configuration
    files are copies of active configurations whose removal failed; so the
    snapshots listed are those listed before.  When the removal of the new
    directory and of the copies in it does not fail, the snapshot directory
    is exactly as it was before. *)
Theorem create_failure_leaves_no_snapshot (io : Faults) (id : string) (now : Z)
    (version message : string) (configs : list string) (dir dir' : SnapDir)
    (active : Files) (e : Error) :
  dir !! id = None ->
  Create sha256hex io id now version message configs dir active = (Err e, dir') ->
  (forall other, other <> id -> dir' !! other = dir !! other)
  /\ (dir' !! id = None
      \/ exists remains,
           dir' !! id = Some (EDir MetaMissing remains)
           /\ forall name data,
                remains !! name = Some data ->
                name ∈ configs /\ active !! name = Some data
                /\ fault io OpRemove (joinPath id name) = true)
  /\ listEntries io dir' (map_to_list dir') ≡ₚ listEntries io dir (map_to_list dir)
  /\ (fault io OpRemove id = false ->
      (forall name, name ∈ configs -> fault io OpRemove (joinPath id name) = false) ->
      dir' = dir).
Proof.
  intros Hfresh HC.
  assert (dir' = dir
          \/ exists files,
               (forall name data, files !! name = Some data ->
                                  name ∈ configs /\ active !! name = Some data)
               /\ dir' = (RemoveAll io (<[id := EDir MetaMissing files]> dir) id).2)
    as [->|(files & Hcopies & ->)].
  { revert HC. unfold Create. rewrite Hfresh.
    destruct (fault io OpMkdir ""); [intros [= _ <-]; by left|].
    destruct (fault io OpStatfs ""); [intros [= _ <-]; by left|].
    destruct (fault io OpMkdir id); [intros [= _ <-]; by left|].
    destruct (copyConfigs io active configs ∅ []) as [r files1] eqn:Hcopy.
    assert (forall name data, files1 !! name = Some data ->
                              name ∈ configs /\ active !! name = Some data) as Hcopies.
    { intros name data Hname.
      by destruct (copyConfigs_copies _ _ _ _ _ _ _ Hcopy name data Hname)
        as [Hempty|H]; [rewrite lookup_empty in Hempty|]. }
    destruct r as [copied|e1]; [|intros [= _ <-]; right; by exists files1].
    destruct (checksumConfigs sha256hex io id files1 copied ∅) as [checksums|e2];
      [|intros [= _ <-]; right; by exists files1].
    destruct (fault io OpCreate (joinPath id MetadataFile)
              || fault io OpWrite (joinPath id MetadataFile)
              || fault io OpRename (joinPath id MetadataFile)); [|discriminate].
    intros [= _ <-]. right. by exists files1. }
  { split; [done|]. split; [by left|]. split; done. }
  destruct (cleanup_fresh io dir id files Hfresh) as (Hother & Hid & Hclean).
  cbv zeta in Hother, Hid, Hclean.
  set (dir' := (RemoveAll io (<[id := EDir MetaMissing files]> dir) id).2) in *.
  split; [exact Hother|]. split; [|split].
  - destruct Hid as [Hnone|(remains & Hleft & Hfiles)]; [by left|].
    right. exists remains. split; [done|]. intros name data Hname.
    destruct (Hfiles name data Hname) as [Hfile Hfault].
    destruct (Hcopies name data Hfile). done.
  - destruct Hid as [Hnone|(remains & Hleft & _)].
    + assert (dir' = dir) as ->; [|done].
      apply map_eq. intros k. destruct (decide (k = id)) as [->|Hne].
      * by rewrite Hnone, Hfresh.
      * by apply Hother.
    + assert (dir' = <[id := EDir MetaMissing remains]> dir) as Hdir'.
      { apply map_eq. intros k. destruct (decide (k = id)) as [->|Hne].
        - by rewrite Hleft, lookup_insert_eq.
        - rewrite lookup_insert_ne by done. by apply Hother. }
      rewrite (listEntries_perm io dir' _ ((id, EDir MetaMissing remains) :: map_to_list dir)).
      2:{ rewrite Hdir'. by apply map_to_list_insert. }
      simpl. assert (listEntries io dir' (map_to_list dir)
                     = listEntries io dir (map_to_list dir)) as Hsame.
      { apply listEntries_ext. intros name entry Hin%elem_of_map_to_list.
        apply Hother. intros ->. by rewrite Hfresh in Hin. }
      rewrite Hsame. by destruct (fault io OpStat _).
  - intros Hrmdir Hrm. apply Hclean; [done|].
    intros name [data Hname]. apply Hrm. by destruct (Hcopies name data Hname).
Qed.

End CreateFails.

Lemma create_failure_leaves_no_snapshot_witness :
  exists e dir',
    @Create mergeSortSlice toyChecksum copyFailsCopyStays "20241006-160000-000-ffff" 1000
      "1.0" "m" ["network"; "firewall"] threeSnapshots twoConfigs
    = (Err e, dir')
    /\ dir' !! "20241006-160000-000-ffff"
       = Some (EDir MetaMissing {[ "network" := SnapshotSpec.goodNetwork ]})
    /\ listEntries copyFailsCopyStays dir' (map_to_list dir')
       ≡ₚ listEntries copyFailsCopyStays threeSnapshots (map_to_list threeSnapshots).
Proof.
  set (res := @Create mergeSortSlice toyChecksum copyFailsCopyStays
                "20241006-160000-000-ffff" 1000 "1.0" "m" ["network"; "firewall"]
                threeSnapshots twoConfigs).
  assert (res.1 = Err (ErrCopyConfig "firewall")) as H1 by (vm_compute; reflexivity).
  assert (res = (Err (ErrCopyConfig "firewall"), res.2)) as Hres
    by (rewrite <- H1; apply surjective_pairing).
  assert (res.2 !! "20241006-160000-000-ffff"
          = Some (EDir MetaMissing {[ "network" := SnapshotSpec.goodNetwork ]})) as Hleft
    by (vm_compute; reflexivity).
  destruct (@create_failure_leaves_no_snapshot mergeSortSlice toyChecksum
              copyFailsCopyStays "20241006-160000-000-ffff" 1000 "1.0" "m"
              ["network"; "firewall"] threeSnapshots res.2 twoConfigs
              (ErrCopyConfig "firewall") eq_refl Hres) as (_ & _ & Hlist & _).
  exists (ErrCopyConfig "firewall"), res.2.
  split; [exact Hres|]. split; [exact Hleft | exact Hlist].
Defined.

Section Latest.
Context {ss : SortSlice}.

(** X15: [GetLatest] returns a snapshot that is at least as new as every
    valid snapshot of the directory, and fails with "no snapshots
    available" exactly when the directory holds no valid snapshot (when the
    directory can be listed). *)
Theorem get_latest_is_newest (io : Faults) (dir : SnapDir) :
  fault io OpMkdir "" = false -> fault io OpReadDir "" = false ->
  match GetLatest io dir with
  | Ok s =>
      s ∈ listEntries io dir (map_to_list dir)
      /\ forall s', s' ∈ listEntries io dir (map_to_list dir) -> newerOrEqual s s'
  | Err e => e = ErrNoSnapshots /\ listEntries io dir (map_to_list dir) = []
  end.
Proof.
  intros Hmk Hrd.
  destruct (SnapshotProps.List_no_faults io dir Hmk Hrd) as (HL & Hperm & Hsorted & _).
  unfold GetLatest. rewrite HL.
  destruct (sortNewestFirst (listEntries io dir (map_to_list dir))) as [|s rest] eqn:Hsort.
  - split; [done|]. by apply Permutation_nil_l in Hperm.
  - split.
    + rewrite <- Hperm. apply list_elem_of_here.
    + intros s' Hin. rewrite <- Hperm in Hin.
      apply StronglySorted_inv in Hsorted as [_ Hall].
      apply elem_of_cons in Hin as [->|Hin].
      * unfold newerOrEqual. lia.
      * rewrite Forall_forall in Hall. by apply Hall.
Qed.

(** The loop of [Prune] that ends with an error has deleted the snapshots
    before the one whose deletion failed. *)
Lemma deleteOld_failed io (old : list Snapshot) :
  forall (dir dir' : SnapDir) (deleted deleted' : list string) (e : Error),
    deleteOld io dir old deleted = (PruneReturn deleted' (Some e), dir') ->
    exists gone failed rest d,
      old = gone ++ failed :: rest
      /\ deleted' = deleted ++ (SnapID <$> gone)
      /\ e = ErrDelete (SnapID failed)
      /\ RemoveAll io (removeAll dir (SnapID <$> gone)) (SnapID failed) = (false, d)
      /\ dir' = d.
Proof.
  induction old as [|s more IH]; intros dir dir' deleted deleted' e H; simpl in H;
    [discriminate|].
  unfold Delete in H.
  destruct (RemoveAll io dir (SnapID s)) as [[] d] eqn:HR.
  - apply RemoveAll_done in HR. subst d.
    apply IH in H as (gone & failed & rest & d & -> & -> & -> & HR & ->).
    exists (s :: gone), failed, rest, d. rewrite <- app_assoc. done.
  - injection H as <- <- <-. exists [], s, more, d. by rewrite app_nil_r.
Qed.

(** X16: [Prune] stops at the first snapshot it cannot delete.  When the
    listing works and [Prune] returns an error, the error names that
    snapshot and the identifiers returned are those of the snapshots of the
    listing between position [keep] and it.  These are gone and every other
    entry is untouched, the later snapshots of the listing among them.  The
    snapshot that could not be deleted is still a directory, but only what
    could not be removed is left in it: it has lost its metadata file, and
    so is no longer listed as a snapshot, unless the removal of that file
    failed. *)
Theorem prune_stops_at_first_failure (io : Faults) (keep : Z) (dir dir' : SnapDir)
    (deleted : list string) (e : Error) :
  (0 <= keep)%Z ->
  fault io OpMkdir "" = false -> fault io OpReadDir "" = false ->
  Prune io keep dir = (PruneReturn deleted (Some e), dir') ->
  exists gone failed rest files,
    drop (Z.to_nat keep) (sortNewestFirst (listEntries io dir (map_to_list dir)))
    = gone ++ failed :: rest
    /\ deleted = SnapID <$> gone
    /\ e = ErrDelete (SnapID failed)
    /\ (forall s, s ∈ gone -> dir' !! SnapID s = None)
    /\ (forall id, id ∉ SnapID <$> gone -> id <> SnapID failed -> dir' !! id = dir !! id)
    /\ dir !! SnapID failed = Some (EDir (MetaOk (SnapMetadata failed)) files)
    /\ dir' !! SnapID failed
       = Some (EDir (if fault io OpRemove (joinPath (SnapID failed) MetadataFile)
                     then MetaOk (SnapMetadata failed) else MetaMissing)
                    (filter (fun kv => fault io OpRemove
                                         (joinPath (SnapID failed) kv.1) = true) files))
    /\ (fault io OpRemove (joinPath (SnapID failed) MetadataFile) = false ->
        forall s, s ∈ listEntries io dir' (map_to_list dir') -> SnapID s <> SnapID failed).
Proof.
  intros Hkeep Hmk Hrd HP.
  destruct (SnapshotProps.List_no_faults io dir Hmk Hrd) as (HL & Hperm & _ & Hnodup).
  set (listing := sortNewestFirst (listEntries io dir (map_to_list dir))) in *.
  revert HP. unfold Prune. rewrite HL.
  destruct (Z.leb_spec (Z.of_nat (List.length listing)) keep) as [Hle|Hgt]; [done|].
  destruct (Z.ltb_spec keep 0) as [|_]; [lia|]. intros HP.
  apply deleteOld_failed in HP as (gone & failed & rest & d & Hdrop & -> & -> & HR & ->).
  assert (failed ∈ listEntries io dir (map_to_list dir)) as Hlisted.
  { rewrite <- Hperm, <- (take_drop (Z.to_nat keep) listing), Hdrop.
    apply elem_of_app. right. apply elem_of_app. right. apply list_elem_of_here. }
  apply listEntries_Load, Load_Ok_entry in Hlisted as [_ [files Hentry]].
  assert (SnapID failed ∉ SnapID <$> gone) as Hfresh.
  { rewrite <- (take_drop (Z.to_nat keep) listing), Hdrop in Hnodup.
    rewrite !fmap_app in Hnodup.
    apply NoDup_app in Hnodup as (_ & _ & Hnodup).
    apply NoDup_app in Hnodup as (_ & Hdisj & _).
    intros Hin. apply (Hdisj _ Hin). rewrite fmap_cons. apply list_elem_of_here. }
  apply (RemoveAll_failed _ _ _ _ (MetaOk (SnapMetadata failed)) files) in HR.
  2:{ rewrite SnapshotProps.lookup_removeAll. by rewrite decide_False. }
  subst d. exists gone, failed, rest, files.
  split; [done|]. split; [done|]. split; [done|]. split; [|split; [|split; [|split]]].
  - intros s Hin. rewrite lookup_insert_ne.
    + rewrite SnapshotProps.lookup_removeAll.
      rewrite decide_True; [done | by apply list_elem_of_fmap_2].
    + intros Heq. apply Hfresh. rewrite Heq. by apply list_elem_of_fmap_2.
  - intros id Hid Hne. rewrite lookup_insert_ne by done.
    rewrite SnapshotProps.lookup_removeAll. by rewrite decide_False.
  - exact Hentry.
  - by rewrite lookup_insert_eq.
  - intros Hmeta s Hin Heq.
    apply listEntries_Load, Load_Ok_entry in Hin as [_ [files' Hs]].
    rewrite Heq, lookup_insert_eq, Hmeta in Hs. discriminate Hs.
Qed.

End Latest.

Lemma get_latest_is_newest_witness :
  exists s,
    @GetLatest mergeSortSlice noFaults threeSnapshots = Ok s
    /\ SnapID s = "20241006-153000-000-cccc"
    /\ forall s', s' ∈ listEntries noFaults threeSnapshots (map_to_list threeSnapshots) ->
                  newerOrEqual s s'.
Proof.
  pose proof (@get_latest_is_newest mergeSortSlice noFaults threeSnapshots eq_refl eq_refl)
    as H.
  assert (@GetLatest mergeSortSlice noFaults threeSnapshots
          = Ok {| SnapID := "20241006-153000-000-cccc";
                  SnapMetadata := metaOf "20241006-153000-000-cccc" 300 [] ∅;
                  Path := "20241006-153000-000-cccc" |}) as Hlatest
    by (vm_compute; reflexivity).
  rewrite Hlatest in H. destruct H as [_ H].
  eexists. split; [exact Hlatest|]. split; [reflexivity | exact H].
Defined.

Lemma prune_stops_at_first_failure_witness :
  exists dir',
    @Prune mergeSortSlice removeBFails 1 threeSnapshots
    = (PruneReturn [] (Some (ErrDelete "20241006-144500-000-bbbb")), dir')
    /\ dir' !! "20241006-144500-000-bbbb" = Some (EDir MetaMissing ∅)
    /\ is_Some (dir' !! "20241006-120000-000-aaaa")
    /\ SnapID <$> listEntries removeBFails dir' (map_to_list dir')
       = ["20241006-153000-000-cccc"; "20241006-120000-000-aaaa"].
Proof.
  set (res := @Prune mergeSortSlice removeBFails 1 threeSnapshots).
  assert (res.1 = PruneReturn [] (Some (ErrDelete "20241006-144500-000-bbbb"))) as H1
    by (vm_compute; reflexivity).
  assert (res = (PruneReturn [] (Some (ErrDelete "20241006-144500-000-bbbb")), res.2))
    as Hres by (rewrite <- H1; apply surjective_pairing).
  destruct (@prune_stops_at_first_failure mergeSortSlice removeBFails 1 threeSnapshots
              res.2 [] (ErrDelete "20241006-144500-000-bbbb")
              ltac:(lia) eq_refl eq_refl Hres)
    as (gone & failed & rest & files & _ & Hdone & Hfailed & _ & Hother & _ & Hleft & _).
  exists res.2. split; [exact Hres|].
  destruct gone as [|s gone]; [clear Hdone | discriminate Hdone].
  assert (SnapID failed = "20241006-144500-000-bbbb") as Hid
    by (injection Hfailed as <-; reflexivity).
  clear Hfailed. rewrite Hid in Hleft, Hother. clear Hid. split; [|split].
  - vm_compute. reflexivity.
  - rewrite Hother.
    + eexists. reflexivity.
    + apply not_elem_of_nil.
    + discriminate.
  - vm_compute. reflexivity.
Defined.

Section AutoPrune.
Context {ss : SortSlice}.
Variable sha256hex : string -> string.

(** X25: the automatic pruning of [Create] can delete the snapshot that
    [Create] has just written and returns.  On a disk without faults, if
    the directory already holds a hundred or more valid snapshots and all
    of them carry a later timestamp than the clock shows now, [Create]
    returns the new snapshot without error although its directory is gone:
    [Load] of the returned identifier fails. *)
Theorem create_can_prune_its_own_snapshot (io : Faults) (id : string) (now : Z)
    (version message : string) (configs : list string) (dir : SnapDir) (active : Files) :
  faultFree io -> dir !! id = None ->
  (100 <= List.length (listEntries io dir (map_to_list dir)))%nat ->
  Forall (fun s => (now < Timestamp (SnapMetadata s))%Z)
         (listEntries io dir (map_to_list dir)) ->
  exists snapshot dir',
    Create sha256hex io id now version message configs dir active = (Ok snapshot, dir')
    /\ SnapID snapshot = id
    /\ dir' !! id = None
    /\ Load io dir' id = Err (ErrNotFound id).
Proof.
  intros Hio Hfresh Hmany Hnewer. unfold Create. rewrite !Hio, Hfresh.
  destruct (copyConfigs_faultFree io active configs ∅ [] Hio) as (files & -> & _).
  simpl app.
  destruct (checksumConfigs_faultFree sha256hex io id files
              (existingConfigs active configs) ∅ Hio) as (checksums & -> & _).
  simpl.
  set (meta := {| Timestamp := now; Message := message;
                  Configs := existingConfigs active configs; ID := id;
                  Version := version; Checksums := checksums |}).
  set (new := {| SnapID := id; SnapMetadata := meta; Path := id |}).
  set (dir1 := <[id := EDir (MetaOk meta) files]> dir).
  destruct (SnapshotProps.List_no_faults io dir1 (Hio _ _) (Hio _ _))
    as (HL & Hperm & Hsorted & Hnodup).
  set (listing := sortNewestFirst (listEntries io dir1 (map_to_list dir1))) in *.
  assert (listing ≡ₚ new :: listEntries io dir (map_to_list dir)) as Hlisting.
  { rewrite Hperm.
    rewrite (listEntries_perm io dir1 _ ((id, EDir (MetaOk meta) files) :: map_to_list dir))
      by (by apply map_to_list_insert).
    simpl. rewrite !Hio. unfold Load at 1. rewrite !Hio. unfold dir1 at 1.
    rewrite lookup_insert_eq. fold new. apply Permutation_cons; [done|].
    rewrite (listEntries_ext io dir dir1); [done|].
    intros name e Hin%elem_of_map_to_list. unfold dir1.
    apply lookup_insert_ne. intros <-. congruence. }
  assert (100 < List.length listing)%nat as Hlen.
  { rewrite Hlisting. simpl. lia. }
  rewrite HL.
  destruct (Z.ltb_spec 100 (Z.of_nat (List.length listing))) as [_|]; [|lia].
  unfold Prune. rewrite HL.
  destruct (Z.leb_spec (Z.of_nat (List.length listing)) 100) as [|_]; [lia|].
  simpl. rewrite SnapshotProps.deleteOld_no_faults by (intros; apply Hio). simpl.
  assert (new ∈ drop 100 listing) as Hdropped.
  { assert (new ∈ listing) as Hin by (rewrite Hlisting; apply list_elem_of_here).
    rewrite <- (take_drop 100 listing) in Hin, Hsorted.
    apply elem_of_app in Hin as [Htake|Hdrop]; [|exact Hdrop].
    destruct (drop 100 listing) as [|s' rest] eqn:Hd.
    { apply (f_equal List.length) in Hd. rewrite length_drop in Hd. simpl in Hd. lia. }
    apply StronglySorted_app in Hsorted as (Hcross & _ & _).
    specialize (Hcross new s' Htake (list_elem_of_here _ _)).
    assert (s' ∈ listing) as Hs'.
    { rewrite <- (take_drop 100 listing), Hd. apply elem_of_app. right.
      apply list_elem_of_here. }
    rewrite Hlisting in Hs'. apply elem_of_cons in Hs' as [->|Hold].
    - apply list_elem_of_here.
    - rewrite Forall_forall in Hnewer. specialize (Hnewer s' Hold).
      unfold newerOrEqual in Hcross. simpl in Hcross. lia. }
  assert (removeAll dir1 (SnapID <$> drop 100 listing) !! id = None) as Hgone.
  { rewrite SnapshotProps.lookup_removeAll. rewrite decide_True; [done|].
    by apply (list_elem_of_fmap_2 SnapID) in Hdropped. }
  eexists _, _. split; [reflexivity|]. split; [reflexivity|].
  change (Z.to_nat 100) with 100%nat. split; [exact Hgone|].
  unfold Load. by rewrite Hio, Hgone.
Qed.

End AutoPrune.

Lemma create_can_prune_its_own_snapshot_witness :
  exists snapshot dir',
    @Create mergeSortSlice toyChecksum noFaults "20241006-153000-000-abcd" 1000 "1.0" "m"
      ["network"] hundredSnapshots twoConfigs = (Ok snapshot, dir')
    /\ SnapID snapshot = "20241006-153000-000-abcd"
    /\ dir' !! "20241006-153000-000-abcd" = None
    /\ Load noFaults dir' "20241006-153000-000-abcd"
       = Err (ErrNotFound "20241006-153000-000-abcd").
Proof.
  apply (@create_can_prune_its_own_snapshot mergeSortSlice toyChecksum noFaults).
  - exact faultFree_noFaults.
  - vm_compute. reflexivity.
  - vm_compute. lia.
  - apply (bool_decide_unpack _). vm_compute. reflexivity.
Defined.

Lemma listEntries_filter io (dir : SnapDir) (ids : list string) (es : list (string * Entry)) :
  listEntries io dir (filter (fun kv => kv.1 ∉ ids) es)
  = filter (fun s => SnapID s ∉ ids) (listEntries io dir es).
Proof.
  induction es as [|[name e] es IH]; [done|].
  assert (forall s, Load io dir name = Ok s -> SnapID s = name) as HL.
  { intros s. unfold Load. destruct (fault io OpStat name); [done|].
    destruct (dir !! name) as [[|m f]|]; try done.
    destruct (fault io OpOpen _); [done|]. destruct m; try done.
    by inversion 1. }
  destruct (decide (name ∈ ids)) as [Hin|Hnin].
  - rewrite filter_cons_False by (simpl; by intros ?). rewrite IH. simpl.
    destruct e as [|meta files]; [done|].
    destruct (fault io OpStat _); [done|].
    destruct meta; [done| |];
      (destruct (Load io dir name) as [s|] eqn:E; [|done];
       rewrite filter_cons_False; [done|]; rewrite (HL s eq_refl); by intros ?).
  - rewrite filter_cons_True by done. simpl. rewrite IH.
    destruct e as [|meta files]; [done|].
    destruct (fault io OpStat _); [done|].
    destruct meta; [done| |];
      (destruct (Load io dir name) as [s|] eqn:E; [|done];
       rewrite filter_cons_True; [done|]; by rewrite (HL s eq_refl)).
Qed.

Lemma map_to_list_removeAll (dir : SnapDir) (ids : list string) :
  map_to_list (removeAll dir ids) ≡ₚ filter (fun kv => kv.1 ∉ ids) (map_to_list dir).
Proof.
  apply NoDup_Permutation.
  - apply NoDup_map_to_list.
  - apply NoDup_filter, NoDup_map_to_list.
  - intros [k e]. rewrite elem_of_map_to_list, list_elem_of_filter, elem_of_map_to_list.
    rewrite SnapshotProps.lookup_removeAll. simpl.
    destruct (decide (k ∈ ids)); split; try done; by intros [? ?].
Qed.

Section PruneAgain.
Context {ss : SortSlice}.

(** X26: after [Prune] the directory lists exactly the snapshots kept.
    On a disk on which listing and removal work and for [keep] at least 0,
    [List] after [Prune] returns the first [keep] snapshots of the listing
    before (in some order allowed for equal timestamps), so at most [keep]
    of them, and a second [Prune] with the same [keep] deletes nothing. *)
Theorem prune_then_list (io : Faults) (keep : Z) (dir : SnapDir) :
  (0 <= keep)%Z ->
  fault io OpMkdir "" = false -> fault io OpReadDir "" = false ->
  (forall id, fault io OpRemove id = false) ->
  exists listing listing',
    List io dir = Ok listing
    /\ List io (Prune io keep dir).2 = Ok listing'
    /\ listing' ≡ₚ take (Z.to_nat keep) listing
    /\ (Z.of_nat (List.length listing') <= keep)%Z
    /\ Prune io keep (Prune io keep dir).2 = (PruneReturn [] None, (Prune io keep dir).2).
Proof.
  intros Hkeep Hmk Hrd Hrm.
  destruct (SnapshotProps.List_no_faults io dir Hmk Hrd) as (HL & Hperm & _ & Hnodup).
  set (listing := sortNewestFirst (listEntries io dir (map_to_list dir))) in *.
  set (old := drop (Z.to_nat keep) listing).
  assert ((Prune io keep dir).2 = removeAll dir (SnapID <$> old)) as Hdir.
  { unfold Prune. rewrite HL.
    destruct (Z.leb_spec (Z.of_nat (List.length listing)) keep) as [Hle|Hgt].
    - assert (old = []) as ->; [|done]. unfold old. apply drop_ge. lia.
    - destruct (Z.ltb_spec keep 0) as [|_]; [lia|].
      by rewrite SnapshotProps.deleteOld_no_faults. }
  rewrite Hdir. set (dir' := removeAll dir (SnapID <$> old)).
  destruct (SnapshotProps.List_no_faults io dir' Hmk Hrd) as (HL' & Hperm' & _ & _).
  set (listing' := sortNewestFirst (listEntries io dir' (map_to_list dir'))) in *.
  assert (listing' ≡ₚ take (Z.to_nat keep) listing) as Hkept.
  { rewrite Hperm'.
    rewrite (listEntries_perm io dir' (map_to_list dir') _
               (map_to_list_removeAll dir (SnapID <$> old))).
    rewrite (listEntries_ext io dir dir').
    2:{ intros name e [Hnin _]%list_elem_of_filter. simpl in Hnin. unfold dir'.
        rewrite SnapshotProps.lookup_removeAll. by rewrite decide_False. }
    rewrite listEntries_filter. rewrite <- Hperm.
    rewrite <- (take_drop (Z.to_nat keep) listing) at 1. fold old.
    rewrite <- (take_drop (Z.to_nat keep) listing), fmap_app in Hnodup. fold old in Hnodup.
    apply NoDup_app in Hnodup as (_ & Hdisj & _).
    rewrite filter_app.
    assert (filter (fun s => SnapID s ∉ SnapID <$> old) old = []) as ->.
    { assert (forall l : list Snapshot,
                 (forall s, s ∈ l -> SnapID s ∈ SnapID <$> old) ->
                 filter (fun s => SnapID s ∉ SnapID <$> old) l = []) as Hnone.
      { induction l as [|s l IH]; intros Hl; [done|].
        rewrite filter_cons_False by (intros Hnot; apply Hnot, Hl, list_elem_of_here).
        apply IH. intros s' Hs'. apply Hl. by apply list_elem_of_further. }
      apply Hnone. intros s Hs. by apply list_elem_of_fmap_2. }
    rewrite app_nil_r.
    assert (forall l : list Snapshot,
               (forall s, s ∈ l -> SnapID s ∉ SnapID <$> old) ->
               filter (fun s => SnapID s ∉ SnapID <$> old) l = l) as Hall.
    { induction l as [|s l IH]; intros Hl; [done|].
      rewrite filter_cons_True by apply Hl, list_elem_of_here.
      f_equal. apply IH. intros s' Hs'. apply Hl. by apply list_elem_of_further. }
    rewrite Hall; [done|]. intros s Hs. apply Hdisj. by apply list_elem_of_fmap_2. }
  assert (Z.of_nat (List.length listing') <= keep)%Z as Hlen.
  { rewrite Hkept, length_take. lia. }
  exists listing, listing'. split; [exact HL|]. split; [exact HL'|].
  split; [exact Hkept|]. split; [exact Hlen|].
  unfold Prune. rewrite HL'.
  by destruct (Z.leb_spec (Z.of_nat (List.length listing')) keep) as [_|]; [|lia].
Qed.

End PruneAgain.

Lemma prune_then_list_witness :
  exists listing',
    @List mergeSortSlice noFaults (@Prune mergeSortSlice noFaults 1 threeSnapshots).2
    = Ok listing'
    /\ SnapID <$> listing' = ["20241006-153000-000-cccc"]
    /\ @Prune mergeSortSlice noFaults 1 (@Prune mergeSortSlice noFaults 1 threeSnapshots).2
       = (PruneReturn [] None, (@Prune mergeSortSlice noFaults 1 threeSnapshots).2).
Proof.
  destruct (@prune_then_list mergeSortSlice noFaults 1 threeSnapshots)
    as (listing & listing' & _ & HL' & _ & _ & Hagain);
    [lia | reflexivity | reflexivity | reflexivity |].
  exists listing'. split; [exact HL'|]. split; [|exact Hagain].
  assert (@List mergeSortSlice noFaults (@Prune mergeSortSlice noFaults 1 threeSnapshots).2
          = Ok [{| SnapID := "20241006-153000-000-cccc";
                   SnapMetadata := metaOf "20241006-153000-000-cccc" 300 [] ∅;
                   Path := "20241006-153000-000-cccc" |}]) as Hl
    by (vm_compute; reflexivity).
  rewrite Hl in HL'. injection HL' as <-. reflexivity.
Defined.

Section RestoreFails.
Variable sha256hex : string -> string.

Lemma restoreConfigs_stops io files (done rest : list string) (failed : string) :
  forall active,
  (forall name, name ∈ done -> is_Some (files !! name) /\ fault io OpCopy name = false) ->
  files !! failed = None \/ fault io OpCopy failed = true ->
  exists active',
    restoreConfigs io files (done ++ failed :: rest) active
    = (Err (ErrRestoreConfig failed), active')
    /\ (forall name, name ∈ done -> active' !! name = files !! name)
    /\ (forall name, name ∉ done -> active' !! name = active !! name).
Proof.
  induction done as [|configName done IH]; intros active Hdone Hfailed.
  - exists active. simpl. split.
    + unfold CopyFileAtomic. destruct Hfailed as [-> | Hf]; [done|].
      rewrite Hf. by destruct (files !! failed).
    + split; [|done]. intros name Hin. by apply elem_of_nil in Hin.
  - simpl. destruct (Hdone configName) as [[data Hdata] Hcopy]; [apply list_elem_of_here|].
    unfold CopyFileAtomic at 1. rewrite Hdata, Hcopy.
    destruct (IH (<[configName := data]> active)) as (active' & -> & Hin & Hout).
    { intros name Hname. apply Hdone. by apply list_elem_of_further. }
    { exact Hfailed. }
    exists active'. split; [done|]. split.
    + intros name Hname. destruct (decide (name ∈ done)) as [Hd|Hd]; [by apply Hin|].
      apply elem_of_cons in Hname as [->|?]; [|done].
      rewrite (Hout configName Hd), Hdata. apply lookup_insert_eq.
    + intros name Hname. rewrite not_elem_of_cons in Hname. destruct Hname as [Hne Hnd].
      rewrite (Hout name Hnd). by apply lookup_insert_ne.
Qed.

(** X17: [Restore] is not atomic across files.  When the copy of one
    configuration of a valid snapshot fails, [Restore] returns the error for
    that configuration; the configurations listed before it have already
    been replaced by their saved content, and all other files are as they
    were. *)
Theorem restore_stops_at_first_failed_copy (io : Faults) (dir : SnapDir) (active : Files)
    (id : string) (snapshot : Snapshot) (done rest : list string) (failed : string) :
  Load io dir id = Ok snapshot ->
  ValidateSnapshot sha256hex io dir snapshot = Ok tt ->
  Configs (SnapMetadata snapshot) = done ++ failed :: rest ->
  (forall name, name ∈ done -> fault io OpCopy name = false) ->
  fault io OpCopy failed = true ->
  exists active',
    Restore sha256hex io dir active id = (Err (ErrRestoreConfig failed), active')
    /\ (forall name, name ∈ done ->
          active' !! name = snapFiles dir (Path snapshot) !! name)
    /\ (forall name, name ∉ done -> active' !! name = active !! name).
Proof.
  intros Hload Hvalid Hconfigs Hdone Hfailed.
  unfold Restore. rewrite Hload, Hvalid, Hconfigs.
  apply restoreConfigs_stops; [|by right].
  intros name Hin. split; [|by apply Hdone].
  unfold ValidateSnapshot in Hvalid. rewrite Hconfigs in Hvalid.
  assert (name ∈ done ++ failed :: rest) as Hin' by (apply elem_of_app; by left).
  clear -Hvalid Hin'. revert Hvalid.
  generalize (done ++ failed :: rest) Hin'. clear Hin'.
  intros configs Hin. induction configs as [|c configs IH]; [by apply elem_of_nil in Hin|].
  simpl. destruct (fault io OpStat _); [done|].
  destruct (snapFiles dir (Path snapshot) !! c) as [data|] eqn:Hc; [|done].
  destruct (verifyChecksum _ _ _ _ _ _); [|done].
  destruct (fault io OpOpen _); [done|].
  destruct (Uci.Parse data); [|done].
  intros Hrest. apply elem_of_cons in Hin as [->|Hin]; [by exists data | by apply IH].
Qed.

End RestoreFails.

Lemma restore_stops_at_first_failed_copy_witness :
  exists active',
    Restore toyChecksum copyFirewallFails twoConfigsSnapshot ∅ "20241006-153000-000-abcd"
    = (Err (ErrRestoreConfig "firewall"), active')
    /\ active' !! "network" = Some goodNetwork
    /\ active' !! "firewall" = None.
Proof.
  destruct (restore_stops_at_first_failed_copy toyChecksum copyFirewallFails
              twoConfigsSnapshot ∅ "20241006-153000-000-abcd"
              {| SnapID := "20241006-153000-000-abcd";
                 SnapMetadata :=
                   metaOf "20241006-153000-000-abcd" 100 ["network"; "firewall"]
                     {[ "network" := toyChecksum goodNetwork;
                        "firewall" := toyChecksum ("config defaults" +:+ Uci.nl) ]};
                 Path := "20241006-153000-000-abcd" |}
              ["network"] [] "firewall") as (active' & Hr & Hin & Hout).
  - vm_compute; reflexivity.
  - vm_compute; reflexivity.
  - reflexivity.
  - intros name Hin. apply list_elem_of_singleton in Hin as ->. reflexivity.
  - reflexivity.
  - exists active'. split; [exact Hr|]. split.
    + rewrite Hin by apply list_elem_of_here. vm_compute. reflexivity.
    + rewrite Hout; [reflexivity|]. intros Hx. by apply list_elem_of_singleton in Hx.
Defined.

End SnapshotMoreProps.

Module TransactionMoreProps.
Import Os Transaction TransactionSpec TransactionMoreSpec.

Section Engine.
Context {mr : MapRange} {ss : SnapshotStore.SortSlice}.
Variable Sys : Type.
Variable sha256hex : string -> string.

#[local] Abbreviation World := (Transaction.World Sys).

Lemma applyLoop_err env ctx changed order : forall tick (w w' : World) e,
  applyLoop sha256hex env ctx tick changed order w = (Some e, w') ->
  GetState w' = StateFailed.
Proof.
  induction order as [|name more IH]; intros tick w w' e H; simpl in H; [discriminate|].
  destruct (ctx tick); [by injection H as _ <-|].
  destruct (negb _); [by eapply IH|].
  destruct (applierRegistry (mgr w) !! name) as [applier|]; [|by eapply IH].
  destruct (ConfigStore.Load _ _ _ _) as [cfg|e1]; [|by injection H as _ <-].
  destruct (Apply applier cfg (sys w)) as [[msg|] sys1]; [by injection H as _ <-|].
  simpl in H.
  destruct (Validate applier sys1) as [[msg|] sys2]; [by injection H as _ <-|].
  by eapply IH.
Qed.

(** X18: a [Commit] that fails after its two guards leaves the engine in
    [StateFailed], whatever failed (the snapshot, the write of the files,
    the context, a load, an [Apply] or a [Validate]) and whether or not the
    rollback that follows a failed applier succeeded.  Only the two guards,
    "transaction already in progress" and "no changes to commit", return
    without touching the state. *)
Theorem failed_commit_ends_failed (env : Env) (message : string)
    (confirmTimeout overallTimeout : Z) (w w' : World) (e : Error) :
  Commit sha256hex env message confirmTimeout overallTimeout w = (Err e, w') ->
  (forall s, e <> ErrBusy s) -> e <> ErrNoChanges ->
  GetState w' = StateFailed.
Proof.
  unfold Commit. cbv zeta.
  destruct (negb (bool_decide (state (mgr w) = StateIdle))).
  { intros [= <- _] Hbusy _. by destruct (Hbusy (state (mgr w))). }
  destruct (negb (ConfigStore.HasChanges (configManager w))).
  { by intros [= <- _] _ Hno. }
  match goal with |- context [SnapshotStore.Create ?a ?b ?c ?d ?e ?f ?g ?h ?i] =>
    destruct (SnapshotStore.Create a b c d e f g h i) as [[snapshot|e1] snaps] end.
  2:{ intros [= _ <-] _ _. unfold GetState.
      match goal with |- context [updateTxRecord ?e ?f ?a ?x] =>
        by destruct (TransactionProps.updateTxRecord_frame _ e f a x) as (-> & _) end. }
  match goal with |- context [ConfigStore.Commit ?a ?b ?c] =>
    destruct (ConfigStore.Commit a b c) as [[[[]|e2] cm] act] end.
  2:{ by intros [= _ <-] _ _. }
  match goal with |- context [applyLoop ?h ?a ?b ?c ?d ?e ?f] =>
    destruct (applyLoop h a b c d e f) as [[e3|] w4] eqn:Hloop end.
  - intros [= _ <-] _ _. by apply applyLoop_err in Hloop.
  - by destruct (0 <? confirmTimeout)%Z.
Qed.

Lemma callsOf_app (t1 t2 : list Effect) : callsOf (t1 ++ t2) = callsOf t1 ++ callsOf t2.
Proof.
  induction t1 as [|[] t1 IH]; simpl; try done; by rewrite IH.
Qed.

Lemma eventsOf_app (t1 t2 : list Effect) : eventsOf (t1 ++ t2) = eventsOf t1 ++ eventsOf t2.
Proof.
  induction t1 as [|[] t1 IH]; simpl; try done; by rewrite IH.
Qed.

(** [updateTxRecord] sets the row of the transaction and records effects
    that are neither calls of appliers nor events. *)
Lemma updateTxRecord_shape env f audit (w : World) :
  callsOf audit = [] -> eventsOf audit = [] ->
  exists r extra,
    updateTxRecord env f audit w = emit extra (withMgr (setTxRecord r) w)
    /\ callsOf extra = [] /\ eventsOf extra = [].
Proof.
  intros Hc He. unfold updateTxRecord. destruct (dbOpen env).
  - destruct (currentTxRecord (mgr w)) as [r|] eqn:Hr.
    + exists (Some (f r)), (EffDbUpdate (f r) :: audit). by repeat split.
    + exists None, []. split; [|done]. destruct w as [m ? ? ? ? ? ? ? ?].
      destruct m. simpl in *. subst. unfold emit, withMgr, setTxRecord. simpl.
      by rewrite app_nil_r.
  - exists (currentTxRecord (mgr w)), []. split; [|done].
    destruct w as [m ? ? ? ? ? ? ? ?]. destruct m.
    unfold emit, withMgr, setTxRecord. simpl. by rewrite app_nil_r.
Qed.

Lemma emit_nil (w : World) : emit [] w = w.
Proof. destruct w. unfold emit. simpl. by rewrite app_nil_r. Qed.

Lemma emit_if_shape (b : bool) (l : list Effect) (w : World) :
  callsOf l = [] -> eventsOf l = [] ->
  exists extra,
    (if b then emit l w else w) = emit extra w /\ callsOf extra = [] /\ eventsOf extra = [].
Proof.
  intros Hc He. destruct b.
  - by exists l.
  - exists []. by rewrite emit_nil.
Qed.

Lemma applyLoop_ok env ctx changed order : forall tick (w w' : World),
  applyLoop sha256hex env ctx tick changed order w = (None, w') ->
  mgr w' = mgr w /\ configManager w' = configManager w /\ active w' = active w
  /\ snapshots w' = snapshots w
  /\ exists new,
       trace w' = trace w ++ new
       /\ callsOf new
          = applyThenValidate (applied changed (applierRegistry (mgr w)) order)
       /\ eventsOf new = [].
Proof.
  induction order as [|name more IH]; intros tick w w' H; simpl in H.
  - injection H as <-. repeat split. exists []. by rewrite app_nil_r.
  - destruct (ctx tick); [discriminate|].
    unfold applied. cbn [List.filter]. fold (applied changed (applierRegistry (mgr w)) more).
    destruct (existsb (String.eqb name) changed); simpl in H |- *; [|by eapply IH].
    destruct (applierRegistry (mgr w) !! name) as [applier|] eqn:Hreg.
    2:{ rewrite bool_decide_eq_false_2 by (by intros [? ?]). by eapply IH. }
    rewrite bool_decide_eq_true_2 by by eexists.
    destruct (ConfigStore.Load _ _ _ _) as [cfg|e]; [|discriminate].
    destruct (Apply applier cfg (sys w)) as [[msg|] sys1]; [discriminate|].
    simpl in H.
    destruct (Validate applier sys1) as [[msg|] sys2]; [discriminate|].
    apply IH in H as (-> & -> & -> & -> & new & -> & Hcalls & Hevents). simpl.
    repeat split. exists (EffApply name cfg :: EffValidate name :: new).
    split; [by rewrite <- !app_assoc|]. simpl. by rewrite Hcalls, Hevents.
Qed.

(** X19: what a successful [Commit] does to its surroundings, in order.
    The appliers called are exactly those of the apply order whose
    configuration is among the staged ones and that are registered; they
    are called in the apply order (not the order of the changes), each with
    [Apply] and then [Validate] before the next one.  The events published
    are "transaction started", "snapshot created" and, when there is no
    confirmation window, "transaction completed"; no other event is
    published. *)
Theorem commit_effects_in_order (env : Env) (message : string)
    (confirmTimeout overallTimeout : Z) (w w' : World) :
  Commit sha256hex env message confirmTimeout overallTimeout w = (Ok tt, w') ->
  exists new,
    trace w' = trace w ++ new
    /\ callsOf new
       = applyThenValidate
           (applied (ConfigStore.GetChanges (configManager w))
              (applierRegistry (mgr w)) (applyOrder (mgr w)))
    /\ eventsOf new
       = [EventTransactionStarted; EventSnapshotCreated]
         ++ (if (0 <? confirmTimeout)%Z then [] else [EventTransactionCompleted]).
Proof.
  unfold Commit. cbv zeta.
  destruct (negb (bool_decide (state (mgr w) = StateIdle))); [discriminate|].
  destruct (negb (ConfigStore.HasChanges (configManager w))); [discriminate|].
  match goal with |- context [if dbOpen env then emit ?l ?x else ?x] =>
    destruct (emit_if_shape (dbOpen env) l x eq_refl eq_refl)
      as (extra0 & -> & Hc0 & He0) end.
  match goal with |- context [updateTxRecord ?e ?f ?a ?x] =>
    destruct (updateTxRecord_shape e f a x eq_refl eq_refl)
      as (r1 & extra1 & -> & Hc1 & He1) end.
  simpl.
  match goal with |- context [SnapshotStore.Create ?a ?b ?c ?d ?e ?f ?g ?h ?i] =>
    destruct (SnapshotStore.Create a b c d e f g h i) as [[snapshot|e1] snaps] end;
    [|discriminate].
  match goal with |- context [updateTxRecord ?e ?f ?a ?x] =>
    destruct (updateTxRecord_shape e f a x eq_refl eq_refl)
      as (r2 & extra2 & -> & Hc2 & He2) end.
  simpl.
  match goal with |- context [ConfigStore.Commit ?a ?b ?c] =>
    destruct (ConfigStore.Commit a b c) as [[[[]|e2] cm] act] end; [|discriminate].
  match goal with |- context [applyLoop ?h ?a ?b ?c ?d ?e ?f] =>
    destruct (applyLoop h a b c d e f) as [[e3|] w4] eqn:Hloop end; [discriminate|].
  apply applyLoop_ok in Hloop as (Hm & _ & _ & _ & new & Htrace & Hcalls & Hevents).
  simpl in Hm, Htrace, Hcalls.
  destruct (0 <? confirmTimeout)%Z.
  - intros [= <-]. simpl. rewrite Htrace.
    eexists. split; [by rewrite <- !app_assoc|].
    rewrite !callsOf_app, !eventsOf_app, ?Hc0, ?Hc1, ?Hc2, ?He0, ?He1, ?He2, ?Hcalls, ?Hevents.
    simpl. by rewrite ?app_nil_r.
  - match goal with |- context [updateTxRecord ?e ?f ?a ?x] =>
      destruct (updateTxRecord_shape e f a x eq_refl eq_refl)
        as (r3 & extra3 & -> & Hc3 & He3) end.
    intros [= <-]. simpl. rewrite Htrace.
    eexists. split; [by rewrite <- !app_assoc|].
    rewrite !callsOf_app, !eventsOf_app, ?Hc0, ?Hc1, ?Hc2, ?Hc3, ?He0, ?He1, ?He2, ?He3,
      ?Hcalls, ?Hevents.
    simpl. by rewrite ?app_nil_r.
Qed.

End Engine.

Section Restoring.
Context {mr : MapRange} {ss : SnapshotStore.SortSlice}.
Variable Sys : Type.
Variable sha256hex : string -> string.

#[local] Abbreviation World := (Transaction.World Sys).

(** What a successful [Commit] leaves on the disk and in the manager. *)
Lemma commit_ok_disk env message confirmTimeout overallTimeout (w w' : World) :
  Commit sha256hex env message confirmTimeout overallTimeout w = (Ok tt, w') ->
  exists snapshot cm,
    SnapshotStore.Create sha256hex (io env) (snapshotID env) (now env) (version env)
      message (ConfigStore.GetChanges (configManager w)) (snapshots w) (active w)
    = (Ok snapshot, snapshots w')
    /\ ConfigStore.Commit (io env) (configManager w) (active w) = (Ok tt, cm, active w')
    /\ configManager w' = cm
    /\ currentSnapshot (mgr w') = Some snapshot.
Proof.
  unfold Commit. cbv zeta.
  destruct (negb (bool_decide (state (mgr w) = StateIdle))); [discriminate|].
  destruct (negb (ConfigStore.HasChanges (configManager w))); [discriminate|].
  match goal with |- context [if dbOpen env then emit ?l ?x else ?x] =>
    destruct (emit_if_shape Sys (dbOpen env) l x eq_refl eq_refl)
      as (extra0 & -> & Hc0 & He0) end.
  match goal with |- context [updateTxRecord ?e ?f ?a ?x] =>
    destruct (updateTxRecord_shape Sys e f a x eq_refl eq_refl)
      as (r1 & extra1 & -> & Hc1 & He1) end.
  simpl.
  match goal with |- context [SnapshotStore.Create ?a ?b ?c ?d ?e ?f ?g ?h ?i] =>
    destruct (SnapshotStore.Create a b c d e f g h i) as [[snapshot|e1] snaps] end;
    [|discriminate].
  match goal with |- context [updateTxRecord ?e ?f ?a ?x] =>
    destruct (updateTxRecord_shape Sys e f a x eq_refl eq_refl)
      as (r2 & extra2 & -> & Hc2 & He2) end.
  simpl.
  destruct (ConfigStore.Commit (io env) (configManager w) (active w))
    as [[[[]|e2] cm] act]; [|discriminate].
  match goal with |- context [applyLoop ?h ?a ?b ?c ?d ?e ?f] =>
    destruct (applyLoop h a b c d e f) as [[e3|] w4] eqn:Hloop end; [discriminate|].
  apply applyLoop_ok in Hloop as (Hm & Hcm & Hact & Hsn & _).
  simpl in Hm, Hcm, Hact, Hsn.
  destruct (0 <? confirmTimeout)%Z.
  - intros [= <-]. simpl. rewrite Hm, Hcm, Hact, Hsn. simpl. by exists snapshot, cm.
  - match goal with |- context [updateTxRecord ?e ?f ?a ?x] =>
      destruct (updateTxRecord_shape Sys e f a x eq_refl eq_refl)
        as (r3 & extra3 & -> & Hc3 & He3) end.
    intros [= <-]. simpl. rewrite Hm, Hcm, Hact, Hsn. simpl. by exists snapshot, cm.
Qed.

(** The files after a successful rollback to the remembered snapshot. *)
Lemma rollbackInternal_files env ctx tick (w w' : World) snap :
  currentSnapshot (mgr w) = Some snap ->
  rollbackInternal sha256hex env ctx tick w = (Ok tt, w') ->
  exists loaded,
    SnapshotStore.Load (io env) (snapshots w) (SnapshotStore.SnapID snap) = Ok loaded
    /\ (forall name,
          name ∈ SnapshotStore.Configs (SnapshotStore.SnapMetadata loaded) ->
          active w' !! name
          = SnapshotStore.snapFiles (snapshots w) (SnapshotStore.SnapID snap) !! name)
    /\ (forall name,
          name ∉ SnapshotStore.Configs (SnapshotStore.SnapMetadata loaded) ->
          active w' !! name = active w !! name).
Proof.
  intros Hsnap. unfold rollbackInternal. rewrite Hsnap.
  destruct (SnapshotStore.Restore _ _ _ _ _) as [[[]|e] active'] eqn:HR; simpl in HR;
    [|discriminate].
  apply TransactionProps.Restore_ok in HR as (loaded & HL & Hin & Hout).
  destruct (reapplyLoop _ _ _ _ _ _) as [[[|e es]|] w4] eqn:Hloop; try discriminate.
  apply TransactionProps.reapplyLoop_frame in Hloop as (_ & _ & Hact & _).
  simpl in Hact.
  match goal with |- context [updateTxRecord ?e ?f ?a ?x] =>
    destruct (updateTxRecord_shape Sys e f a x eq_refl eq_refl)
      as (r & extra & -> & _ & _) end.
  intros [= <-]. simpl. rewrite Hact. by exists loaded.
Qed.

(** X20: rolling back a commit brings back the files the commit replaced,
    and only those.  Take a successful [Commit] on a disk without faults
    (fresh snapshot identifier, fewer than 100 entries in the snapshot
    directory) followed by a successful [Rollback].  Every staged
    configuration that had a file before the commit has its old content
    again.  Every other file is as the commit left it; in particular a
    configuration that the commit created stays on the disk with its new
    content (the second part, for a store without clash of temporary
    names). *)
Theorem commit_then_rollback_restores (env env' : Env) (message : string)
    (confirmTimeout overallTimeout : Z) (w w1 w2 : World) :
  SnapshotMoreSpec.faultFree (io env) ->
  snapshots w !! snapshotID env = None ->
  (size (snapshots w) < 100)%nat ->
  Commit sha256hex env message confirmTimeout overallTimeout w = (Ok tt, w1) ->
  Rollback sha256hex env' w1 = (Ok tt, w2) ->
  (forall name,
      active w2 !! name
      = if decide (is_Some (ConfigStore.staged (configManager w) !! name)
                   /\ is_Some (active w !! name))
        then active w !! name else active w1 !! name)
  /\ (ConfigStorePathSpec.noTmpClash (configManager w) ->
      forall name doc,
        ConfigStore.staged (configManager w) !! name = Some doc ->
        active w !! name = None ->
        active w2 !! name = Some (Uci.Write doc)).
Proof.
  intros Hio Hfresh Hsize Hcommit Hrollback.
  destruct (commit_ok_disk _ _ _ _ _ _ Hcommit) as (snapshot & cm & Hcreate & Hcm & _ & Hsnap).
  destruct (SnapshotMoreProps.Create_faultFree sha256hex (io env) (snapshotID env) (now env)
              (version env) message (ConfigStore.GetChanges (configManager w))
              (snapshots w) (active w) Hio Hfresh Hsize)
    as (files & checksums & Hcreate' & Hsaved).
  rewrite Hcreate in Hcreate'. injection Hcreate' as Hsnapshot Hsnaps.
  destruct (rollbackInternal_files env' Background 0 w1 w2 snapshot Hsnap Hrollback)
    as (loaded & Hload & Hin & Hout).
  rewrite Hsnapshot in Hload, Hin. simpl in Hload, Hin.
  assert (SnapshotStore.snapFiles (snapshots w1) (snapshotID env) = files) as Hsf.
  { unfold SnapshotStore.snapFiles. by rewrite Hsnaps, lookup_insert_eq. }
  assert (SnapshotStore.Configs (SnapshotStore.SnapMetadata loaded)
          = SnapshotMoreSpec.existingConfigs (active w)
              (ConfigStore.GetChanges (configManager w))) as Hconfigs.
  { revert Hload. unfold SnapshotStore.Load. rewrite Hsnaps, lookup_insert_eq.
    destruct (fault (io env') OpStat _); [done|].
    destruct (fault (io env') OpOpen _); [done|]. by intros [= <-]. }
  rewrite Hconfigs in Hin, Hout. rewrite Hsf in Hin.
  assert (forall name,
             name ∈ SnapshotMoreSpec.existingConfigs (active w)
                      (ConfigStore.GetChanges (configManager w))
             <-> is_Some (ConfigStore.staged (configManager w) !! name)
                 /\ is_Some (active w !! name)) as Hexisting.
  { intros name. rewrite SnapshotMoreProps.elem_of_existingConfigs.
    unfold ConfigStore.GetChanges. by rewrite ConfigStoreMoreProps.range_map_keys. }
  assert (forall name,
             active w2 !! name
             = if decide (is_Some (ConfigStore.staged (configManager w) !! name)
                          /\ is_Some (active w !! name))
               then active w !! name else active w1 !! name) as Hfilesafter.
  { intros name. destruct (decide _) as [Hyes|Hno].
    - apply Hexisting in Hyes. rewrite (Hin name Hyes). by destruct (Hsaved name Hyes).
    - apply Hout. by rewrite Hexisting. }
  split; [exact Hfilesafter|].
  intros Hclash name doc Hdoc Hnone. rewrite Hfilesafter.
  rewrite decide_False.
  2:{ intros [_ [x Hx]]. congruence. }
  destruct (ConfigStoreMoreProps.Commit_disk _ _ _ _ _ Hclash Hcm) as (_ & Hfiles & _).
  by destruct (Hfiles name doc Hdoc).
Qed.

End Restoring.

Lemma commit_then_rollback_restores_witness :
  exists w1 w2,
    @Commit canonical_range SnapshotSpec.mergeSortSlice nat SnapshotSpec.toyChecksum
      exampleEnv "msg" 0 0 twoStagedWorld = (Ok tt, w1)
    /\ @Rollback SnapshotSpec.mergeSortSlice nat SnapshotSpec.toyChecksum exampleEnv w1
       = (Ok tt, w2)
    /\ active w1 !! "network" <> Some ConfigStoreSpec.networkText
    /\ active w2 !! "network" = Some ConfigStoreSpec.networkText
    /\ active w2 !! "firewall" = Some ("config defaults" +:+ Uci.nl).
Proof.
  set (res := @Commit canonical_range SnapshotSpec.mergeSortSlice nat
                SnapshotSpec.toyChecksum exampleEnv "msg" 0 0 twoStagedWorld).
  assert (res.1 = Ok tt) as H1 by (vm_compute; reflexivity).
  assert (res = (Ok tt, res.2)) as Hres by (rewrite <- H1; apply surjective_pairing).
  set (res2 := @Rollback SnapshotSpec.mergeSortSlice nat SnapshotSpec.toyChecksum
                 exampleEnv res.2).
  assert (res2.1 = Ok tt) as H2 by (vm_compute; reflexivity).
  assert (res2 = (Ok tt, res2.2)) as Hres2 by (rewrite <- H2; apply surjective_pairing).
  destruct (@commit_then_rollback_restores canonical_range SnapshotSpec.mergeSortSlice nat
              SnapshotSpec.toyChecksum exampleEnv exampleEnv "msg" 0 0
              twoStagedWorld res.2 res2.2) as [Hfiles Hnew].
  - exact SnapshotMoreProps.faultFree_noFaults.
  - reflexivity.
  - vm_compute. lia.
  - exact Hres.
  - exact Hres2.
  - exists res.2, res2.2. split; [exact Hres|]. split; [exact Hres2|]. split; [|split].
    + vm_compute. discriminate.
    + rewrite Hfiles. rewrite decide_True; [reflexivity|].
      split; eexists; vm_compute; reflexivity.
    + rewrite Hfiles. rewrite decide_False.
      * vm_compute. reflexivity.
      * intros [_ [x Hx]]. vm_compute in Hx. discriminate Hx.
Defined.

Section StaleTimer.
Context {mr : MapRange} {ss : SnapshotStore.SortSlice}.
Variable Sys : Type.
Variable sha256hex : string -> string.

#[local] Abbreviation World := (Transaction.World Sys).

(** A rollback leaves the timer goroutines and their channels alone. *)
Lemma rollbackInternal_timers env ctx tick (w : World) :
  timers (rollbackInternal sha256hex env ctx tick w).2 = timers w
  /\ closedChans (rollbackInternal sha256hex env ctx tick w).2 = closedChans w.
Proof.
  unfold rollbackInternal.
  assert (forall snap (w1 : World),
             timers w1 = timers w -> closedChans w1 = closedChans w ->
             let w2 := publish EventRollbackStarted w1 in
             timers (match SnapshotStore.Restore sha256hex (io env) (snapshots w2) (active w2)
                             (SnapshotStore.SnapID snap) with
                     | (Err e, active') =>
                         (Err (ErrRestoreSnapshot e),
                          withDisk (configManager w2) active' (snapshots w2) w2)
                     | (Ok _, active') =>
                         let w3 := withDisk (configManager w2) active' (snapshots w2) w2 in
                         match reapplyLoop env ctx tick
                                 (SnapshotStore.Configs (SnapshotStore.SnapMetadata snap))
                                 [] w3 with
                         | (None, w4) => (Err ErrContext, w4)
                         | (Some (e :: es), w4) =>
                             (Err (ErrRollbackPartial (e :: es)),
                              withMgr (setState StateFailed) w4)
                         | (Some [], w4) =>
                             let w5 :=
                               withMgr (fun m => setPendingConfirm None
                                                   (setCurrentSnapshot None
                                                      (setState StateIdle m))) w4 in
                             let w6 :=
                               updateTxRecord env (setStatus "rolledback")
                                 [EffAudit "transaction.rollback" true] w5 in
                             (Ok tt, publish EventConfigReverted w6)
                         end
                     end).2 = timers w
             /\ closedChans (match SnapshotStore.Restore sha256hex (io env) (snapshots w2)
                                     (active w2) (SnapshotStore.SnapID snap) with
                     | (Err e, active') =>
                         (Err (ErrRestoreSnapshot e),
                          withDisk (configManager w2) active' (snapshots w2) w2)
                     | (Ok _, active') =>
                         let w3 := withDisk (configManager w2) active' (snapshots w2) w2 in
                         match reapplyLoop env ctx tick
                                 (SnapshotStore.Configs (SnapshotStore.SnapMetadata snap))
                                 [] w3 with
                         | (None, w4) => (Err ErrContext, w4)
                         | (Some (e :: es), w4) =>
                             (Err (ErrRollbackPartial (e :: es)),
                              withMgr (setState StateFailed) w4)
                         | (Some [], w4) =>
                             let w5 :=
                               withMgr (fun m => setPendingConfirm None
                                                   (setCurrentSnapshot None
                                                      (setState StateIdle m))) w4 in
                             let w6 :=
                               updateTxRecord env (setStatus "rolledback")
                                 [EffAudit "transaction.rollback" true] w5 in
                             (Ok tt, publish EventConfigReverted w6)
                         end
                     end).2 = closedChans w) as Hbody.
  { intros snap w1 Ht Hc. cbv zeta.
    destruct (SnapshotStore.Restore _ _ _ _ _) as [[[]|e] active']; [|done].
    destruct (reapplyLoop _ _ _ _ _ _) as [[[|e es]|] w4] eqn:Hloop;
      apply TransactionProps.reapplyLoop_frame in Hloop
        as (_ & _ & _ & _ & Hcl & _ & Htm & _); simpl in Hcl, Htm.
    - match goal with |- context [updateTxRecord ?e ?f ?a ?x] =>
        destruct (updateTxRecord_shape Sys e f a x eq_refl eq_refl)
          as (r & extra & -> & _ & _) end.
      simpl. by rewrite Htm, Hcl.
    - simpl. by rewrite Htm, Hcl.
    - simpl. by rewrite Htm, Hcl. }
  destruct (currentSnapshot (mgr w)) as [snap|].
  - by apply Hbody.
  - destruct (SnapshotStore.GetLatest (io env) (snapshots w)) as [latest|e]; [|done].
    by apply Hbody.
Qed.

(** A successful [Commit] with a confirmation window adds one timer after
    those that are there. *)
Lemma commit_keeps_timers env message confirmTimeout overallTimeout (w w' : World) :
  (0 < confirmTimeout)%Z ->
  Commit sha256hex env message confirmTimeout overallTimeout w = (Ok tt, w') ->
  GetState w' = StatePending
  /\ timers w' = timers w ++ [{| cancelCh := chanCount w; expired := false |}].
Proof.
  intros HT. unfold Commit. cbv zeta.
  destruct (negb (bool_decide (state (mgr w) = StateIdle))); [discriminate|].
  destruct (negb (ConfigStore.HasChanges (configManager w))); [discriminate|].
  match goal with |- context [if dbOpen env then emit ?l ?x else ?x] =>
    destruct (emit_if_shape Sys (dbOpen env) l x eq_refl eq_refl)
      as (extra0 & -> & _ & _) end.
  match goal with |- context [updateTxRecord ?e ?f ?a ?x] =>
    destruct (updateTxRecord_shape Sys e f a x eq_refl eq_refl)
      as (r1 & extra1 & -> & _ & _) end.
  simpl.
  match goal with |- context [SnapshotStore.Create ?a ?b ?c ?d ?e ?f ?g ?h ?i] =>
    destruct (SnapshotStore.Create a b c d e f g h i) as [[snapshot|e1] snaps] end;
    [|discriminate].
  match goal with |- context [updateTxRecord ?e ?f ?a ?x] =>
    destruct (updateTxRecord_shape Sys e f a x eq_refl eq_refl)
      as (r2 & extra2 & -> & _ & _) end.
  simpl.
  destruct (ConfigStore.Commit (io env) (configManager w) (active w))
    as [[[[]|e2] cm] act]; [|discriminate].
  match goal with |- context [applyLoop ?h ?a ?b ?c ?d ?e ?f] =>
    destruct (applyLoop h a b c d e f) as [[e3|] w4] eqn:Hloop end; [discriminate|].
  apply TransactionProps.applyLoop_ok_frame in Hloop as (_ & Htm & Hcc & _).
  simpl in Htm, Hcc.
  rewrite (proj2 (Z.ltb_lt 0 confirmTimeout) HT).
  intros [= <-]. split; [reflexivity|]. simpl. by rewrite Htm, Hcc.
Qed.

(** X24: an explicit [Rollback] does not disarm the confirmation timer,
    and the timer of one transaction can roll back the next.  A timer
    goroutine that waits when [Rollback] is called still waits afterwards
    (its cancel channel is not closed, it is not removed).  If a later
    [Commit] with a confirmation window succeeds, the engine is pending with
    the old timer still armed, and the expiry of the old timer, whenever it
    comes, runs the rollback of the new transaction. *)
Theorem stale_timer_rolls_back_next_commit (envR envC env : Env) (message : string)
    (T overallT : Z) (w w1 wS w2 : World) (i : nat) (t : Timer) (r : result Error unit) :
  timers w !! i = Some t -> expired t = false ->
  Rollback sha256hex envR w = (r, w1) ->
  timers wS = timers w1 ->
  (0 < T)%Z ->
  Commit sha256hex envC message T overallT wS = (Ok tt, w2) ->
  timers w1 !! i = Some t
  /\ closedChans w1 = closedChans w
  /\ GetState w2 = StatePending
  /\ exists w3,
       timerExpire i w2 = Some w3
       /\ timerRun sha256hex env i w3
          = Some (rollbackInternal sha256hex env Background 0 (removeTimer i w2)).2.
Proof.
  intros Ht Hexp Hroll HwS HT Hcommit.
  destruct (rollbackInternal_timers envR Background 0 w) as [Htm Hcl].
  unfold Rollback in Hroll. rewrite Hroll in Htm, Hcl. simpl in Htm, Hcl.
  destruct (commit_keeps_timers _ _ _ _ _ _ HT Hcommit) as [Hpending Htimers].
  assert (timers w2 !! i = Some t) as Ht2.
  { rewrite Htimers, HwS, Htm. by apply lookup_app_l_Some. }
  split; [by rewrite Htm|]. split; [exact Hcl|]. split; [exact Hpending|].
  unfold timerExpire. rewrite Ht2, Hexp. eexists. split; [reflexivity|].
  unfold timerRun. simpl. rewrite list_lookup_insert_eq.
  2:{ by apply lookup_lt_Some in Ht2. }
  simpl. unfold removeTimer at 1 2. simpl.
  rewrite TransactionProps.list_delete_insert.
  unfold GetState in Hpending. rewrite bool_decide_eq_true_2 by exact Hpending.
  reflexivity.
Qed.

End StaleTimer.

Lemma stale_timer_rolls_back_next_commit_witness :
  exists w2 w3 w4,
    @Commit canonical_range SnapshotSpec.mergeSortSlice nat SnapshotSpec.toyChecksum
      secondEnv "second" 5 0 restagedWorld = (Ok tt, w2)
    /\ GetState w2 = StatePending
    /\ timerExpire 0 w2 = Some w3
    /\ @timerRun SnapshotSpec.mergeSortSlice nat SnapshotSpec.toyChecksum secondEnv 0 w3
       = Some w4
    /\ GetState w4 = StateIdle.
Proof.
  set (res := @Commit canonical_range SnapshotSpec.mergeSortSlice nat
                SnapshotSpec.toyChecksum secondEnv "second" 5 0 restagedWorld).
  assert (res.1 = Ok tt) as H1 by (vm_compute; reflexivity).
  assert (res = (Ok tt, res.2)) as Hres by (rewrite <- H1; apply surjective_pairing).
  destruct (@stale_timer_rolls_back_next_commit canonical_range SnapshotSpec.mergeSortSlice
              nat SnapshotSpec.toyChecksum exampleEnv secondEnv secondEnv "second" 5 0
              (pendingWorld okApplier) rolledBackWorld restagedWorld res.2 0%nat
              {| cancelCh := 0; expired := false |}
              (@Rollback SnapshotSpec.mergeSortSlice nat SnapshotSpec.toyChecksum
                 exampleEnv (pendingWorld okApplier)).1)
    as (_ & _ & Hpending & w3 & Hexpire & Hrun).
  - vm_compute. reflexivity.
  - reflexivity.
  - apply surjective_pairing.
  - vm_compute. reflexivity.
  - lia.
  - exact Hres.
  - exists res.2, w3. eexists. split; [exact Hres|]. split; [exact Hpending|].
    split; [exact Hexpire|]. split; [exact Hrun|].
    vm_compute. reflexivity.
Defined.

Section Applied.
Context {mr : MapRange} {ss : SnapshotStore.SortSlice}.
Variable Sys : Type.
Variable sha256hex : string -> string.

#[local] Abbreviation World := (Transaction.World Sys).

(** The documents that the loop of [Commit] hands to the appliers are those
    that [Load] returns for the changed configurations. *)
Lemma applyLoop_loads env ctx changed order : forall tick (w w' : World),
  applyLoop sha256hex env ctx tick changed order w = (None, w') ->
  exists new,
    trace w' = trace w ++ new
    /\ forall name cfg,
         EffApply name cfg ∈ new ->
         name ∈ changed
         /\ ConfigStore.Load (io env) (configManager w) (active w) name = Ok cfg.
Proof.
  induction order as [|name more IH]; intros tick w w' H; simpl in H.
  - injection H as <-. exists []. split; [by rewrite app_nil_r|].
    intros n c Hin. by apply elem_of_nil in Hin.
  - destruct (ctx tick); [discriminate|].
    destruct (existsb (String.eqb name) changed) eqn:Hchanged; simpl in H; [|by eapply IH].
    destruct (applierRegistry (mgr w) !! name) as [applier|]; [|by eapply IH].
    destruct (ConfigStore.Load _ _ _ _) as [cfg|e] eqn:Hload; [|discriminate].
    destruct (Apply applier cfg (sys w)) as [[msg|] sys1]; [discriminate|].
    simpl in H.
    destruct (Validate applier sys1) as [[msg|] sys2]; [discriminate|].
    apply IH in H as (new & -> & Hnew). simpl in *.
    exists (EffApply name cfg :: EffValidate name :: new).
    split; [by rewrite <- !app_assoc|].
    intros n c Hin. apply elem_of_cons in Hin as [[= -> ->]|Hin].
    + split; [|exact Hload].
      apply existsb_exists in Hchanged as (x & Hx%list_elem_of_In & ->%String.eqb_eq).
      exact Hx.
    + apply elem_of_cons in Hin as [[=]|Hin]. by apply Hnew.
Qed.

(** X27: what is applied is what was staged.  In a successful [Commit]
    (staged names that are names of files of the directory, no clash of
    temporary names, files that can be opened) every call of [Apply] is for
    a staged configuration, and when the staged document is made of ASCII
    strings and well formed the applier is handed exactly that document,
    read back from the file that the commit has just written. *)
Theorem appliers_get_staged_documents (env : Env) (message : string)
    (confirmTimeout overallTimeout : Z) (w w' : World) :
  ConfigStorePathSpec.plainNames (configManager w) ->
  ConfigStorePathSpec.noTmpClash (configManager w) ->
  (forall name, fault (io env) OpOpen name = false) ->
  Commit sha256hex env message confirmTimeout overallTimeout w = (Ok tt, w') ->
  exists new,
    trace w' = trace w ++ new
    /\ forall name cfg,
         EffApply name cfg ∈ new ->
         exists doc,
           ConfigStore.staged (configManager w) !! name = Some doc
           /\ (Forall UciEmitSpec.sectionOk doc -> cfg = doc).
Proof.
  intros _ Hclash Hopen. unfold Commit. cbv zeta.
  destruct (negb (bool_decide (state (mgr w) = StateIdle))); [discriminate|].
  destruct (negb (ConfigStore.HasChanges (configManager w))); [discriminate|].
  match goal with |- context [if dbOpen env then emit ?l ?x else ?x] =>
    destruct (emit_if_shape Sys (dbOpen env) l x eq_refl eq_refl)
      as (extra0 & -> & Hc0 & _) end.
  match goal with |- context [updateTxRecord ?e ?f ?a ?x] =>
    destruct (updateTxRecord_shape Sys e f a x eq_refl eq_refl)
      as (r1 & extra1 & -> & Hc1 & _) end.
  simpl.
  match goal with |- context [SnapshotStore.Create ?a ?b ?c ?d ?e ?f ?g ?h ?i] =>
    destruct (SnapshotStore.Create a b c d e f g h i) as [[snapshot|e1] snaps] end;
    [|discriminate].
  match goal with |- context [updateTxRecord ?e ?f ?a ?x] =>
    destruct (updateTxRecord_shape Sys e f a x eq_refl eq_refl)
      as (r2 & extra2 & -> & Hc2 & _) end.
  simpl.
  destruct (ConfigStore.Commit (io env) (configManager w) (active w))
    as [[[[]|e2] cm] act] eqn:Hcommit; [|discriminate].
  destruct (ConfigStoreMoreProps.Commit_disk _ _ _ _ _ Hclash Hcommit)
    as (Hstaged & Hfiles & _).
  match goal with |- context [applyLoop ?h ?a ?b ?c ?d ?e ?f] =>
    destruct (applyLoop h a b c d e f) as [[e3|] w4] eqn:Hloop end; [discriminate|].
  apply applyLoop_loads in Hloop as (new & Htrace & Hnew). simpl in Htrace, Hnew.
  assert (forall name cfg,
             EffApply name cfg ∈ new ->
             exists doc,
               ConfigStore.staged (configManager w) !! name = Some doc
               /\ (Forall UciEmitSpec.sectionOk doc -> cfg = doc)) as Hdocs.
  { intros name cfg Hin. destruct (Hnew name cfg Hin) as [Hchanged Hload].
    unfold ConfigStore.GetChanges in Hchanged.
    apply ConfigStoreMoreProps.range_map_keys in Hchanged as [doc Hdoc].
    exists doc. split; [exact Hdoc|]. intros Hok.
    destruct (Hfiles name doc Hdoc) as [Hfile _].
    revert Hload. unfold ConfigStore.Load.
    rewrite Hstaged, lookup_empty, Hopen, Hfile, UciEmitProps.Parse_Write by exact Hok.
    by intros [= <-]. }
  assert (forall extra : list Effect,
             callsOf extra = [] -> forall name cfg, EffApply name cfg ∉ extra) as Hnocall.
  { induction extra as [|eff extra IH]; intros Hc name cfg Hin.
    - by apply elem_of_nil in Hin.
    - apply elem_of_cons in Hin as [<-|Hin]; [discriminate Hc|].
      destruct eff; simpl in Hc; try discriminate Hc; by apply (IH Hc name cfg). }
  assert (forall base tail : list Effect,
             (forall name cfg, EffApply name cfg ∉ base) ->
             (forall name cfg, EffApply name cfg ∉ tail) ->
             forall name cfg, EffApply name cfg ∈ base ++ new ++ tail ->
             EffApply name cfg ∈ new) as Hmiddle.
  { intros base tail Hb Ht name cfg Hin.
    apply elem_of_app in Hin as [Hin|Hin]; [by destruct (Hb name cfg)|].
    apply elem_of_app in Hin as [Hin|Hin]; [exact Hin | by destruct (Ht name cfg)]. }
  destruct (0 <? confirmTimeout)%Z.
  - intros [= <-]. simpl. rewrite Htrace.
    exists ((extra0 ++ [EffPublish EventTransactionStarted] ++ extra1 ++ extra2
             ++ [EffPublish EventSnapshotCreated]) ++ new ++ []).
    split; [by rewrite app_nil_r, <- !app_assoc|].
    intros name cfg Hin. apply Hdocs. revert name cfg Hin. apply Hmiddle.
    + apply Hnocall. rewrite !callsOf_app. simpl.
      by rewrite Hc0, Hc1, Hc2.
    + intros name cfg Hin. by apply elem_of_nil in Hin.
  - match goal with |- context [updateTxRecord ?e ?f ?a ?x] =>
      destruct (updateTxRecord_shape Sys e f a x eq_refl eq_refl)
        as (r3 & extra3 & -> & Hc3 & _) end.
    intros [= <-]. simpl. rewrite Htrace.
    exists ((extra0 ++ [EffPublish EventTransactionStarted] ++ extra1 ++ extra2
             ++ [EffPublish EventSnapshotCreated]) ++ new
            ++ (extra3 ++ [EffPublish EventTransactionCompleted])).
    split; [by rewrite <- !app_assoc|].
    intros name cfg Hin. apply Hdocs. revert name cfg Hin. apply Hmiddle.
    + apply Hnocall. rewrite !callsOf_app. simpl.
      by rewrite Hc0, Hc1, Hc2.
    + apply Hnocall. rewrite callsOf_app. by rewrite Hc3.
Qed.

End Applied.

Lemma failed_commit_ends_failed_witness :
  exists w',
    @Commit canonical_range SnapshotSpec.mergeSortSlice nat SnapshotSpec.toyChecksum
      noSnapshotEnv "msg" 0 0 twoStagedWorld
    = (Err (ErrCreateSnapshot SnapshotStore.ErrCreateSnapshotDir), w')
    /\ GetState w' = StateFailed.
Proof.
  set (res := @Commit canonical_range SnapshotSpec.mergeSortSlice nat
                SnapshotSpec.toyChecksum noSnapshotEnv "msg" 0 0 twoStagedWorld).
  assert (res.1 = Err (ErrCreateSnapshot SnapshotStore.ErrCreateSnapshotDir)) as H1
    by (vm_compute; reflexivity).
  assert (res = (Err (ErrCreateSnapshot SnapshotStore.ErrCreateSnapshotDir), res.2)) as Hres
    by (rewrite <- H1; apply surjective_pairing).
  exists res.2. split; [exact Hres|].
  apply (@failed_commit_ends_failed canonical_range SnapshotSpec.mergeSortSlice nat
           SnapshotSpec.toyChecksum noSnapshotEnv "msg" 0 0 twoStagedWorld res.2
           (ErrCreateSnapshot SnapshotStore.ErrCreateSnapshotDir) Hres).
  - intros s. discriminate.
  - discriminate.
Defined.

Lemma commit_effects_in_order_witness :
  exists w',
    @Commit canonical_range SnapshotSpec.mergeSortSlice nat SnapshotSpec.toyChecksum
      exampleEnv "msg" 0 0 twoStagedWorld = (Ok tt, w')
    /\ callsOf (trace w')
       = [("network", true); ("network", false); ("firewall", true); ("firewall", false)]
    /\ eventsOf (trace w')
       = [EventTransactionStarted; EventSnapshotCreated; EventTransactionCompleted].
Proof.
  set (res := @Commit canonical_range SnapshotSpec.mergeSortSlice nat
                SnapshotSpec.toyChecksum exampleEnv "msg" 0 0 twoStagedWorld).
  assert (res.1 = Ok tt) as H1 by (vm_compute; reflexivity).
  assert (res = (Ok tt, res.2)) as Hres by (rewrite <- H1; apply surjective_pairing).
  destruct (@commit_effects_in_order canonical_range SnapshotSpec.mergeSortSlice nat
              SnapshotSpec.toyChecksum exampleEnv "msg" 0 0 twoStagedWorld res.2 Hres)
    as (new & Htrace & Hcalls & Hevents).
  exists res.2. split; [exact Hres|]. rewrite Htrace.
  change (trace twoStagedWorld ++ new) with new. split.
  - rewrite Hcalls. vm_compute. reflexivity.
  - rewrite Hevents. reflexivity.
Defined.

Lemma appliers_get_staged_documents_witness :
  exists w' new,
    @Commit canonical_range SnapshotSpec.mergeSortSlice nat SnapshotSpec.toyChecksum
      exampleEnv "msg" 0 0 twoStagedWorld = (Ok tt, w')
    /\ trace w' = trace twoStagedWorld ++ new
    /\ forall name cfg,
         EffApply name cfg ∈ new ->
         exists doc,
           ConfigStore.staged ConfigStoreSpec.twoStaged !! name = Some doc
           /\ (Forall UciEmitSpec.sectionOk doc -> cfg = doc).
Proof.
  set (res := @Commit canonical_range SnapshotSpec.mergeSortSlice nat
                SnapshotSpec.toyChecksum exampleEnv "msg" 0 0 twoStagedWorld).
  assert (res.1 = Ok tt) as H1 by (vm_compute; reflexivity).
  assert (res = (Ok tt, res.2)) as Hres by (rewrite <- H1; apply surjective_pairing).
  assert (ConfigStorePathSpec.noTmpClash (configManager twoStagedWorld)) as Hclash.
  { intros name [doc Hdoc].
    unfold twoStagedWorld, ConfigStoreSpec.twoStaged, ConfigStore.Stage in *. simpl in *.
    apply lookup_insert_Some in Hdoc as [[<- _]|[_ Hdoc]]; [reflexivity|].
    apply lookup_insert_Some in Hdoc as [[<- _]|[_ Hdoc]]; [reflexivity|].
    by rewrite lookup_empty in Hdoc. }
  assert (ConfigStorePathSpec.plainNames (configManager twoStagedWorld)) as Hplain.
  { apply (bool_decide_unpack _). vm_compute. reflexivity. }
  destruct (@appliers_get_staged_documents canonical_range SnapshotSpec.mergeSortSlice nat
              SnapshotSpec.toyChecksum exampleEnv "msg" 0 0 twoStagedWorld res.2
              Hplain Hclash (fun _ => eq_refl) Hres) as (new & Htrace & Hdocs).
  exists res.2, new. split; [exact Hres|]. split; [exact Htrace | exact Hdocs].
Defined.

End TransactionMoreProps.

Module NetworkApplyProps.
Import GoStrings Uci NetworkApply NetworkApplySpec.

Section Applier.
Context {mr : MapRange}.
Variable ParseIP : string -> option bool.
Variable exec : list (list string) -> list string -> Outcome.

Lemma extends_refl names a : extends ParseIP names a a.
Proof. exists []. by rewrite app_nil_r. Qed.

Lemma extends_trans names a b c :
  extends ParseIP names a b -> extends ParseIP names b c -> extends ParseIP names a c.
Proof.
  intros (n1 & H1 & F1) (n2 & H2 & F2). exists (n1 ++ n2).
  split; [by rewrite H2, H1, <- app_assoc | by apply Forall_app].
Qed.

Lemma extends_run names argv a :
  allowed ParseIP names argv -> extends ParseIP names a (runCommand exec argv a).2.
Proof. intros H. exists [argv]. split; [done | by repeat constructor]. Qed.

Lemma cidr_range (netmask : string) :
  (8 <= NetworkApplier.convertNetmaskToCIDR netmask <= 32)%Z.
Proof.
  unfold NetworkApplier.convertNetmaskToCIDR.
  destruct (NetworkApplier.masksMap !! netmask) as [c|] eqn:Hc.
  - by destruct (NetworkApplierProps.masks_are_dotted netmask c Hc).
  - unfold NetworkApplier.DefaultCIDR. lia.
Qed.

Lemma saveInterfaceState_extends names n a :
  n ∈ names -> extends ParseIP names a (saveInterfaceState exec n a).2.
Proof.
  intros Hn. unfold saveInterfaceState.
  destruct (Util.ValidateInterfaceName n) as [[]|e] eqn:Hv; [|apply extends_refl].
  pose proof (extends_run names ["ip"; "addr"; "show"; "dev"; n] a
                (AllowShow ParseIP names n Hn Hv)) as H.
  unfold runCommand in *. simpl in *. by destruct (cmdErr _).
Qed.

Lemma applyInterface_extends names n section a :
  n ∈ names -> extends ParseIP names a (applyInterface ParseIP exec n section a).2.
Proof.
  intros Hn. unfold applyInterface.
  destruct (Util.ValidateInterfaceName n) as [[]|e] eqn:Hv; [|apply extends_refl].
  destruct (String.eqb (default "" (GetOption section "proto")) "static").
  { unfold applyStaticInterface.
    destruct (GetOption section "ipaddr") as [ipaddr|]; [|apply extends_refl].
    destruct (GetOption section "netmask") as [netmask|]; [|apply extends_refl].
    destruct (Util.ValidateIPAddress ParseIP ipaddr) as [[]|e] eqn:Hip; [|apply extends_refl].
    destruct (Util.ValidateNetmask ParseIP netmask) as [[]|e]; [|apply extends_refl].
    unfold runCommand. simpl.
    assert (extends ParseIP names a
              {| previousState := previousState a;
                 commands := commands a ++ [["ip"; "addr"; "flush"; "dev"; n]] |}) as E1.
    { apply (extends_run names _ a). by constructor. }
    destruct (cmdErr (exec (commands a) _)); [exact E1|].
    match goal with |- context [exec ?log ["ip"; "addr"; "add"; ?addr; "dev"; n]] =>
      assert (extends ParseIP names a
                {| previousState := previousState a;
                   commands := log ++ [["ip"; "addr"; "add"; addr; "dev"; n]] |}) as E2
    end.
    { eapply extends_trans; [exact E1|].
      apply (extends_run names _ {| previousState := _; commands := _ |}).
      apply AllowAdd; [exact Hn | exact Hv | exact Hip | apply cidr_range]. }
    destruct (cmdErr (exec _ ["ip"; "addr"; "add"; _; "dev"; n])); [exact E2|].
    match goal with |- context [exec ?log ["ip"; "link"; "set"; n; "up"]] =>
      assert (extends ParseIP names a
                {| previousState := previousState a;
                   commands := log ++ [["ip"; "link"; "set"; n; "up"]] |}) as E3
    end.
    { eapply extends_trans; [exact E2|].
      apply (extends_run names _ {| previousState := _; commands := _ |}). by constructor. }
    destruct (cmdErr (exec _ ["ip"; "link"; "set"; n; "up"])); [exact E3|].
    destruct (GetOption section "gateway") as [gateway|]; [|exact E3].
    destruct (Util.ValidateIPAddress ParseIP gateway) as [[]|e] eqn:Hgw; [|exact E3].
    simpl.
    match goal with |- context [exec ?log ["ip"; "route"; "add"; "default"; "via"; gateway;
                                           "dev"; n]] =>
      assert (extends ParseIP names a
                {| previousState := previousState a;
                   commands := log ++ [["ip"; "route"; "add"; "default"; "via"; gateway;
                                        "dev"; n]] |}) as E5
    end.
    { eapply extends_trans; [exact E3|]. eapply extends_trans.
      - apply (extends_run names ["ip"; "route"; "del"; "default"]
                 {| previousState := _; commands := _ |}). constructor.
      - apply (extends_run names _ {| previousState := _; commands := _ |}).
        by constructor. }
    destruct (cmdErr (exec _ ["ip"; "route"; "add"; _; _; _; _; _])); [|exact E5].
    by destruct (Contains _ _). }
  destruct (String.eqb (default "" (GetOption section "proto")) "dhcp").
  { unfold applyDHCPInterface, runCommand. simpl.
    assert (extends ParseIP names a
              {| previousState := previousState a;
                 commands := commands a ++ [["ip"; "link"; "set"; n; "up"]] |}) as E1.
    { apply (extends_run names _ a). by constructor. }
    destruct (cmdErr (exec (commands a) _)); [exact E1|].
    match goal with |- context [exec ?log ["dhclient"; n]] =>
      assert (extends ParseIP names a
                {| previousState := previousState a;
                   commands := log ++ [["dhclient"; n]] |}) as E3
    end.
    { eapply extends_trans; [exact E1|]. eapply extends_trans.
      - apply (extends_run names ["dhclient"; "-r"; n]
                 {| previousState := _; commands := _ |}). by constructor.
      - apply (extends_run names _ {| previousState := _; commands := _ |}).
        by constructor. }
    by destruct (cmdErr (exec _ ["dhclient"; n])). }
  destruct (String.eqb (default "" (GetOption section "proto")) "none").
  { unfold applyNoneInterface, runCommand. simpl.
    assert (extends ParseIP names a
              {| previousState := previousState a;
                 commands := commands a ++ [["ip"; "link"; "set"; n; "down"]] |}) as E1.
    { apply (extends_run names _ a). by constructor. }
    by destruct (cmdErr (exec (commands a) _)). }
  apply extends_refl.
Qed.

Lemma applyInterfaces_extends names ctx interfaces : forall tick a,
  (forall s, s ∈ interfaces -> Name s ∈ names) ->
  extends ParseIP names a (applyInterfaces ParseIP exec ctx tick interfaces a).2.
Proof.
  induction interfaces as [|iface more IH]; intros tick a Hnames; simpl.
  - apply extends_refl.
  - destruct (ctx tick); [apply extends_refl|].
    assert (forall s, s ∈ more -> Name s ∈ names) as Hmore.
    { intros s Hs. apply Hnames. by apply list_elem_of_further. }
    destruct (String.eqb (Name iface) ""); [by apply IH|].
    assert (Name iface ∈ names) as Hn by (apply Hnames, list_elem_of_here).
    pose proof (saveInterfaceState_extends names (Name iface) a Hn) as E1.
    pose proof (applyInterface_extends names (Name iface) iface
                  (saveInterfaceState exec (Name iface) a).2 Hn) as E2.
    destruct (applyInterface ParseIP exec (Name iface) iface _) as [[e|] a2]; simpl in *.
    + by eapply extends_trans.
    + eapply extends_trans; [exact E1|]. eapply extends_trans; [exact E2|]. by apply IH.
Qed.

(** X21: no unvalidated text reaches a command line.  Whatever the
    document holds, whatever the commands do and however [Apply] ends, every
    command that [Apply] runs is one of nine forms of [ip] and [dhclient]
    command lines, for an interface that is the name of an interface section
    of the document and has passed [ValidateInterfaceName], with addresses
    that have passed [ValidateIPAddress] and a prefix length between 8 and
    32. *)
Theorem apply_runs_validated_commands (ctx : Transaction.Context) (config : Config)
    (a : State) :
  exists new,
    commands (Apply ParseIP exec ctx config a).2 = commands a ++ new
    /\ Forall (allowed ParseIP (interfaceNames config)) new.
Proof.
  apply applyInterfaces_extends. intros s Hs. by apply list_elem_of_fmap_2.
Qed.

(** X22: [Rollback] of the applier never reports a failure of a command.
    With a context that is not done it returns no error whatever the
    commands do, after running, for every saved interface, the flush of its
    addresses and then the command that brings it down; the saved states
    are kept. *)
Theorem rollback_ignores_command_failures (ctx : Transaction.Context) (a : State) :
  (forall tick, ctx tick = false) ->
  exists a',
    Rollback exec ctx a = (None, a')
    /\ previousState a' = previousState a
    /\ commands a'
       = commands a ++ flat_map rollbackCommands (range_map (previousState a)).
Proof.
  intros Hctx. unfold Rollback.
  generalize (range_map (previousState a)) as saved. intros saved.
  generalize 0%nat as tick. revert a.
  induction saved as [|[n st] saved IH]; intros a tick; simpl.
  - exists a. by rewrite app_nil_r.
  - rewrite Hctx.
    destruct (IH (restoreInterfaceState exec n a) (S tick)) as (a' & -> & Hp & Hc).
    exists a'. split; [done|]. split; [exact Hp|].
    rewrite Hc. unfold restoreInterfaceState, runCommand. simpl.
    by rewrite <- !app_assoc.
Qed.

End Applier.

Lemma rollback_ignores_command_failures_witness :
  exists a',
    @Rollback canonical_range allFail Transaction.Background
      {| previousState := {[ "eth0" := "inet 10.0.0.2/24" ]}; commands := [] |}
    = (None, a')
    /\ commands a'
       = [ ["ip"; "addr"; "flush"; "dev"; "eth0"]; ["ip"; "link"; "set"; "eth0"; "down"] ].
Proof.
  destruct (@rollback_ignores_command_failures canonical_range allFail
              Transaction.Background
              {| previousState := {[ "eth0" := "inet 10.0.0.2/24" ]}; commands := [] |})
    as (a' & Hr & _ & Hc); [reflexivity|].
  exists a'. split; [exact Hr|]. rewrite Hc. vm_compute. reflexivity.
Defined.

(** The interface whose name holds a blank and a semicolon is refused
    before any command is run for it; the commands for [lan] have been
    run. *)
Example apply_refuses_bad_name :
  let '(r, a) := Apply toyParseIP allWork Transaction.Background lanWanDoc
                   NewNetworkApplier in
  r = Some (ErrApplyInterface "wan; reboot"
              (ErrInvalidName (Util.ErrInvalid "wan; reboot")))
  /\ commands a
     = [ ["ip"; "addr"; "show"; "dev"; "lan"];
         ["ip"; "addr"; "flush"; "dev"; "lan"];
         ["ip"; "addr"; "add"; "192.168.1.1/24"; "dev"; "lan"];
         ["ip"; "link"; "set"; "lan"; "up"] ].
Proof. vm_compute. done. Qed.

End NetworkApplyProps.

Module UtilProps.
Import GoStrings Util UtilSpec.

Lemma ReplaceAll1_keep (s : string) (c : ascii) :
  ReplaceAll1 s c "" = keep (fun x => negb (Ascii.eqb x c)) s.
Proof.
  induction s as [|x s IH]; [reflexivity|]. simpl.
  destruct (Ascii.eqb x c); simpl; by rewrite IH.
Qed.

Lemma keep_keep (p q : ascii -> bool) (s : string) :
  keep q (keep p s) = keep (fun x => p x && q x) s.
Proof.
  induction s as [|x s IH]; [reflexivity|]. simpl.
  destruct (p x); simpl; [|exact IH]. destruct (q x); by rewrite IH.
Qed.

Lemma keep_ext (p q : ascii -> bool) (s : string) :
  (forall x, p x = q x) -> keep p s = keep q s.
Proof.
  intros H. induction s as [|x s IH]; [reflexivity|]. simpl. by rewrite H, IH.
Qed.

Lemma keep_all (p : ascii -> bool) (s : string) : allInClass p s = true -> keep p s = s.
Proof.
  induction s as [|x s IH]; [reflexivity|]. simpl.
  intros [Hx Hs]%andb_prop. by rewrite Hx, IH.
Qed.

Lemma foldl_ReplaceAll1 (chars : list ascii) : forall s,
  foldl (fun result char => ReplaceAll1 result char "") s chars
  = keep (fun x => negb (existsb (Ascii.eqb x) chars)) s.
Proof.
  induction chars as [|c chars IH]; intros s; simpl.
  - symmetry. by apply keep_all; induction s.
  - rewrite IH, ReplaceAll1_keep, keep_keep. apply keep_ext.
    intros x. by rewrite negb_orb.
Qed.

Lemma allInClass_impl (p q : ascii -> bool) (s : string) :
  (forall c, p c = true -> q c = true) -> allInClass p s = true -> allInClass q s = true.
Proof.
  intros Hpq. induction s as [|c s IH]; [done|]. simpl.
  intros [Hc Hs]%andb_prop. by rewrite (Hpq _ Hc), IH.
Qed.

Lemma isInterfaceChar_harmless (c : ascii) : isInterfaceChar c = true -> harmless c = true.
Proof.
  destruct c as [[] [] [] [] [] [] [] []]; vm_compute; intros H; try reflexivity;
    discriminate H.
Qed.

(** X23: [SanitizeString] deletes exactly the twelve characters of its
    list and keeps all other characters in their order (quotes and blanks
    among them).  So applying it twice is the same as applying it once, and
    a name that [ValidateInterfaceName] accepts is returned unchanged. *)
Theorem sanitize_keeps_harmless (s : string) :
  SanitizeString s = keep harmless s
  /\ SanitizeString (SanitizeString s) = SanitizeString s
  /\ (ValidateInterfaceName s = Ok tt -> SanitizeString s = s).
Proof.
  unfold SanitizeString. rewrite !foldl_ReplaceAll1. fold harmless.
  split; [reflexivity|]. split.
  - rewrite keep_keep. apply keep_ext. intros x. by destruct (harmless x).
  - unfold ValidateInterfaceName, matchClassPlus.
    destruct (String.eqb s ""); [done|].
    destruct (15 <? String.length s)%nat; [done|]. simpl.
    destruct (allInClass isInterfaceChar s) eqn:Hclass; [|done].
    intros _. apply keep_all. revert Hclass. apply allInClass_impl.
    apply isInterfaceChar_harmless.
Qed.

Lemma sanitize_keeps_harmless_witness :
  SanitizeString "br-lan.10" = "br-lan.10"
  /\ SanitizeString "lan; rm -rf $(HOME) 'x'" = "lan rm -rf HOME 'x'".
Proof.
  destruct (sanitize_keeps_harmless "br-lan.10") as (_ & _ & Hvalid).
  destruct (sanitize_keeps_harmless "lan; rm -rf $(HOME) 'x'") as (Hkeep & _ & _).
  split; [apply Hvalid; reflexivity|]. rewrite Hkeep. reflexivity.
Defined.

End UtilProps.
